(** * js-json: a JSON-like lexer and recursive-descent parser

    A shallow embedding of [src/index.js].  JavaScript strings are sequences
    of UTF-16 code units; the regular expressions of the grammar table are
    kept as syntax trees and run by a backtracking matcher; the Lexer is a
    record threaded through a small state-and-exception monad; the
    mutually recursive parser methods are defined by recursion on fuel. *)

From Stdlib Require Import String Ascii.
From Stdlib Require Import List Bool Arith NArith ZArith Lia.
Import ListNotations.

(** ** JavaScript strings *)

(** A code unit, as [charCodeAt] returns it. *)
Definition char := N.
Definition jsstring := list char.

Definition code (a : ascii) : char := N_of_ascii a.

(** A string literal of the source text, as a sequence of code units. *)
Definition js (s : string) : jsstring := map code (list_ascii_of_string s).

Definition TAB : char := 9%N.
Definition LF : char := 10%N.
Definition CR : char := 13%N.
Definition SPACE : char := 32%N.
Definition DQUOTE : char := 34%N.
Definition BACKSLASH : char := 92%N.

(** For inputs that contain double quotes: [jsq] reads an apostrophe of its
    argument as a double quote, so [jsq "{'a':1}"] is the text [{"a":1}]. *)
Definition jsq (s : string) : jsstring :=
  map (fun c => if N.eqb c 39 then DQUOTE else c) (js s).

Fixpoint jsstring_eqb (a b : jsstring) : bool :=
  match a, b with
  | [], [] => true
  | x :: a', y :: b' => N.eqb x y && jsstring_eqb a' b'
  | _, _ => false
  end.

(** [s.charCodeAt(i)]; [None] is NaN. *)
Definition charCodeAt (s : jsstring) (i : nat) : option char := nth_error s i.

(** [s.substr(n)] for [0 <= n]. *)
Definition substr (s : jsstring) (n : nat) : jsstring := skipn n s.

(** ** Regular expressions

    The patterns of the grammar table are built from literal characters,
    character classes (a list of ranges, possibly negated), sequence,
    alternation, [?], [*], [+] and [{n}]; they have no groups that capture,
    no assertions and no back-references.  Each entry is anchored at the
    start of the remaining input by its leading [^]. *)

Inductive regex :=
| Eps
| Lit (c : char)
| Class (negated : bool) (ranges : list (char * char))
| Seq (r1 r2 : regex)
| Alt (r1 r2 : regex)
| Opt (r : regex)
| Star (r : regex).

Definition Plus (r : regex) : regex := Seq r (Star r).

Fixpoint Rep (n : nat) (r : regex) : regex :=
  match n with
  | 0 => Eps
  | S n' => Seq r (Rep n' r)
  end.

Fixpoint Str (s : jsstring) : regex :=
  match s with
  | [] => Eps
  | c :: s' => Seq (Lit c) (Str s')
  end.

Definition one (c : char) : char * char := (c, c).
Definition rng (a b : ascii) : char * char := (code a, code b).
Definition chr (a : ascii) : char * char := one (code a).

Definition in_ranges (c : char) (ranges : list (char * char)) : bool :=
  existsb (fun r => N.leb (fst r) c && N.leb c (snd r)) ranges.

(** Greedy iteration: the iterations of [f] are tried first, longest first,
    and the empty iteration last; an iteration that consumes nothing is
    rejected, as RepeatMatcher does. *)
Fixpoint star (f : jsstring -> list jsstring) (n : nat) (s : jsstring)
  : list jsstring :=
  match n with
  | 0 => [s]
  | S n' =>
      flat_map (fun s1 => if length s1 <? length s then star f n' s1 else [])
               (f s) ++ [s]
  end.

(** The backtracking matcher: [rm r s] lists what is left of [s] after each
    way of matching [r] at the start of [s], in the order in which the
    backtracking search of the engine tries them: the left alternative
    before the right one, one more iteration before none.  The search
    stops at the first way that succeeds, the head of the list. *)
Fixpoint rm (r : regex) (s : jsstring) : list jsstring :=
  match r with
  | Eps => [s]
  | Lit c =>
      match s with
      | x :: s' => if N.eqb x c then [s'] else []
      | [] => []
      end
  | Class negated ranges =>
      match s with
      | x :: s' => if xorb negated (in_ranges x ranges) then [s'] else []
      | [] => []
      end
  | Seq r1 r2 => flat_map (rm r2) (rm r1 s)
  | Alt r1 r2 => rm r1 s ++ rm r2 s
  | Opt r1 => rm r1 s ++ [s]
  | Star r1 => star (rm r1) (length s) s
  end.

(** [s.match(new RegExp("^(?:" + r + ")"))]: [match[0]] or null. *)
Definition String_match (s : jsstring) (r : regex) : option jsstring :=
  match rm r s with
  | rest :: _ => Some (firstn (length s - length rest) s)
  | [] => None
  end.

(** ** The grammar table

    The pattern strings of the source, with the names they have there.
    The string entry alone is compiled with the [u] flag, under which a
    surrogate pair is one character for the negated class of [S_CHAR]; the
    class excludes no surrogate, so matching unit by unit consumes the same
    text. *)

Definition S_SPACE := Class false [one TAB; one LF; one CR; one SPACE].
Definition S_DIGIT := Class false [rng "0" "9"].
Definition S_DIGITS := Plus (Class false [rng "0" "9"]).
Definition S_ONENINE := Class false [rng "1" "9"].
Definition S_INT :=
  Seq (Opt (Lit (code "-"))) (Alt (Seq S_ONENINE S_DIGITS) S_DIGIT).
Definition S_FRAC := Seq (Lit (code ".")) S_DIGITS.
Definition S_EXP :=
  Seq (Class false [chr "e"; chr "E"])
      (Seq (Class false [chr "+"; chr "-"]) S_DIGITS).

Definition S_ESCAPE :=
  Alt (Class false [one BACKSLASH; one DQUOTE; chr "b"; chr "f"; chr "n";
                    chr "r"; chr "t"; one LF; one CR])
      (Seq (Lit (code "u"))
           (Rep 4 (Class false [rng "0" "9"; rng "a" "f"; rng "A" "F"]))).

Definition S_CHAR :=
  Alt (Seq (Lit BACKSLASH) S_ESCAPE)
      (Class true [(0%N, 31%N); chr "b"; one DQUOTE; one BACKSLASH;
                   one CR; one LF]).

Definition S_STRING := Seq (Lit DQUOTE) (Seq (Star S_CHAR) (Lit DQUOTE)).
Definition S_PUNC :=
  Class false [one DQUOTE; chr ":"; chr ","; chr "["; chr "]"; chr "{";
               chr "}"].
Definition S_BOOL := Alt (Str (js "true")) (Str (js "false")).
Definition S_NUMBER :=
  Alt (Seq S_FRAC (Opt S_EXP))
      (Seq S_INT (Seq (Opt S_FRAC) (Opt S_EXP))).
Definition S_NULL := Str (js "null").

Inductive TokenType :=
| TOKEN_STRING
| TOKEN_PUNCTUATOR
| TOKEN_NUMBER
| TOKEN_BOOLEAN
| TOKEN_NULL.

Definition TokenType_eqb (a b : TokenType) : bool :=
  match a, b with
  | TOKEN_STRING, TOKEN_STRING
  | TOKEN_PUNCTUATOR, TOKEN_PUNCTUATOR
  | TOKEN_NUMBER, TOKEN_NUMBER
  | TOKEN_BOOLEAN, TOKEN_BOOLEAN
  | TOKEN_NULL, TOKEN_NULL => true
  | _, _ => false
  end.

Record Token := mkToken {
  type : TokenType;
  value : jsstring;
  start : nat;
  end_ : nat
}.

Definition new_Token (type : TokenType) (value : jsstring) (start : nat)
  : Token :=
  {| type := type; value := value; start := start;
     end_ := start + length value |}.

Definition grammar : list (TokenType * regex) :=
  [ (TOKEN_STRING, S_STRING);
    (TOKEN_NUMBER, S_NUMBER);
    (TOKEN_PUNCTUATOR, S_PUNC);
    (TOKEN_BOOLEAN, S_BOOL);
    (TOKEN_NULL, S_NULL) ].

(** ** Completions, and the monad of Lexer-state transformers *)

Inductive exn :=
| Error (message : jsstring)
| TypeError (message : jsstring)
| ReferenceError (message : jsstring).

(** Reading property [value] of null or of undefined (the engine's text). *)
Definition null_value : exn :=
  TypeError (js "Cannot read properties of null (reading 'value')").
Definition undefined_value : exn :=
  TypeError (js "Cannot read properties of undefined (reading 'value')").

Record Lexer := mkLexer {
  index : nat;
  source : jsstring;
  input : jsstring;
  stash : list Token
}.

Definition new_Lexer (input : jsstring) : Lexer :=
  {| index := 0; source := input; input := input; stash := [] |}.

(** A method call returns normally with a result and the new state, throws,
    or exhausts the fuel of the model. *)
Inductive Completion (A : Type) :=
| Normal (a : A) (l : Lexer)
| Throw (e : exn)
| OutOfFuel.

Arguments Normal {A} a l.
Arguments Throw {A} e.
Arguments OutOfFuel {A}.

Definition M (A : Type) := Lexer -> Completion A.

Definition ret {A} (a : A) : M A := fun l => Normal a l.

Definition bind {A B} (m : M A) (k : A -> M B) : M B :=
  fun l =>
    match m l with
    | Normal a l' => k a l'
    | Throw e => Throw e
    | OutOfFuel => OutOfFuel
    end.

Definition throw {A} (e : exn) : M A := fun _ => Throw e.

Notation "x <- m ;; k" := (bind m (fun x => k))
  (at level 61, m at next level, right associativity).
Notation "m ;;; k" := (bind m (fun _ => k))
  (at level 61, right associativity).

(** ** Lexer *)

Definition hasEnded (l : Lexer) : bool := length (source l) <=? index l.

Definition forward (times : nat) (l : Lexer) : Lexer :=
  let start := index l in
  let newStart := Nat.max 0 (start + times) in
  {| index := index l + times;
     source := source l;
     input := substr (source l) newStart;
     stash := stash l |}.

(** The [for] loop of [skipWhitespace]: the value of [i] when it exits.
    Every iteration advances [i], so [fuel = source.length] is never
    exhausted before [i < source.length] fails. *)
Fixpoint skipWhitespace_loop (fuel : nat) (source : jsstring) (i : nat)
  : nat :=
  match fuel with
  | 0 => i
  | S fuel' =>
      if i <? length source then
        match charCodeAt source i with
        | Some char =>
            if N.eqb char 13 then
              let i :=
                match charCodeAt source (i + 1) with
                | Some next => if N.eqb next 10 then i + 1 else i
                | None => i
                end in
              skipWhitespace_loop fuel' source (i + 1)
            else if N.leb 0 char && N.leb char 32 then
              skipWhitespace_loop fuel' source (i + 1)
            else i
        | None => i
        end
      else i
  end.

Definition skipWhitespace (l : Lexer) : Lexer :=
  let start := index l in
  let i := skipWhitespace_loop (length (source l)) (source l) (index l) in
  forward (i - start) l.

(** [source[i]] inside a template literal. *)
Definition char_at_to_string (s : jsstring) (i : nat) : jsstring :=
  match nth_error s i with
  | Some c => [c]
  | None => js "undefined"
  end.

(** The [for ... of grammar] loop of [lex], after the first
    [skipWhitespace]. *)
Fixpoint lex_grammar (g : list (TokenType * regex)) : M Token :=
  fun l =>
    match g with
    | (type, regex) :: g' =>
        match String_match (input l) regex with
        | Some match0 =>
            let token := new_Token type match0 (index l) in
            let l := forward (length (value token)) l in
            let l := skipWhitespace l in
            Normal token l
        | None => lex_grammar g' l
        end
    | [] =>
        Throw (Error (js "Unexpected token '"
                        ++ char_at_to_string (source l) (index l)
                        ++ js "'"))
    end.

Definition lex : M Token :=
  fun l => lex_grammar grammar (skipWhitespace l).

Definition push (token : Token) (l : Lexer) : Lexer :=
  {| index := index l; source := source l; input := input l;
     stash := stash l ++ [token] |}.

(** The [while (times-- > -1)] loop of [lookahead]; it runs [index + 1]
    times unless the input ends first. *)
Fixpoint lookahead_loop (times : nat) : M unit :=
  fun l =>
    match times with
    | 0 => Normal tt l
    | S times' =>
        if hasEnded l then Normal tt l
        else
          match lex l with
          | Normal token l' => lookahead_loop times' (push token l')
          | Throw e => Throw e
          | OutOfFuel => OutOfFuel
          end
    end.

Definition lookahead (index : Z) : M (option Token) :=
  if (index <? 0)%Z then
    throw (Error (js "Lookahead index can not be less than 0"))
  else
    lookahead_loop (Z.to_nat (index + 1)) ;;;
    (fun l => Normal (nth_error (stash l) (Z.to_nat index)) l).

Definition peek : M (option Token) := lookahead 0.

(** What [next] returns; [result] is its field [value], [None] when it is
    undefined. *)
Record IteratorResult := mkIteratorResult {
  done : bool;
  result : option Token
}.

Definition shift (l : Lexer) : Lexer :=
  {| index := index l; source := source l; input := input l;
     stash := tl (stash l) |}.

Definition next : M IteratorResult :=
  fun l =>
    match stash l with
    | token :: _ =>
        Normal {| done := false; result := Some token |} (shift l)
    | [] =>
        if hasEnded l then Normal {| done := true; result := None |} l
        else (token <- lex ;;
              ret {| done := false; result := Some token |}) l
    end.

(** ** AST nodes *)

(** A field that may hold a number or undefined. *)
Definition field := option nat.

(** An object of class Property has the fields [type], [key], [start] and
    [end]: its constructor assigns no [value]. *)
Record Property := mkProperty {
  Property_type : jsstring;
  Property_key : Token;
  Property_start : field;
  Property_end : field
}.

(** The nodes [parseValue] returns.  Their constructors are called with
    the [start] and [end] of tokens, except [NullLiteral], which is called
    with a [start] only and so has an undefined [end]. *)
#[warnings="-register-all"]
Inductive Node :=
| BooleanLiteral (value : jsstring) (start end_ : nat)
| StringLiteral (value : jsstring) (start end_ : nat)
| NullLiteral (start : nat) (end_ : field)
| NumericLiteral (value : jsstring) (start end_ : nat)
| ArrayLiteral (elements : list Node) (start end_ : nat)
| ObjectLiteral (properties : list Property) (start end_ : nat).

(** [node.type], [node.start] and [node.end]. *)
Definition Node_type (node : Node) : jsstring :=
  match node with
  | BooleanLiteral _ _ _ => js "BooleanLiteral"
  | StringLiteral _ _ _ => js "StringLiteral"
  | NullLiteral _ _ => js "NullLiteral"
  | NumericLiteral _ _ _ => js "NumericLiteral"
  | ArrayLiteral _ _ _ => js "ArrayLiteral"
  | ObjectLiteral _ _ _ => js "ObjectLiteral"
  end.

Definition Node_start (node : Node) : nat :=
  match node with
  | BooleanLiteral _ start _
  | StringLiteral _ start _
  | NullLiteral start _
  | NumericLiteral _ start _
  | ArrayLiteral _ start _
  | ObjectLiteral _ start _ => start
  end.

Definition Node_end (node : Node) : field :=
  match node with
  | BooleanLiteral _ _ end_
  | StringLiteral _ _ end_
  | NumericLiteral _ _ end_
  | ArrayLiteral _ _ end_
  | ObjectLiteral _ _ end_ => Some end_
  | NullLiteral _ end_ => end_
  end.

(** The constructor of class Property: its [value] argument is dropped. *)
Definition new_Property (key : Token) (value : Node) (start end_ : field)
  : Property :=
  {| Property_type := js "Property";
     Property_key := key;
     Property_start := start;
     Property_end := end_ |}.

Record Program := mkProgram { program : Node }.

(** ** Parser

    A Parser owns one Lexer, the only state its methods change, so they
    are written as transformers of the Lexer. *)

Definition error {A} (message : jsstring) : M A := throw (Error message).

(** [arguments] in a template literal. *)
Definition Arguments_toString : jsstring := js "[object Arguments]".

(** The loop of [ensure] sets [found] when some argument is the value of a
    non-null token. *)
Definition ensure_found (token : option Token) (arguments : list jsstring)
  : bool :=
  existsb (fun argument =>
             match token with
             | Some token => jsstring_eqb (value token) argument
             | None => false
             end) arguments.

Definition ensure (arguments : list jsstring) : M Token :=
  r <- next ;;
  let token := result r in
  let found := ensure_found token arguments in
  match token with
  | Some token =>
      if negb found then
        error (js "Expected '" ++ Arguments_toString ++ js "', got '"
                 ++ value token ++ js "'")
      else ret token
  | None => throw undefined_value
  end.

Definition ensureType_found (token : option Token)
  (arguments : list TokenType) : bool :=
  existsb (fun argument =>
             match token with
             | Some token => TokenType_eqb (type token) argument
             | None => false
             end) arguments.

(** The message of [ensureType] reads the variable [value], which is bound
    nowhere. *)
Definition ensureType (arguments : list TokenType) : M Token :=
  r <- next ;;
  let token := result r in
  let found := ensureType_found token arguments in
  match token with
  | Some token =>
      if negb found then throw (ReferenceError (js "value is not defined"))
      else ret token
  | None => throw undefined_value
  end.

Definition is_ (value' : jsstring) : M bool :=
  token <- peek ;;
  match token with
  | Some token => ret (jsstring_eqb (value token) value')
  | None => throw null_value
  end.

Section Methods.

(** [this.parseValue()], as the object and array methods call it. *)
Variable parseValue : M Node.

Fixpoint parseObjectLiteral_while (fuel : nat) (properties : list Property)
  : M (list Property) :=
  match fuel with
  | 0 => fun _ => OutOfFuel
  | S fuel' =>
      closing <- is_ (js "}") ;;
      if negb closing then
        key <- ensureType [TOKEN_STRING; TOKEN_NUMBER] ;;
        ensure [js ":"] ;;;
        value <- parseValue ;;
        let properties :=
          properties
            ++ [new_Property key value (Some (start key)) (Node_end value)]
        in
        closing <- is_ (js "}") ;;
        (if negb closing then ensure [js ","] ;;; ret tt else ret tt) ;;;
        parseObjectLiteral_while fuel' properties
      else ret properties
  end.

Definition parseObjectLiteral (fuel : nat) : M Node :=
  startToken <- ensure [js "{"] ;;
  properties <- parseObjectLiteral_while fuel [] ;;
  endToken <- ensure [js "}"] ;;
  ret (ObjectLiteral properties (start startToken) (end_ endToken)).

Fixpoint parseArrayLiteral_while (fuel : nat) (elements : list Node)
  : M (list Node) :=
  match fuel with
  | 0 => fun _ => OutOfFuel
  | S fuel' =>
      closing <- is_ (js "]") ;;
      if negb closing then
        element <- parseValue ;;
        let elements := elements ++ [element] in
        closing <- is_ (js "]") ;;
        (if negb closing then ensure [js ","] ;;; ret tt else ret tt) ;;;
        parseArrayLiteral_while fuel' elements
      else ret elements
  end.

Definition parseArrayLiteral (fuel : nat) : M Node :=
  startToken <- ensure [js "["] ;;
  elements <- parseArrayLiteral_while fuel [] ;;
  endToken <- ensure [js "]"] ;;
  ret (ArrayLiteral elements (start startToken) (end_ endToken)).

(** The literal node [parseValue] builds from a token, or null. *)
Definition literal (token : Token) : option Node :=
  match type token with
  | TOKEN_BOOLEAN =>
      Some (BooleanLiteral (value token) (start token) (end_ token))
  | TOKEN_STRING =>
      Some (StringLiteral (value token) (start token) (end_ token))
  | TOKEN_NUMBER =>
      Some (NumericLiteral (value token) (start token) (end_ token))
  | TOKEN_NULL => Some (NullLiteral (start token) None)
  | TOKEN_PUNCTUATOR => None
  end.

End Methods.

Fixpoint parseValue (fuel : nat) : M Node :=
  match fuel with
  | 0 => fun _ => OutOfFuel
  | S fuel' =>
      token <- peek ;;
      match token with
      | None => error (js "Unexpected end of input")
      | Some token =>
          object <- is_ (js "{") ;;
          if object then parseObjectLiteral (parseValue fuel') fuel'
          else
            array <- is_ (js "[") ;;
            if array then parseArrayLiteral (parseValue fuel') fuel'
            else
              match literal token with
              | Some node => next ;;; ret node
              | None => error (js "Unexpected token " ++ value token)
              end
      end
  end.

Definition Parser_parse (fuel : nat) : M Program :=
  node <- parseValue fuel ;; ret {| program := node |}.

(** [parse(input)].  Each level of nesting and each loop iteration consumes
    a token, and a token is at least one character: [input.length + 1] is
    fuel enough (see [parse_terminates]). *)
Definition parse (input : jsstring) : Completion Program :=
  Parser_parse (S (length input)) (new_Lexer input).

(** What a caller of [parse] observes. *)
Definition outcome (c : Completion Program) : option (Node + exn) :=
  match c with
  | Normal p _ => Some (inl (program p))
  | Throw e => Some (inr e)
  | OutOfFuel => None
  end.

(** ** The language of a regular expression *)

Inductive Matches : regex -> jsstring -> Prop :=
| MEps : Matches Eps []
| MLit c : Matches (Lit c) [c]
| MClass negated ranges c :
    xorb negated (in_ranges c ranges) = true ->
    Matches (Class negated ranges) [c]
| MSeq r1 r2 m1 m2 :
    Matches r1 m1 -> Matches r2 m2 -> Matches (Seq r1 r2) (m1 ++ m2)
| MAltL r1 r2 m : Matches r1 m -> Matches (Alt r1 r2) m
| MAltR r1 r2 m : Matches r2 m -> Matches (Alt r1 r2) m
| MOptSome r m : Matches r m -> Matches (Opt r) m
| MOptNone r : Matches (Opt r) []
| MStarNil r : Matches (Star r) []
| MStarCons r m1 m2 :
    Matches r m1 -> m1 <> [] -> Matches (Star r) m2 ->
    Matches (Star r) (m1 ++ m2).

(** Whether a regular expression can match the empty string. *)
Fixpoint nullable (r : regex) : bool :=
  match r with
  | Eps => true
  | Lit _ => false
  | Class _ _ => false
  | Seq r1 r2 => nullable r1 && nullable r2
  | Alt r1 r2 => nullable r1 || nullable r2
  | Opt _ => true
  | Star _ => true
  end.

(** The first match the backtracking search finds. *)
Definition first (r : regex) (s : jsstring) : option jsstring :=
  hd_error (rm r s).

(** [keeps rest t]: the remainder [t] still contains all of [rest]. *)
Definition keeps (rest t : jsstring) : bool := length rest <=? length t.

(** The grammar loop of [lex] as a function of the remaining input: the
    kind and lexeme of the first entry that matches. *)
Fixpoint grammar_match (g : list (TokenType * regex)) (s : jsstring)
  : option (TokenType * jsstring) :=
  match g with
  | (type, regex) :: g' =>
      match String_match s regex with
      | Some match0 => Some (type, match0)
      | None => grammar_match g' s
      end
  | [] => None
  end.

(** A token as [lex] builds them: the first grammar entry that matches some
    text is its kind, the match is its lexeme, and [end] is set by the
    constructor. *)
Definition lexed (token : Token) : Prop :=
  (exists s, grammar_match grammar s = Some (type token, value token))
  /\ end_ token = start token + length (value token).

(** The nodes of a tree: the node and the nodes below it.  (A Property
    holds no node.) *)
Fixpoint nodes (node : Node) : list Node :=
  node ::
  match node with
  | ArrayLiteral elements _ _ => flat_map nodes elements
  | _ => []
  end.

(** Partial correctness of a method call: if it returns, [Q] holds of the
    result and the new state. *)
Definition wp {A} (m : M A) (l : Lexer) (Q : A -> Lexer -> Prop) : Prop :=
  match m l with
  | Normal a l' => Q a l'
  | Throw _ => True
  | OutOfFuel => True
  end.

(** The characters a non-empty match can begin with. *)
Fixpoint starts (r : regex) (c : char) : bool :=
  match r with
  | Eps => false
  | Lit c' => N.eqb c c'
  | Class negated ranges => xorb negated (in_ranges c ranges)
  | Seq r1 r2 => starts r1 c || (nullable r1 && starts r2 c)
  | Alt r1 r2 => starts r1 c || starts r2 c
  | Opt r1 => starts r1 c
  | Star r1 => starts r1 c
  end.

(** The characters that can occur in a match. *)
Fixpoint alphabet (r : regex) (c : char) : bool :=
  match r with
  | Eps => false
  | Lit c' => N.eqb c c'
  | Class negated ranges => xorb negated (in_ranges c ranges)
  | Seq r1 r2 => alphabet r1 c || alphabet r2 c
  | Alt r1 r2 => alphabet r1 c || alphabet r2 c
  | Opt r1 => alphabet r1 c
  | Star r1 => alphabet r1 c
  end.

(** The state of a Lexer that has consumed all of [source] and holds
    [stash]. *)
Definition ended (source : jsstring) (stash : list Token) : Lexer :=
  {| index := length source; source := source; input := [];
     stash := stash |}.

(** The lexeme a string, number or boolean leaf carries; the token such a
    leaf was built from. *)
Definition lexeme (node : Node) : option jsstring :=
  match node with
  | BooleanLiteral value _ _
  | StringLiteral value _ _
  | NumericLiteral value _ _ => Some value
  | _ => None
  end.

Definition leaf_token (node : Node) : option Token :=
  match node with
  | BooleanLiteral value start end_ =>
      Some {| type := TOKEN_BOOLEAN; value := value; start := start;
              end_ := end_ |}
  | StringLiteral value start end_ =>
      Some {| type := TOKEN_STRING; value := value; start := start;
              end_ := end_ |}
  | NumericLiteral value start end_ =>
      Some {| type := TOKEN_NUMBER; value := value; start := start;
              end_ := end_ |}
  | _ => None
  end.

Definition leaf_lexed (node : Node) : Prop :=
  forall token, leaf_token node = Some token -> lexed token.

(** ** The string grammar in the words of the specification

    A string escape is a backslash followed by one of a fixed set of escape
    letters, a literal line feed, a literal carriage return, or [u] and
    exactly four hexadecimal digits; a string character is an escape or a
    single character that is no control character (0 to 31), not [b], not
    a double quote, not a backslash, not a carriage return and not a line
    feed; a string is a double quote, zero or more string characters and a
    double quote. *)

Definition spec_escape_letter (c : char) : bool :=
  existsb (N.eqb c)
    [BACKSLASH; DQUOTE; code "b"; code "f"; code "n"; code "r"; code "t"].

Definition spec_hex_digit (c : char) : bool :=
  (N.leb (code "0") c && N.leb c (code "9"))
  || (N.leb (code "a") c && N.leb c (code "f"))
  || (N.leb (code "A") c && N.leb c (code "F")).

Inductive spec_string_escape : jsstring -> Prop :=
| escape_letter c :
    spec_escape_letter c = true -> spec_string_escape [BACKSLASH; c]
| escape_line_feed : spec_string_escape [BACKSLASH; LF]
| escape_carriage_return : spec_string_escape [BACKSLASH; CR]
| escape_unicode h1 h2 h3 h4 :
    spec_hex_digit h1 = true -> spec_hex_digit h2 = true ->
    spec_hex_digit h3 = true -> spec_hex_digit h4 = true ->
    spec_string_escape [BACKSLASH; code "u"; h1; h2; h3; h4].

Definition spec_plain_character (c : char) : bool :=
  negb (N.leb c 31) && negb (N.eqb c (code "b")) && negb (N.eqb c DQUOTE)
  && negb (N.eqb c BACKSLASH) && negb (N.eqb c CR) && negb (N.eqb c LF).

Inductive spec_string_character : jsstring -> Prop :=
| character_escape e : spec_string_escape e -> spec_string_character e
| character_plain c :
    spec_plain_character c = true -> spec_string_character [c].

Definition spec_string_characters (body : jsstring) : Prop :=
  exists characters,
    body = concat characters /\ Forall spec_string_character characters.

Definition spec_string (m : jsstring) : Prop :=
  exists body, spec_string_characters body /\ m = DQUOTE :: body ++ [DQUOTE].

(** A character no string character begins with. *)
Definition no_character_start (c : char) : Prop :=
  c <> BACKSLASH /\ spec_plain_character c = false.

(** ** Numerals in the words of the specification

    Digits are one or more digits; an integer is an optional [-] and then
    a nonzero digit followed by digits, or a single digit; a fraction is a
    [.] and digits; an exponent is [e] or [E], a sign and digits. *)

Definition spec_digit (c : char) : bool :=
  N.leb (code "0") c && N.leb c (code "9").

Definition spec_nonzero_digit (c : char) : bool :=
  N.leb (code "1") c && N.leb c (code "9").

Definition spec_digits (ds : jsstring) : Prop :=
  ds <> [] /\ Forall (fun c => spec_digit c = true) ds.

Definition spec_integer (i : jsstring) : Prop :=
  exists sign body,
    i = sign ++ body
    /\ (sign = [] \/ sign = [code "-"])
    /\ ((exists d ds,
           body = d :: ds /\ spec_nonzero_digit d = true /\ spec_digits ds)
        \/ (exists d, body = [d] /\ spec_digit d = true)).

Definition spec_fraction (f : jsstring) : Prop :=
  exists ds, f = code "." :: ds /\ spec_digits ds.

Definition spec_exponent (e : jsstring) : Prop :=
  exists c sign ds,
    e = c :: sign :: ds
    /\ (c = code "e" \/ c = code "E")
    /\ (sign = code "+" \/ sign = code "-")
    /\ spec_digits ds.

(** A numeral that ends in an exponent: a fraction, or an integer with an
    optional fraction, and then the exponent. *)
Definition spec_numeral_with_exponent (n : jsstring) : Prop :=
  exists mantissa e,
    n = mantissa ++ e
    /\ spec_exponent e
    /\ (spec_fraction mantissa
        \/ exists i f,
             mantissa = i ++ f /\ spec_integer i
             /\ (f = [] \/ spec_fraction f)).

(** The text does not go on with a digit. *)
Definition no_digit_head (rest : jsstring) : Prop :=
  match rest with
  | [] => True
  | c :: _ => spec_digit c = false
  end.

Definition exponent_mark (c : char) : bool :=
  N.eqb c (code "e") || N.eqb c (code "E").

Definition exponent_sign (c : char) : bool :=
  N.eqb c (code "+") || N.eqb c (code "-").

(** Every [e] or [E] of the text is followed by a sign. *)
Fixpoint exponents_signed (m : jsstring) : bool :=
  match m with
  | [] => true
  | c :: m' =>
      (if exponent_mark c then
         match m' with
         | sign :: _ => exponent_sign sign
         | [] => false
         end
       else true)
      && exponents_signed m'
  end.

(** ** Termination

    The [input] of a Lexer is what is left of its [source] at [index];
    [remaining] bounds the tokens a Lexer can still deliver: those in the
    stash and at most one for each character left. *)
Definition Lexer_ok (l : Lexer) : Prop :=
  input l = substr (source l) (index l) /\ index l <= length (source l).

Definition remaining (l : Lexer) : nat :=
  length (stash l) + (length (source l) - index l).

(** Total correctness of a method call: it returns with [Q] or throws, and
    the fuel suffices. *)
Definition terminates {A} (m : M A) (l : Lexer) (Q : A -> Lexer -> Prop)
  : Prop :=
  match m l with
  | Normal a l' => Q a l'
  | Throw _ => True
  | OutOfFuel => False
  end.

(** ** Spans

    [ordered lo tokens hi]: the tokens lie one after the other between the
    offsets [lo] and [hi], each with [start <= end]. *)
Fixpoint ordered (lo : nat) (tokens : list Token) (hi : nat) : Prop :=
  match tokens with
  | [] => lo <= hi
  | token :: tokens' =>
      lo <= start token /\ start token <= end_ token
      /\ ordered (end_ token) tokens' hi
  end.

(** A field that holds a number holds one that is at most [hi]. *)
Definition ends_by (f : field) (hi : nat) : Prop :=
  match f with
  | Some e => e <= hi
  | None => True
  end.

(** The span of a Property lies in [[s, e]], as far as it is defined. *)
Definition property_inside (s e : nat) (property : Property) : Prop :=
  match Property_start property with
  | Some ps =>
      s <= ps /\ ps <= e
      /\ match Property_end property with
         | Some pe => ps <= pe /\ pe <= e
         | None => True
         end
  | None => True
  end.

(** The [start] of a node is at most its [end], when it has one; the span
    of an array or an object encloses the spans of its elements or
    properties, as far as they are defined. *)
Definition span_ok (node : Node) : Prop :=
  match Node_end node with
  | Some e => Node_start node <= e
  | None => True
  end
  /\ match node with
     | ArrayLiteral elements s e =>
         Forall (fun x => s <= Node_start x /\ ends_by (Node_end x) e)
           elements
     | ObjectLiteral properties s e => Forall (property_inside s e) properties
     | _ => True
     end.

(** What [parseValue] returns when the tokens before [lo] are consumed: a
    node that starts at or after [lo], with well-formed spans below it,
    and the offset [hi] up to which it has consumed. *)
Definition spans_from (lo : nat) (node : Node) (hi : nat) : Prop :=
  lo <= Node_start node /\ Node_start node <= hi
  /\ ends_by (Node_end node) hi
  /\ Forall span_ok (nodes node).

(** ** The text of tokens and nodes *)

(** [s.slice(a, b)] for [0 <= a <= b]. *)
Definition slice (s : jsstring) (a b : nat) : jsstring :=
  firstn (b - a) (skipn a s).

(** Every code unit of [s] from [a] up to [b] is at most 32. *)
Definition blank (s : jsstring) (a b : nat) : Prop :=
  forall j, a <= j < b -> exists c, charCodeAt s j = Some c /\ (c <= 32)%N.

(** The token is a piece of the text [s]: its lexeme is not empty and is
    what [s] holds from [start] to [end]. *)
Definition token_text (s : jsstring) (token : Token) : Prop :=
  value token <> []
  /\ end_ token = start token + length (value token)
  /\ end_ token <= length s
  /\ slice s (start token) (end_ token) = value token.

(** The node is a piece of the text [s]: a string, number or boolean leaf
    carries the text from its [start] to its [end]; a null leaf has no
    [end], and at its [start] the text reads [null]; an array begins with
    [[] and ends with []], an object begins with [{] and ends with [}],
    and the key of each of its properties is a token of the text. *)
Definition node_text (s : jsstring) (node : Node) : Prop :=
  match node with
  | BooleanLiteral v a b
  | StringLiteral v a b
  | NumericLiteral v a b => b <= length s /\ slice s a b = v
  | NullLiteral a b => b = None /\ slice s a (a + 4) = js "null"
  | ArrayLiteral _ a b =>
      b <= length s /\ charCodeAt s a = Some (code "[")
      /\ 0 < b /\ charCodeAt s (b - 1) = Some (code "]")
  | ObjectLiteral properties a b =>
      b <= length s /\ charCodeAt s a = Some (code "{")
      /\ 0 < b /\ charCodeAt s (b - 1) = Some (code "}")
      /\ Forall (fun p => token_text s (Property_key p)) properties
  end.

(** ** The lexeme of each kind of token *)

(** An integer, a fraction or both, and then an exponent or none. *)
Definition spec_numeral (n : jsstring) : Prop :=
  exists mantissa e,
    n = mantissa ++ e
    /\ (e = [] \/ spec_exponent e)
    /\ (spec_fraction mantissa
        \/ exists i f,
             mantissa = i ++ f /\ spec_integer i
             /\ (f = [] \/ spec_fraction f)).

(** The characters of the punctuator entry. *)
Definition punctuators : list char :=
  [DQUOTE; code ":"; code ","; code "["; code "]"; code "{"; code "}"].

(** What the lexeme of a token of each kind is. *)
Definition lexeme_of_kind (ty : TokenType) (m : jsstring) : Prop :=
  match ty with
  | TOKEN_STRING => spec_string m
  | TOKEN_NUMBER => spec_numeral m
  | TOKEN_PUNCTUATOR => exists c, m = [c] /\ In c punctuators
  | TOKEN_BOOLEAN => m = js "true" \/ m = js "false"
  | TOKEN_NULL => m = js "null"
  end.

(** ** Lexer.all

    [for (const token of lexer)] takes [lexer[Symbol.iterator]()], which
    returns the Lexer itself, and calls its [next()] until a result has
    [done] set; the body pushes the [value] of every other result.  A
    throw of [next] leaves the loop. *)

Definition iterator (l : Lexer) : Lexer := l.

Fixpoint Lexer_all_loop (fuel : nat) (tokens : list (option Token))
  : M (list (option Token)) :=
  match fuel with
  | 0 => fun _ => OutOfFuel
  | S fuel' =>
      r <- next ;;
      if done r then ret tokens
      else Lexer_all_loop fuel' (tokens ++ [result r])
  end.

(** [Lexer.all(input)].  Every round but the last lexes a token, which is
    at least one character: [input.length + 1] is fuel enough (see
    [Lexer_all_loop_total]). *)
Definition Lexer_all (input : jsstring) : Completion (list (option Token)) :=
  Lexer_all_loop (S (length input)) [] (iterator (new_Lexer input)).

(** The tokens that are still to be lexed from the input of a Lexer, when
    all of it lexes. *)
Inductive pending : Lexer -> list Token -> Prop :=
| pending_end l : hasEnded l = true -> pending l []
| pending_lex l token l' tokens :
    hasEnded l = false -> lex l = Normal token l' ->
    pending l' tokens -> pending l (token :: tokens).

(** The Lexer with another stash. *)
Definition with_stash (stash : list Token) (l : Lexer) : Lexer :=
  {| index := index l; source := source l; input := input l;
     stash := stash |}.

(** [l'] is [l] after the rest of its input has been lexed into the
    stash. *)
Definition lexed_ahead (l l' : Lexer) : Prop :=
  source l' = source l /\ hasEnded l' = true
  /\ exists rest, pending l rest /\ stash l' = stash l ++ rest.

(** Two completions with the same result, and Lexers of which the second
    is the first lexed ahead. *)
Definition agree {A} (c c' : Completion A) : Prop :=
  match c, c' with
  | Normal a l, Normal a' l' => a = a' /\ lexed_ahead l l'
  | Throw e, Throw e' => e = e'
  | OutOfFuel, OutOfFuel => True
  | _, _ => False
  end.

(** The method does the same on a Lexer and on that Lexer lexed ahead. *)
Definition ahead_safe {A} (m : M A) : Prop :=
  forall l l', lexed_ahead l l' -> agree (m l) (m l').

(** The tokens lie in [s] one after the other from [from] on, each a piece
    of the text, with nothing but code units up to 32 before, between and
    after them. *)
Fixpoint tokens_cover (s : jsstring) (from : nat) (tokens : list Token)
  : Prop :=
  match tokens with
  | [] => blank s from (length s)
  | token :: tokens' =>
      from <= start token /\ blank s from (start token)
      /\ lexed token /\ token_text s token
      /\ tokens_cover s (end_ token) tokens'
  end.

(** ** What is thrown *)

(** Whatever the method throws satisfies [E]. *)
Definition raises {A} (m : M A) (E : exn -> Prop) : Prop :=
  forall l, match m l with
            | Throw e => E e
            | _ => True
            end.

(** The error of [lex]: the message quotes one code unit of the source, or
    the text [undefined] at its end. *)
Definition lexical_error (e : exn) : Prop :=
  exists c,
    e = Error (js "Unexpected token '" ++ c ++ js "'")
    /\ ((exists u, c = [u]) \/ c = js "undefined").

(** The errors of the parser: the error of [lex]; the end of the input
    where a value is to begin; a punctuator other than [{] and [[] where a
    value is to begin; a token [lex] built where another is expected; a
    read of [value] on the null or undefined token at the end of the
    input; and the unbound variable in the message of [ensureType]. *)
Definition parse_error (e : exn) : Prop :=
  lexical_error e
  \/ e = Error (js "Unexpected end of input")
  \/ (exists c,
        In c [DQUOTE; code ":"; code ","; code "]"; code "}"]
        /\ e = Error (js "Unexpected token " ++ [c]))
  \/ (exists token,
        lexed token
        /\ e = Error (js "Expected '[object Arguments]', got '"
                        ++ value token ++ js "'"))
  \/ e = null_value
  \/ e = undefined_value
  \/ e = ReferenceError (js "value is not defined").

(** From a Lexer that satisfies [P], the method returns with [Q] or throws
    with [E]. *)
Definition runs {A} (P : Lexer -> Prop) (m : M A)
  (Q : A -> Lexer -> Prop) (E : exn -> Prop) : Prop :=
  forall l, P l ->
    match m l with
    | Normal a l' => Q a l'
    | Throw e => E e
    | OutOfFuel => True
    end.

(** Every token of the stash is one [lex] built. *)
Definition genuine (l : Lexer) : Prop := Forall lexed (stash l).

(** Moreover [token] is the first of the stash. *)
Definition holds (token : Token) (l : Lexer) : Prop :=
  genuine l /\ exists rest, stash l = token :: rest.

(** ** Tokens after the value *)

(** Both Lexers have lexed all of their input, and the second holds the
    tokens [extra] behind those of the first. *)
Definition extended (extra : list Token) (l l2 : Lexer) : Prop :=
  hasEnded l = true /\ hasEnded l2 = true /\ stash l2 = stash l ++ extra.

(** When the method returns on a Lexer, it returns the same with more
    tokens behind. *)
Definition blind {A} (extra : list Token) (m : M A) : Prop :=
  forall l l2 a l',
    extended extra l l2 -> m l = Normal a l' ->
    exists l2', m l2 = Normal a l2' /\ extended extra l' l2'.

(** ** More fuel *)

(** Where [m] does not run out of fuel, [m'] does the same. *)
Definition below {A} (m m' : M A) : Prop :=
  forall l, m l <> OutOfFuel -> m' l = m l.

(** ** The syntax the parser accepts

    What the parser reads from the head of a sequence of tokens: a value,
    the elements of an array up to its closing bracket, the members of an
    object up to its closing brace; the node or the nodes it builds; and
    the tokens it leaves. *)

(** After an element or a member: the closing token, which stays, or a
    comma, which goes. *)
Definition separated (closing : jsstring) (tokens tokens' : list Token)
  : Prop :=
  exists c rest,
    tokens = c :: rest
    /\ ((value c = closing /\ tokens' = tokens)
        \/ (value c <> closing /\ value c = js "," /\ tokens' = rest)).

Inductive parses : list Token -> Node -> list Token -> Prop :=
| parses_literal token tokens node :
    value token <> js "{" -> value token <> js "[" ->
    literal token = Some node ->
    parses (token :: tokens) node tokens
| parses_array startToken tokens elements endToken tokens' :
    value startToken = js "[" ->
    parses_elements tokens elements (endToken :: tokens') ->
    parses (startToken :: tokens)
           (ArrayLiteral elements (start startToken) (end_ endToken))
           tokens'
| parses_object startToken tokens properties endToken tokens' :
    value startToken = js "{" ->
    parses_members tokens properties (endToken :: tokens') ->
    parses (startToken :: tokens)
           (ObjectLiteral properties (start startToken) (end_ endToken))
           tokens'
with parses_elements : list Token -> list Node -> list Token -> Prop :=
| elements_end token tokens :
    value token = js "]" ->
    parses_elements (token :: tokens) [] (token :: tokens)
| elements_more token tokens element tokens1 tokens2 elements tokens3 :
    value token <> js "]" ->
    parses (token :: tokens) element tokens1 ->
    separated (js "]") tokens1 tokens2 ->
    parses_elements tokens2 elements tokens3 ->
    parses_elements (token :: tokens) (element :: elements) tokens3
with parses_members : list Token -> list Property -> list Token -> Prop :=
| members_end token tokens :
    value token = js "}" ->
    parses_members (token :: tokens) [] (token :: tokens)
| members_more key colon tokens value' tokens1 tokens2 properties tokens3 :
    value key <> js "}" ->
    type key = TOKEN_STRING \/ type key = TOKEN_NUMBER ->
    value colon = js ":" ->
    parses tokens value' tokens1 ->
    separated (js "}") tokens1 tokens2 ->
    parses_members tokens2 properties tokens3 ->
    parses_members (key :: colon :: tokens)
      (new_Property key value' (Some (start key)) (Node_end value')
         :: properties)
      tokens3.

Scheme parses_mut := Minimality for parses Sort Prop
  with parses_elements_mut := Minimality for parses_elements Sort Prop
  with parses_members_mut := Minimality for parses_members Sort Prop.

Combined Scheme parses_mutind
  from parses_mut, parses_elements_mut, parses_members_mut.

(** ** Trees without positions *)

(** The token, the property and the node with their positions erased. *)
Definition unplaced_token (token : Token) : Token :=
  {| type := type token; value := value token; start := 0; end_ := 0 |}.

Definition unplaced_property (property : Property) : Property :=
  {| Property_type := Property_type property;
     Property_key := unplaced_token (Property_key property);
     Property_start := None;
     Property_end := None |}.

Fixpoint unplaced (node : Node) : Node :=
  match node with
  | BooleanLiteral value _ _ => BooleanLiteral value 0 0
  | StringLiteral value _ _ => StringLiteral value 0 0
  | NullLiteral _ _ => NullLiteral 0 None
  | NumericLiteral value _ _ => NumericLiteral value 0 0
  | ArrayLiteral elements _ _ => ArrayLiteral (map unplaced elements) 0 0
  | ObjectLiteral properties _ _ =>
      ObjectLiteral (map unplaced_property properties) 0 0
  end.

(** Two Lexers that have lexed all of their input and hold the same
    tokens, positions aside. *)
Definition alike (l l2 : Lexer) : Prop :=
  hasEnded l = true /\ hasEnded l2 = true
  /\ map unplaced_token (stash l) = map unplaced_token (stash l2).

(** The two methods do the same on alike Lexers: they return results
    related by [R] and alike Lexers, or throw the same, or both run out of
    fuel. *)
Definition alike_runs {A} (R : A -> A -> Prop) (m m2 : M A) : Prop :=
  forall l l2,
    alike l l2 ->
    match m l, m2 l2 with
    | Normal a l', Normal a2 l2' => R a a2 /\ alike l' l2'
    | Throw e, Throw e2 => e = e2
    | OutOfFuel, OutOfFuel => True
    | _, _ => False
    end.

(** ** The tokens the parser has lexed *)

(** [lexes l tokens l']: successive calls of [lex] from the position of
    [l] return [tokens] and leave the Lexer at the position of [l']; the
    stash plays no part. *)
Inductive lexes : Lexer -> list Token -> Lexer -> Prop :=
| lexes_nil l l' : with_stash [] l' = with_stash [] l -> lexes l [] l'
| lexes_cons l token l1 tokens l' :
    lex l = Normal token l1 -> lexes l1 tokens l' ->
    lexes l (token :: tokens) l'.

(** The Property is the one [parseObjectLiteral] builds for a member that
    stands in [tokens]: a key, a colon and the tokens of a value, from the
    key and the node of that value. *)
Definition member_of (tokens : list Token) (property : Property) : Prop :=
  exists before key colon after value' after',
    tokens = before ++ key :: colon :: after
    /\ (type key = TOKEN_STRING \/ type key = TOKEN_NUMBER)
    /\ value colon = js ":"
    /\ parses after value' after'
    /\ property
       = new_Property key value' (Some (start key)) (Node_end value').

(** The members of the objects among the nodes of a tree. *)
Definition members (node : Node) : list Property :=
  flat_map (fun n => match n with
                     | ObjectLiteral properties _ _ => properties
                     | _ => []
                     end) (nodes node).

(** * Properties *)

(** ** Lists of remainders *)

Section Remainders.

Context {A B C : Type}.

Lemma filter_flat_map (keep : B -> bool) (g : A -> list B) xs :
  filter keep (flat_map g xs) = flat_map (fun a => filter keep (g a)) xs.
Proof.
  induction xs as [|a xs IH]; cbn [flat_map filter]; [reflexivity|].
  now rewrite filter_app, IH.
Qed.

Lemma flat_map_ext_in (g h : A -> list B) xs :
  (forall a, In a xs -> g a = h a) -> flat_map g xs = flat_map h xs.
Proof.
  induction xs as [|a xs IH]; cbn [flat_map]; intros E; [reflexivity|].
  rewrite (E a) by now left.
  rewrite IH; [reflexivity|]. intros a' Ha'. apply E. now right.
Qed.

(** Elements that contribute nothing can be filtered out first. *)
Lemma flat_map_filter_skip (keep : A -> bool) (g : A -> list B) xs :
  (forall a, In a xs -> keep a = false -> g a = []) ->
  flat_map g xs = flat_map g (filter keep xs).
Proof.
  induction xs as [|a xs IH]; cbn [flat_map filter]; intros E;
    [reflexivity|].
  rewrite IH by (intros a' Ha'; apply E; now right).
  destruct (keep a) eqn:Ka; cbn [flat_map]; [reflexivity|].
  rewrite (E a); auto. now left.
Qed.

Lemma flat_map_map (g : B -> list C) (h : A -> B) xs :
  flat_map g (map h xs) = flat_map (fun a => g (h a)) xs.
Proof.
  induction xs as [|a xs IH]; cbn [flat_map map]; [reflexivity|].
  now rewrite IH.
Qed.

Lemma map_flat_map (h : B -> C) (g : A -> list B) xs :
  map h (flat_map g xs) = flat_map (fun a => map h (g a)) xs.
Proof.
  induction xs as [|a xs IH]; cbn [flat_map map]; [reflexivity|].
  now rewrite map_app, IH.
Qed.

Lemma filter_nil_all (keep : A -> bool) xs :
  (forall a, In a xs -> keep a = false) -> filter keep xs = [].
Proof.
  induction xs as [|a xs IH]; cbn [filter]; intros E; [reflexivity|].
  rewrite (E a) by now left. apply IH. intros a' Ha'. apply E. now right.
Qed.

Lemma Forall_flat_map (P : B -> Prop) (g : A -> list B) xs :
  Forall (fun a => Forall P (g a)) xs -> Forall P (flat_map g xs).
Proof.
  induction 1; cbn [flat_map]; [constructor|]. apply Forall_app. auto.
Qed.

End Remainders.

(** ** The matcher and the language *)

Lemma star_sound (f : jsstring -> list jsstring) (r : regex) :
  (forall s t, In t (f s) -> exists m, s = m ++ t /\ Matches r m) ->
  forall n s t, In t (star f n s) ->
    exists m, s = m ++ t /\ Matches (Star r) m.
Proof.
  intros Hf n. induction n as [|n IH]; simpl; intros s t Hin.
  - destruct Hin as [<-|[]]. exists []. split; [reflexivity|constructor].
  - apply in_app_or in Hin. destruct Hin as [Hin|[<-|[]]].
    + apply in_flat_map in Hin. destruct Hin as (s1 & Hs1 & Hin).
      destruct (Nat.ltb_spec (length s1) (length s)) as [Hlt|]; [|easy].
      destruct (Hf _ _ Hs1) as (m1 & -> & Hm1).
      destruct (IH _ _ Hin) as (m2 & -> & Hm2).
      exists (m1 ++ m2). split; [now rewrite app_assoc|].
      constructor; auto. intros ->. simpl in Hlt. lia.
    + exists []. split; [reflexivity|constructor].
Qed.

Lemma rm_sound r : forall s t,
  In t (rm r s) -> exists m, s = m ++ t /\ Matches r m.
Proof.
  induction r; simpl; intros s t Hin.
  - destruct Hin as [<-|[]]. exists []. split; [reflexivity|constructor].
  - destruct s as [|x s]; [easy|].
    destruct (N.eqb_spec x c) as [->|]; [|easy].
    destruct Hin as [<-|[]]. exists [c]. split; [reflexivity|constructor].
  - destruct s as [|x s]; [easy|].
    destruct (xorb negated (in_ranges x ranges)) eqn:Hx; [|easy].
    destruct Hin as [<-|[]]. exists [x]. split; [reflexivity|].
    now constructor.
  - apply in_flat_map in Hin. destruct Hin as (s1 & Hs1 & Hin).
    destruct (IHr1 _ _ Hs1) as (m1 & -> & Hm1).
    destruct (IHr2 _ _ Hin) as (m2 & -> & Hm2).
    exists (m1 ++ m2). split; [now rewrite app_assoc|now constructor].
  - apply in_app_or in Hin. destruct Hin as [Hin|Hin].
    + destruct (IHr1 _ _ Hin) as (m & -> & Hm). exists m.
      split; [reflexivity|now apply MAltL].
    + destruct (IHr2 _ _ Hin) as (m & -> & Hm). exists m.
      split; [reflexivity|now apply MAltR].
  - apply in_app_or in Hin. destruct Hin as [Hin|[<-|[]]].
    + destruct (IHr _ _ Hin) as (m & -> & Hm). exists m.
      split; [reflexivity|now apply MOptSome].
    + exists []. split; [reflexivity|apply MOptNone].
  - eapply star_sound; eauto.
Qed.

Lemma rm_length r s t : In t (rm r s) -> length t <= length s.
Proof.
  intros H. destruct (rm_sound _ _ _ H) as (m & -> & _).
  rewrite length_app. lia.
Qed.

Lemma star_fuel (f : jsstring -> list jsstring) : forall n m s,
  length s <= n -> length s <= m -> star f n s = star f m s.
Proof.
  induction n as [|n IH]; intros [|m] s Hn Hm; simpl; try reflexivity.
  - replace (flat_map _ (f s)) with (@nil jsstring); [reflexivity|].
    symmetry.
    induction (f s) as [|x l IHl]; simpl; [reflexivity|].
    destruct (Nat.ltb_spec (length x) (length s)); [lia|]. exact IHl.
  - replace (flat_map _ (f s)) with (@nil jsstring); [reflexivity|].
    symmetry.
    induction (f s) as [|x l IHl]; simpl; [reflexivity|].
    destruct (Nat.ltb_spec (length x) (length s)); [lia|]. exact IHl.
  - f_equal. apply flat_map_ext. intros s1.
    destruct (Nat.ltb_spec (length s1) (length s)); [|reflexivity].
    apply IH; lia.
Qed.

Lemma rm_complete r m : Matches r m -> forall rest, In rest (rm r (m ++ rest)).
Proof.
  induction 1; intros rest; simpl.
  - now left.
  - rewrite N.eqb_refl. now left.
  - rewrite H. now left.
  - rewrite <- app_assoc. apply in_flat_map. exists (m2 ++ rest).
    split; auto.
  - apply in_or_app. left. auto.
  - apply in_or_app. right. auto.
  - apply in_or_app. left. auto.
  - apply in_or_app. right. now left.
  - destruct (length rest); simpl; [now left|].
    apply in_or_app. right. now left.
  - rewrite <- app_assoc.
    destruct m1 as [|c m1]; [easy|]. simpl length.
    cbn [star]. apply in_or_app. left. apply in_flat_map.
    exists (m2 ++ rest). split; [apply IHMatches1|].
    destruct (Nat.ltb_spec (length (m2 ++ rest))
                (length ((c :: m1) ++ m2 ++ rest))) as [_|Hge].
    + specialize (IHMatches2 rest). simpl in IHMatches2.
      erewrite star_fuel; [exact IHMatches2| |lia].
      rewrite !length_app. lia.
    + simpl in Hge. rewrite !length_app in Hge. lia.
Qed.

Lemma rm_spec r s t :
  In t (rm r s) <-> exists m, s = m ++ t /\ Matches r m.
Proof.
  split; [apply rm_sound|].
  intros (m & -> & Hm). now apply rm_complete.
Qed.

(** ** Matching a prefix of the input

    What the matcher finds in [s ++ rest] without entering [rest] is what
    it finds in [s], in the same order. *)

Lemma star_length (f : jsstring -> list jsstring) :
  (forall s t, In t (f s) -> length t <= length s) ->
  forall n s t, In t (star f n s) -> length t <= length s.
Proof.
  intros Hf. induction n as [|n IH]; simpl; intros s t Hin.
  - destruct Hin as [<-|[]]. lia.
  - apply in_app_or in Hin. destruct Hin as [Hin|[<-|[]]]; [|lia].
    apply in_flat_map in Hin. destruct Hin as (s1 & Hs1 & Hin).
    destruct (Nat.ltb_spec (length s1) (length s)); [|easy].
    apply IH in Hin. lia.
Qed.

Lemma keeps_app rest s : keeps rest (s ++ rest) = true.
Proof. unfold keeps. rewrite length_app. apply Nat.leb_le. lia. Qed.

Lemma keeps_short rest t : length t < length rest -> keeps rest t = false.
Proof. unfold keeps. intros H. apply Nat.leb_gt. lia. Qed.

Lemma star_app (f : jsstring -> list jsstring) (rest : jsstring) :
  (forall s, filter (keeps rest) (f (s ++ rest))
             = map (fun t => t ++ rest) (f s)) ->
  (forall s t, In t (f s) -> length t <= length s) ->
  forall n n' s, length (s ++ rest) <= n -> length s <= n' ->
    filter (keeps rest) (star f n (s ++ rest))
    = map (fun t => t ++ rest) (star f n' s).
Proof.
  intros Hf Hlen. induction n as [|n IH]; intros n' s Hn Hn'.
  - rewrite length_app in Hn.
    destruct s; [|simpl in Hn; lia]. destruct rest; [|simpl in Hn; lia].
    rewrite (star_fuel f n' 0) by (simpl; lia). reflexivity.
  - pose proof Hn as Hn2. rewrite length_app in Hn2.
    rewrite (star_fuel f n' (S n)) by lia.
    cbn [star]. rewrite filter_app, map_app. f_equal.
    + rewrite filter_flat_map.
      rewrite (flat_map_filter_skip (keeps rest)).
      * rewrite Hf, flat_map_map, map_flat_map.
        apply flat_map_ext_in. intros t Ht.
        rewrite !length_app.
        destruct (Nat.ltb_spec (length t) (length s)) as [Hlt|Hge].
        -- destruct (Nat.ltb_spec (length t + length rest)
                       (length s + length rest)); [|lia].
           apply IH; [rewrite length_app|]; lia.
        -- destruct (Nat.ltb_spec (length t + length rest)
                       (length s + length rest)); [lia|]. reflexivity.
      * intros x _ Hx. unfold keeps in Hx. apply Nat.leb_gt in Hx.
        destruct (length x <? length (s ++ rest)); [|reflexivity].
        apply filter_nil_all. intros t Ht.
        apply (star_length f Hlen) in Ht.
        apply keeps_short. lia.
    + cbn [filter map]. now rewrite keeps_app.
Qed.

Lemma rm_app r : forall s rest,
  filter (keeps rest) (rm r (s ++ rest)) = map (fun t => t ++ rest) (rm r s).
Proof.
  induction r; intros s rest; cbn [rm].
  - cbn [filter map]. now rewrite keeps_app.
  - destruct s as [|x s]; cbn [app].
    + destruct rest as [|y rest]; [reflexivity|].
      destruct (N.eqb y c); [|reflexivity]. cbn [filter map].
      rewrite keeps_short by (simpl; lia). reflexivity.
    + destruct (N.eqb x c); [|reflexivity]. cbn [filter map].
      now rewrite keeps_app.
  - destruct s as [|x s]; cbn [app].
    + destruct rest as [|y rest]; [reflexivity|].
      destruct (xorb negated (in_ranges y ranges)); [|reflexivity].
      cbn [filter map]. rewrite keeps_short by (simpl; lia). reflexivity.
    + destruct (xorb negated (in_ranges x ranges)); [|reflexivity].
      cbn [filter map]. now rewrite keeps_app.
  - rewrite filter_flat_map.
    rewrite (flat_map_filter_skip (keeps rest)).
    + rewrite IHr1, flat_map_map, map_flat_map.
      apply flat_map_ext. intros t. apply IHr2.
    + intros x _ Hx. unfold keeps in Hx. apply Nat.leb_gt in Hx.
      apply filter_nil_all. intros t Ht. apply rm_length in Ht.
      apply keeps_short. lia.
  - now rewrite filter_app, map_app, IHr1, IHr2.
  - rewrite filter_app, map_app, IHr. f_equal. cbn [filter map].
    now rewrite keeps_app.
  - apply star_app; auto.
    intros s0 t. apply rm_length.
Qed.

(** A first match that stops where [rest] begins is also the first match
    when [rest] is cut off. *)
Lemma first_app r s rest :
  first r (s ++ rest) = Some rest -> first r s = Some [].
Proof.
  unfold first. intros H. pose proof (rm_app r s rest) as E.
  destruct (rm r (s ++ rest)) as [|t l]; [easy|].
  simpl in H. injection H as ->. simpl in E.
  unfold keeps at 1 in E. rewrite Nat.leb_refl in E.
  destruct (rm r s) as [|t l']; [easy|].
  simpl in E. injection E as E _.
  apply (f_equal (@length char)) in E. rewrite length_app in E.
  destruct t; [reflexivity|simpl in E; lia].
Qed.

(** No match in [s ++ rest] means no match in [s]. *)
Lemma rm_app_nil r s rest : rm r (s ++ rest) = [] -> rm r s = [].
Proof.
  intros H. pose proof (rm_app r s rest) as E. rewrite H in E. simpl in E.
  destruct (rm r s); [reflexivity|easy].
Qed.

(** ** [String.prototype.match] and the grammar loop *)

Lemma String_match_Some s r m :
  String_match s r = Some m ->
  exists rest, s = m ++ rest /\ first r s = Some rest /\ Matches r m.
Proof.
  unfold String_match, first. destruct (rm r s) as [|t l] eqn:E; [easy|].
  intros [= <-]. destruct (rm_sound r s t) as (m & -> & Hm).
  { rewrite E. now left. }
  exists t. rewrite length_app, Nat.add_sub.
  rewrite firstn_app, firstn_all, Nat.sub_diag. simpl. rewrite app_nil_r.
  auto.
Qed.

Lemma String_match_None s r : String_match s r = None <-> rm r s = [].
Proof.
  unfold String_match. destruct (rm r s); split; easy.
Qed.

Lemma String_match_first r m rest :
  first r (m ++ rest) = Some rest -> String_match (m ++ rest) r = Some m.
Proof.
  unfold String_match, first. destruct (rm r (m ++ rest)); [easy|].
  intros [= ->]. rewrite length_app, Nat.add_sub.
  rewrite firstn_app, firstn_all, Nat.sub_diag. simpl.
  now rewrite app_nil_r.
Qed.

Lemma String_match_app r m rest :
  String_match (m ++ rest) r = Some m -> String_match m r = Some m.
Proof.
  intros H. destruct (String_match_Some _ _ _ H) as (rest' & E & Hf & _).
  apply app_inv_head in E. subst rest'. apply first_app in Hf.
  rewrite <- (app_nil_r m) at 1. apply String_match_first.
  now rewrite app_nil_r.
Qed.

Lemma grammar_match_prefix g : forall s ty m,
  grammar_match g s = Some (ty, m) -> exists rest, s = m ++ rest.
Proof.
  induction g as [|[ty' re] g IH]; simpl; intros s ty m H; [easy|].
  destruct (String_match s re) as [m'|] eqn:E.
  - injection H as <- <-.
    destruct (String_match_Some _ _ _ E) as (rest & -> & _). eauto.
  - eauto.
Qed.

(** Lexing is stable under cutting the input after the lexeme. *)
Lemma grammar_match_app g : forall m rest ty,
  grammar_match g (m ++ rest) = Some (ty, m) ->
  grammar_match g m = Some (ty, m).
Proof.
  induction g as [|[ty' re] g IH]; simpl; intros m rest ty H; [easy|].
  destruct (String_match (m ++ rest) re) as [m'|] eqn:E.
  - injection H as <- <-. now rewrite (String_match_app _ _ _ E).
  - apply String_match_None in E. apply rm_app_nil in E.
    apply String_match_None in E. rewrite E. eauto.
Qed.

Lemma lex_grammar_spec g l :
  lex_grammar g l =
  match grammar_match g (input l) with
  | Some (ty, m) =>
      Normal (new_Token ty m (index l))
             (skipWhitespace (forward (length m) l))
  | None =>
      Throw (Error (js "Unexpected token '"
                      ++ char_at_to_string (source l) (index l) ++ js "'"))
  end.
Proof.
  induction g as [|[ty re] g IH]; simpl; [reflexivity|].
  destruct (String_match (input l) re); [reflexivity|apply IH].
Qed.

Lemma stash_forward n l : stash (forward n l) = stash l.
Proof. reflexivity. Qed.

Lemma stash_skipWhitespace l : stash (skipWhitespace l) = stash l.
Proof. reflexivity. Qed.

Lemma source_skipWhitespace l : source (skipWhitespace l) = source l.
Proof. reflexivity. Qed.

Lemma lex_Normal l token l' :
  lex l = Normal token l' ->
  lexed token /\ stash l' = stash l /\ source l' = source l.
Proof.
  unfold lex. rewrite lex_grammar_spec.
  destruct (grammar_match grammar (input (skipWhitespace l)))
    as [[ty m]|] eqn:E; [|easy].
  intros [= <- <-]. repeat split. exists (input (skipWhitespace l)). exact E.
Qed.

Lemma peek_unfold :
  peek = (lookahead_loop 1 ;;; (fun l => Normal (nth_error (stash l) 0) l)).
  Proof. reflexivity. Qed.

(** ** Rules of the monad *)

Lemma wp_ret {A} (a : A) l (Q : A -> Lexer -> Prop) : Q a l -> wp (ret a) l Q.
Proof. exact (fun H => H). Qed.

Lemma wp_throw {A} e l (Q : A -> Lexer -> Prop) : wp (throw e) l Q.
Proof. exact I. Qed.

Lemma wp_bind {A B} (m : M A) (k : A -> M B) l (Q : B -> Lexer -> Prop) :
  wp m l (fun a l' => wp (k a) l' Q) -> wp (bind m k) l Q.
  Proof. unfold wp, bind. now destruct (m l). Qed.

Lemma wp_mono {A} (m : M A) l (Q Q' : A -> Lexer -> Prop) :
  wp m l Q -> (forall a l', Q a l' -> Q' a l') -> wp m l Q'.
  Proof. unfold wp. destruct (m l); auto. Qed.

Lemma wp_Normal {A} (m : M A) l (Q : A -> Lexer -> Prop) a l' :
  wp m l Q -> m l = Normal a l' -> Q a l'.
  Proof. unfold wp. intros H E. now rewrite E in H. Qed.

(** ** What the parser builds from the tokens

    A property [TokP] of every token [lex] returns is a property of every
    token the parser consumes, so a literal node is built from such a
    token; the rule below carries this through the methods. *)

Section ParserRule.

Variable TokP : Token -> Prop.
Variable NodeP : Node -> Prop.
Variable PropP : Property -> Prop.

Hypothesis lex_TokP : forall l token l',
  lex l = Normal token l' -> TokP token.
Hypothesis literal_NodeP : forall token node,
  TokP token -> literal token = Some node -> NodeP node.
Hypothesis array_NodeP : forall elements startToken endToken,
  Forall NodeP elements -> TokP startToken -> TokP endToken ->
  NodeP (ArrayLiteral elements (start startToken) (end_ endToken)).
Hypothesis object_NodeP : forall properties startToken endToken,
  Forall PropP properties -> TokP startToken -> TokP endToken ->
  NodeP (ObjectLiteral properties (start startToken) (end_ endToken)).
Hypothesis property_PropP : forall key value,
  TokP key -> type key = TOKEN_STRING \/ type key = TOKEN_NUMBER ->
  NodeP value ->
  PropP (new_Property key value (Some (start key)) (Node_end value)).

Let Inv (l : Lexer) : Prop := Forall TokP (stash l).

Lemma lex_rule l : Inv l -> wp lex l (fun token l' => TokP token /\ Inv l').
Proof.
  intros HI. unfold wp. destruct (lex l) as [token l'| |] eqn:E; auto.
  split; [eauto|]. apply lex_Normal in E. unfold Inv.
  destruct E as (_ & -> & _). exact HI.
Qed.

Lemma lookahead_loop_rule times : forall l,
  Inv l -> wp (lookahead_loop times) l (fun _ l' => Inv l').
Proof.
  induction times as [|times IH]; intros l HI; unfold wp; simpl; auto.
  destruct (hasEnded l); auto.
  pose proof (lex_rule l HI) as H. unfold wp in H.
  destruct (lex l) as [token l'| |]; auto.
  apply IH. destruct H as [Ht HI']. unfold Inv, push. simpl.
  apply Forall_app. split; auto.
Qed.

Lemma peek_rule l :
  Inv l ->
  wp peek l (fun token l' =>
               Inv l' /\ forall t, token = Some t -> TokP t).
Proof.
  intros HI. rewrite peek_unfold. apply wp_bind.
  eapply wp_mono; [apply lookahead_loop_rule, HI|].
  intros [] l' HI'. unfold wp. split; auto.
  intros t Ht. apply nth_error_In in Ht.
  unfold Inv in HI'. rewrite Forall_forall in HI'. auto.
Qed.

Lemma next_rule l :
  Inv l ->
  wp next l (fun r l' => Inv l' /\ forall t, result r = Some t -> TokP t).
Proof.
  intros HI. unfold wp, next.
  destruct (stash l) as [|t ts] eqn:E.
  - destruct (hasEnded l).
    + split; auto. simpl. easy.
    + unfold bind. pose proof (lex_rule l HI) as H. unfold wp in H.
      destruct (lex l) as [token l'| |]; auto. simpl.
      destruct H. split; auto. now intros t [= <-].
  - unfold Inv in *. rewrite E in HI. inversion HI; subst.
    unfold shift. simpl. rewrite E. simpl. split; auto.
    now intros t' [= <-].
Qed.

Lemma is_rule v l : Inv l -> wp (is_ v) l (fun _ l' => Inv l').
Proof.
  intros HI. unfold is_. apply wp_bind.
  eapply wp_mono; [apply peek_rule, HI|].
  intros [t|] l' [HI' _]; [now apply wp_ret|apply wp_throw].
Qed.

Lemma ensure_rule arguments l :
  Inv l -> wp (ensure arguments) l (fun t l' => Inv l' /\ TokP t).
Proof.
  intros HI. unfold ensure. apply wp_bind.
  eapply wp_mono; [apply next_rule, HI|].
  intros r l' [HI' Ht]. destruct (result r) as [t|]; [|apply wp_throw].
  destruct (negb _); [apply wp_throw|]. apply wp_ret. auto.
Qed.

Lemma ensureType_rule arguments l :
  Inv l ->
  wp (ensureType arguments) l
     (fun t l' => Inv l' /\ TokP t /\ In (type t) arguments).
Proof.
  intros HI. unfold ensureType. apply wp_bind.
  eapply wp_mono; [apply next_rule, HI|].
  intros r l' [HI' Ht]. destruct (result r) as [t|]; [|apply wp_throw].
  destruct (negb _) eqn:F; [apply wp_throw|]. apply wp_ret.
  repeat split; auto. apply negb_false_iff in F.
  unfold ensureType_found in F. apply existsb_exists in F.
  destruct F as (ty & Hin & Heq).
  destruct (type t), ty; try discriminate; exact Hin.
Qed.

Section Loops.

Variable pv : M Node.
Hypothesis pv_rule : forall l,
  Inv l -> wp pv l (fun node l' => Inv l' /\ NodeP node).

Lemma separator_rule (closing : bool) l :
  Inv l ->
  wp (if negb closing then ensure [js ","] ;;; ret tt else ret tt)
     l (fun _ l' => Inv l').
Proof.
  intros HI. destruct (negb closing); [|now apply wp_ret].
  apply wp_bind. eapply wp_mono; [apply ensure_rule, HI|].
  intros t l' [HI' _]. now apply wp_ret.
Qed.

Lemma parseObjectLiteral_while_rule fuel : forall properties l,
  Inv l -> Forall PropP properties ->
  wp (parseObjectLiteral_while pv fuel properties) l
     (fun properties' l' => Inv l' /\ Forall PropP properties').
Proof.
  induction fuel as [|fuel IH]; intros properties l HI HP; [exact I|].
  cbn [parseObjectLiteral_while]. apply wp_bind.
  eapply wp_mono; [apply is_rule, HI|]. intros b l1 HI1.
  destruct (negb b); [|now apply wp_ret].
  apply wp_bind. eapply wp_mono; [apply ensureType_rule, HI1|].
  intros key l2 (HI2 & Hkey & Hty).
  apply wp_bind. eapply wp_mono; [apply ensure_rule, HI2|].
  intros tok l3 [HI3 _].
  apply wp_bind. eapply wp_mono; [apply pv_rule, HI3|].
  intros value l4 [HI4 Hvalue].
  apply wp_bind. eapply wp_mono; [apply is_rule, HI4|].
  intros b' l5 HI5.
  apply wp_bind. eapply wp_mono; [apply separator_rule, HI5|].
  intros [] l6 HI6. apply IH; auto.
  apply Forall_app. split; auto. constructor; auto.
  apply property_PropP; auto.
  destruct Hty as [<-|[<-|[]]]; auto.
Qed.

Lemma parseObjectLiteral_rule fuel l :
  Inv l ->
  wp (parseObjectLiteral pv fuel) l (fun node l' => Inv l' /\ NodeP node).
Proof.
  intros HI. unfold parseObjectLiteral.
  apply wp_bind. eapply wp_mono; [apply ensure_rule, HI|].
  intros startToken l1 [HI1 Hs].
  apply wp_bind.
  eapply wp_mono; [apply parseObjectLiteral_while_rule; auto|].
  intros properties l2 [HI2 HP].
  apply wp_bind. eapply wp_mono; [apply ensure_rule, HI2|].
  intros endToken l3 [HI3 He]. apply wp_ret. auto.
Qed.

Lemma parseArrayLiteral_while_rule fuel : forall elements l,
  Inv l -> Forall NodeP elements ->
  wp (parseArrayLiteral_while pv fuel elements) l
     (fun elements' l' => Inv l' /\ Forall NodeP elements').
Proof.
  induction fuel as [|fuel IH]; intros elements l HI HP; [exact I|].
  cbn [parseArrayLiteral_while]. apply wp_bind.
  eapply wp_mono; [apply is_rule, HI|]. intros b l1 HI1.
  destruct (negb b); [|now apply wp_ret].
  apply wp_bind. eapply wp_mono; [apply pv_rule, HI1|].
  intros element l2 [HI2 Helement].
  apply wp_bind. eapply wp_mono; [apply is_rule, HI2|].
  intros b' l3 HI3.
  apply wp_bind. eapply wp_mono; [apply separator_rule, HI3|].
  intros [] l4 HI4. apply IH; auto.
  apply Forall_app. split; auto.
Qed.

Lemma parseArrayLiteral_rule fuel l :
  Inv l ->
  wp (parseArrayLiteral pv fuel) l (fun node l' => Inv l' /\ NodeP node).
Proof.
  intros HI. unfold parseArrayLiteral.
  apply wp_bind. eapply wp_mono; [apply ensure_rule, HI|].
  intros startToken l1 [HI1 Hs].
  apply wp_bind.
  eapply wp_mono; [apply parseArrayLiteral_while_rule; auto|].
  intros elements l2 [HI2 HP].
  apply wp_bind. eapply wp_mono; [apply ensure_rule, HI2|].
  intros endToken l3 [HI3 He]. apply wp_ret. auto.
Qed.

End Loops.

Lemma parseValue_rule fuel : forall l,
  Inv l -> wp (parseValue fuel) l (fun node l' => Inv l' /\ NodeP node).
Proof.
  induction fuel as [|fuel IH]; intros l HI; [exact I|].
  cbn [parseValue]. apply wp_bind.
  eapply wp_mono; [apply peek_rule, HI|].
  intros [token|] l1 [HI1 Htoken]; [|apply wp_throw].
  apply wp_bind. eapply wp_mono; [apply is_rule, HI1|].
  intros object l2 HI2.
  destruct object; [now apply parseObjectLiteral_rule|].
  apply wp_bind. eapply wp_mono; [apply is_rule, HI2|].
  intros array l3 HI3.
  destruct array; [now apply parseArrayLiteral_rule|].
  destruct (literal token) as [node|] eqn:E; [|apply wp_throw].
  apply wp_bind. eapply wp_mono; [apply next_rule, HI3|].
  intros r l4 [HI4 _]. apply wp_ret. split; eauto.
Qed.

Lemma parse_rule input p l :
  parse input = Normal p l -> NodeP (program p).
Proof.
  unfold parse, Parser_parse, bind.
  pose proof (parseValue_rule (S (length input)) (new_Lexer input)) as H.
  unfold wp in H.
  destruct (parseValue (S (length input)) (new_Lexer input))
    as [node l'| |]; try easy.
  intros [= <- <-]. apply H. constructor.
Qed.

End ParserRule.

(** ** Whitespace skipping *)

Lemma skipWhitespace_loop_spec fuel : forall source i,
  length source - i <= fuel ->
  let r := skipWhitespace_loop fuel source i in
  i <= r
  /\ r <= Nat.max i (length source)
  /\ (forall j, i <= j < r ->
        exists c, charCodeAt source j = Some c /\ (c <= 32)%N)
  /\ (forall c, charCodeAt source r = Some c -> (32 < c)%N).
Proof.
  unfold charCodeAt.
  induction fuel as [|fuel IH]; intros source i Hfuel; cbn zeta.
  - simpl. repeat split; try lia.
    intros c Hc.
    assert (nth_error source i <> None) as Hn by now rewrite Hc.
    apply nth_error_Some in Hn. lia.
  - cbn [skipWhitespace_loop]. unfold charCodeAt.
    destruct (Nat.ltb_spec i (length source)) as [Hlt|Hge].
    2:{ repeat split; try lia. intros c Hc.
        assert (nth_error source i <> None) as Hn by now rewrite Hc.
        apply nth_error_Some in Hn. lia. }
    destruct (nth_error source i) as [c|] eqn:Ec.
    2:{ repeat split; try lia. intros c Hc. congruence. }
    destruct (N.eqb_spec c 13) as [->|Hc13].
    + set (i' := match nth_error source (i + 1) with
                 | Some next => if N.eqb next 10 then i + 1 else i
                 | None => i
                 end).
      assert (i <= i' /\ i' < length source
              /\ (i' = i \/ (i' = i + 1
                             /\ nth_error source (i + 1) = Some 10%N)))
        as (Hi1 & Hi2 & Hi3).
      { unfold i'. destruct (nth_error source (i + 1)) as [next|] eqn:En;
          [|intuition lia].
        destruct (N.eqb_spec next 10) as [->|]; [|intuition lia].
        assert (nth_error source (i + 1) <> None) as Hn by now rewrite En.
        apply nth_error_Some in Hn. intuition lia. }
      destruct (IH source (i' + 1)) as (H1 & H2 & H3 & H4); [lia|].
      repeat split; try lia; auto.
      intros j Hj.
      destruct (Nat.eq_dec j i) as [->|Hji].
      { exists 13%N. split; [exact Ec|lia]. }
      destruct (Nat.le_gt_cases (i' + 1) j) as [Hle|Hgt].
      { apply H3. lia. }
      destruct Hi3 as [->|[-> E10]]; [lia|].
      assert (j = i + 1) as -> by lia.
      exists 10%N. split; [exact E10|lia].
    + destruct (N.leb_spec 0 c) as [_|]; [|lia]. cbn [andb].
      destruct (N.leb_spec c 32) as [Hle|Hgt].
      * destruct (IH source (i + 1)) as (H1 & H2 & H3 & H4); [lia|].
        repeat split; try lia; auto.
        intros j Hj. destruct (Nat.eq_dec j i) as [->|Hji].
        { exists c. split; [exact Ec|lia]. }
        apply H3. lia.
      * repeat split; try lia. intros c' Hc'. congruence.
Qed.

Lemma index_skipWhitespace l :
  index (skipWhitespace l)
  = skipWhitespace_loop (length (source l)) (source l) (index l).
Proof.
  unfold skipWhitespace, forward. cbn [index].
  destruct (skipWhitespace_loop_spec (length (source l)) (source l) (index l))
    as (H & _); lia.
Qed.

(** ** Trees *)

Lemma outcome_node c node :
  outcome c = Some (inl node) <->
  exists p l, c = Normal p l /\ program p = node.
Proof.
  destruct c as [p l| |]; simpl; split.
  - intros [= <-]. eauto.
  - now intros (p' & l' & [= <- <-] & ->).
  - easy.
  - now intros (p' & l' & H & _).
  - easy.
  - now intros (p' & l' & H & _).
Qed.

(** ** First characters and alphabets *)

(** Case analysis on the comparisons of code units in the goal. *)
Ltac char_cases :=
  repeat (match goal with
          | |- context [N.eqb ?a ?b] => destruct (N.eqb_spec a b)
          | |- context [N.leb ?a ?b] => destruct (N.leb_spec a b)
          end; cbn [andb orb negb xorb]);
  try easy; try lia.

Ltac unfold_grammar :=
  cbv [starts alphabet nullable S_STRING S_CHAR S_ESCAPE S_PUNC S_BOOL S_NULL
       S_NUMBER S_FRAC S_INT S_EXP S_DIGITS S_DIGIT S_ONENINE Plus Rep Str
       js list_ascii_of_string map in_ranges existsb rng chr one code fst snd
       TAB LF CR SPACE DQUOTE BACKSLASH];
  simpl N_of_ascii.

Lemma Matches_head r m :
  Matches r m ->
  match m with
  | [] => nullable r = true
  | c :: _ => starts r c = true
  end.
Proof.
  induction 1 as [ | c | neg rs c Hc | r1 r2 m1 m2 H1 IH1 H2 IH2
                 | r1 r2 m H IH | r1 r2 m H IH | r m H IH | r | r
                 | r m1 m2 H1 IH1 Hne H2 IH2 ]; simpl; auto.
  - apply N.eqb_refl.
  - destruct m1 as [|c m1]; simpl.
    + destruct m2; [now rewrite IH1, IH2|].
      rewrite IH1, IH2. apply orb_true_r.
    + now rewrite IH1.
  - destruct m; rewrite IH; auto.
  - destruct m; rewrite IH; auto using orb_true_r.
  - destruct m; auto.
  - destruct m1 as [|c m1]; [easy|]. exact IH1.
Qed.

Lemma Matches_alphabet r m :
  Matches r m -> Forall (fun c => alphabet r c = true) m.
Proof.
  induction 1 as [ | c | neg rs c Hc | r1 r2 m1 m2 H1 IH1 H2 IH2
                 | r1 r2 m H IH | r1 r2 m H IH | r m H IH | r | r
                 | r m1 m2 H1 IH1 Hne H2 IH2 ]; simpl; auto.
  - constructor; [apply N.eqb_refl|constructor].
  - apply Forall_app. split; eapply Forall_impl; eauto; simpl;
      intros c ->; auto using orb_true_r.
  - eapply Forall_impl; eauto. simpl. now intros c ->.
  - eapply Forall_impl; eauto. simpl. intros c ->. apply orb_true_r.
  - apply Forall_app. split; auto.
Qed.

Lemma Matches_nonempty r m : nullable r = false -> Matches r m -> m <> [].
Proof.
  intros Hn Hm ->. apply Matches_head in Hm. congruence.
Qed.

(** No entry of the grammar matches the empty string, and a lexeme begins
    with a character above 32; only a punctuator begins with a bracket. *)
Lemma grammar_starts ty re c :
  In (ty, re) grammar ->
  nullable re = false
  /\ (starts re c = true ->
      (32 < c)%N
      /\ (ty <> TOKEN_PUNCTUATOR -> c <> code "{" /\ c <> code "[")).
Proof.
  intros [E|[E|[E|[E|[E|[]]]]]]; injection E as <- <-;
    (split; [reflexivity|]); unfold_grammar; char_cases;
    intros _; (split; [lia|]); intros; try easy; split; lia.
Qed.

(** ** Lexing at a character that is not whitespace *)

Lemma skipWhitespace_loop_stop fuel source i c :
  charCodeAt source i = Some c -> (32 < c)%N ->
  skipWhitespace_loop fuel source i = i.
Proof.
  intros Hc Hgt. destruct fuel as [|fuel]; [reflexivity|].
  cbn [skipWhitespace_loop]. rewrite Hc.
  destruct (i <? length source); [|reflexivity].
  destruct (N.eqb_spec c 13); [lia|].
  destruct (N.leb_spec c 32); [lia|]. now rewrite andb_false_r.
Qed.

Lemma skipWhitespace_loop_end fuel source i :
  length source <= i -> skipWhitespace_loop fuel source i = i.
Proof.
  intros H. destruct fuel as [|fuel]; [reflexivity|].
  cbn [skipWhitespace_loop].
  destruct (Nat.ltb_spec i (length source)); [lia|reflexivity].
Qed.

Lemma forward_0 l :
  input l = substr (source l) (index l) -> forward 0 l = l.
Proof.
  intros H. destruct l as [i src inp st]. unfold forward. simpl in *.
  rewrite Nat.add_0_r. now subst inp.
Qed.

Lemma skipWhitespace_at_token l c :
  input l = substr (source l) (index l) ->
  charCodeAt (source l) (index l) = Some c -> (32 < c)%N ->
  skipWhitespace l = l.
Proof.
  intros Hin Hc Hgt. unfold skipWhitespace.
  rewrite (skipWhitespace_loop_stop _ _ _ c Hc Hgt), Nat.sub_diag.
  now apply forward_0.
Qed.

Lemma skipWhitespace_at_end l :
  input l = substr (source l) (index l) ->
  length (source l) <= index l ->
  skipWhitespace l = l.
Proof.
  intros Hin Hle. unfold skipWhitespace.
  rewrite skipWhitespace_loop_end by exact Hle. rewrite Nat.sub_diag.
  now apply forward_0.
Qed.

Lemma grammar_match_In g : forall s ty m,
  grammar_match g s = Some (ty, m) ->
  exists re, In (ty, re) g /\ String_match s re = Some m.
Proof.
  induction g as [|[ty' re] g IH]; simpl; intros s ty m H; [easy|].
  destruct (String_match s re) as [m'|] eqn:E.
  - injection H as <- <-. eauto.
  - destruct (IH _ _ _ H) as (re' & Hin & Hm). eauto.
Qed.

(** A lexeme is not empty and begins above 32; a lexeme that is not a
    punctuator is neither [{] nor [[]. *)
Lemma lexeme_head s ty m :
  grammar_match grammar s = Some (ty, m) ->
  exists c m',
    m = c :: m' /\ (32 < c)%N
    /\ (ty <> TOKEN_PUNCTUATOR ->
        jsstring_eqb m (js "{") = false /\ jsstring_eqb m (js "[") = false).
Proof.
  intros H. apply grammar_match_In in H. destruct H as (re & Hin & H).
  apply String_match_Some in H. destruct H as (rest & _ & _ & Hm).
  apply Matches_head in Hm. destruct m as [|c m'].
  - destruct (grammar_starts ty re 0%N Hin) as [Hn _]. congruence.
  - destruct (grammar_starts ty re c Hin) as [_ Hs].
    destruct (Hs Hm) as [Hgt Hb]. exists c, m'. repeat split; auto.
    + destruct (Hb H) as [Hc _]. simpl.
      destruct (N.eqb_spec c 123); [|reflexivity]. now subst c.
    + destruct (Hb H) as [_ Hc]. simpl.
      destruct (N.eqb_spec c 91); [|reflexivity]. now subst c.
Qed.

(** Lexing a text that is one lexeme. *)
Lemma lex_lexeme ty m :
  grammar_match grammar m = Some (ty, m) ->
  lex (new_Lexer m) = Normal (new_Token ty m 0) (ended m []).
Proof.
  intros H. destruct (lexeme_head _ _ _ H) as (c & m' & E & Hgt & _).
  unfold lex.
  rewrite (skipWhitespace_at_token (new_Lexer m) c); try reflexivity; auto.
  2:{ subst m. reflexivity. }
  rewrite lex_grammar_spec. cbn [input new_Lexer]. rewrite H. f_equal.
  rewrite skipWhitespace_at_end.
  - unfold forward, ended. cbn. f_equal. apply skipn_all.
  - unfold forward. cbn. rewrite skipn_all. reflexivity.
  - unfold forward. cbn. lia.
Qed.

Lemma hasEnded_ended source stash : hasEnded (ended source stash) = true.
Proof. unfold hasEnded, ended. cbn. apply Nat.leb_refl. Qed.

Lemma peek_ended source token stash :
  peek (ended source (token :: stash))
  = Normal (Some token) (ended source (token :: stash)).
Proof.
  rewrite peek_unfold. unfold bind. cbn [lookahead_loop].
  now rewrite hasEnded_ended.
Qed.

Lemma is_ended v source token stash :
  is_ v (ended source (token :: stash))
  = Normal (jsstring_eqb (value token) v) (ended source (token :: stash)).
Proof. unfold is_, bind. now rewrite peek_ended. Qed.

(** Parsing a text that is one lexeme of a literal. *)
Lemma parse_lexeme ty m node :
  grammar_match grammar m = Some (ty, m) ->
  literal (new_Token ty m 0) = Some node ->
  outcome (parse m) = Some (inl node).
Proof.
  intros H Hlit.
  destruct (lexeme_head _ _ _ H) as (c & m' & E & Hgt & Hb).
  assert (ty <> TOKEN_PUNCTUATOR) as Hty.
  { intros ->. discriminate Hlit. }
  destruct (Hb Hty) as [Hobj Harr].
  unfold parse, Parser_parse. unfold bind at 1. cbn [parseValue].
  unfold bind at 1.
  assert (peek (new_Lexer m)
          = Normal (Some (new_Token ty m 0)) (ended m [new_Token ty m 0]))
    as Hpeek.
  { rewrite peek_unfold. unfold bind. cbn [lookahead_loop].
    replace (hasEnded (new_Lexer m)) with false
      by (subst m; reflexivity).
    rewrite (lex_lexeme _ _ H). reflexivity. }
  rewrite Hpeek. unfold bind at 1. rewrite is_ended. cbn [value new_Token].
  rewrite Hobj. unfold bind at 1. rewrite is_ended. cbn [value new_Token].
  rewrite Harr. rewrite Hlit. reflexivity.
Qed.

(** ** Leaves are built from lexed tokens *)

Lemma parse_leaves_lexed input root :
  outcome (parse input) = Some (inl root) ->
  Forall leaf_lexed (nodes root).
Proof.
  intros H. apply outcome_node in H. destruct H as (p & l & H & <-).
  revert H.
  apply (parse_rule lexed (fun n => Forall leaf_lexed (nodes n))
           (fun _ => True)); auto.
  - intros l0 token l' E. now apply lex_Normal in E.
  - intros [ty v s e] n Hlexed. unfold literal. cbn [type value start end_].
    destruct ty; intros [= <-]; simpl; (constructor; [|constructor]);
      intros token [= <-]; exact Hlexed.
  - intros elements s e H _ _. simpl. constructor; [now intros token|].
    now apply Forall_flat_map.
  - intros properties s e H _ _. simpl. constructor; [|constructor].
    now intros token.
Qed.

(** The lexeme of a leaf built from a lexed token parses to a leaf of the
    same type and lexeme. *)
Lemma reparse_leaf leaf value' :
  leaf_lexed leaf -> lexeme leaf = Some value' ->
  exists leaf',
    outcome (parse value') = Some (inl leaf')
    /\ Node_type leaf' = Node_type leaf
    /\ lexeme leaf' = Some value'.
Proof.
  intros Hlexed Hlex.
  assert (exists token,
            leaf_token leaf = Some token /\ value token = value'
            /\ exists leaf', literal (new_Token (type token) value' 0)
                             = Some leaf'
                             /\ Node_type leaf' = Node_type leaf
                             /\ lexeme leaf' = Some value')
    as (token & Htok & Hv & leaf' & Hlit & Hty & Hlx).
  { destruct leaf; try discriminate Hlex; injection Hlex as ->;
      eexists; (split; [reflexivity|]); (split; [reflexivity|]);
      eexists; (split; [reflexivity|]); split; reflexivity. }
  destruct (Hlexed _ Htok) as [(s & Hs) _]. rewrite Hv in Hs.
  destruct (grammar_match_prefix _ _ _ _ Hs) as (rest & ->).
  apply grammar_match_app in Hs.
  exists leaf'. split; [|auto]. eapply parse_lexeme; eauto.
Qed.

(** ** The string grammar *)

Lemma Matches_Star_inv r m :
  Matches (Star r) m ->
  exists chunks,
    m = concat chunks /\ Forall (fun ch => Matches r ch /\ ch <> []) chunks.
Proof.
  intros H. remember (Star r) as sr eqn:E. revert r E.
  induction H as [ | c | neg rs c Hc | r1 r2 m1 m2 H1 IH1 H2 IH2
                 | r1 r2 m H IH | r1 r2 m H IH | r0 m H IH | r0 | r0
                 | r0 m1 m2 H1 IH1 Hne H2 IH2 ]; intros r E; try discriminate.
  - exists []. split; [reflexivity|constructor].
  - injection E as ->. destruct (IH2 r eq_refl) as (chunks & -> & Hall).
    exists (m1 :: chunks). split; [reflexivity|]. constructor; auto.
Qed.

Lemma Matches_Star_concat r chunks :
  Forall (fun ch => Matches r ch /\ ch <> []) chunks ->
  Matches (Star r) (concat chunks).
Proof.
  induction 1 as [|ch chunks [Hm Hne] _ IH]; simpl; [constructor|].
  now apply MStarCons.
Qed.

(** Inversion of a match of a regular expression that is not an
    iteration. *)
Ltac invert_Matches :=
  repeat match goal with
         | H : Matches Eps _ |- _ => inversion H; subst; clear H
         | H : Matches (Lit _) _ |- _ => inversion H; subst; clear H
         | H : Matches (Class _ _) _ |- _ => inversion H; subst; clear H
         | H : Matches (Seq _ _) _ |- _ => inversion H; subst; clear H
         | H : Matches (Alt _ _) _ |- _ => inversion H; subst; clear H
         | H : Matches (Opt _) _ |- _ => inversion H; subst; clear H
         end.

Lemma escape_class c :
  in_ranges c [one BACKSLASH; one DQUOTE; chr "b"; chr "f"; chr "n";
               chr "r"; chr "t"; one LF; one CR] = true ->
  spec_escape_letter c = true \/ c = LF \/ c = CR.
Proof.
  unfold spec_escape_letter. unfold_grammar. char_cases; subst; auto.
Qed.

Lemma hex_class c :
  in_ranges c [rng "0" "9"; rng "a" "f"; rng "A" "F"] = spec_hex_digit c.
Proof.
  unfold spec_hex_digit. unfold_grammar. char_cases.
Qed.

Lemma plain_class c :
  xorb true (in_ranges c [(0%N, 31%N); chr "b"; one DQUOTE; one BACKSLASH;
                          one CR; one LF])
  = spec_plain_character c.
Proof.
  unfold spec_plain_character. unfold_grammar. char_cases.
Qed.

Lemma Matches_S_CHAR ch :
  Matches S_CHAR ch <-> spec_string_character ch.
Proof.
  split.
  - unfold S_CHAR, S_ESCAPE, Rep. intros H. invert_Matches.
    + apply character_escape.
      match goal with
      | H : xorb false _ = true |- _ =>
          cbn [xorb] in H; apply escape_class in H;
          destruct H as [H|[->| ->]]
      end.
      * now apply escape_letter.
      * apply escape_line_feed.
      * apply escape_carriage_return.
    + apply character_escape.
      repeat match goal with
             | H : xorb false _ = true |- _ =>
                 cbn [xorb] in H; rewrite hex_class in H
             end.
      now apply escape_unicode.
    + apply character_plain. now rewrite <- plain_class.
  - intros [e He|c Hc].
    + apply MAltL.
      destruct He as [c Hc| | |h1 h2 h3 h4 H1 H2 H3 H4].
      * apply (MSeq (Lit BACKSLASH) S_ESCAPE [BACKSLASH] [c]);
          [constructor|]. apply MAltL. constructor.
        revert Hc. unfold spec_escape_letter. unfold_grammar. char_cases.
      * apply (MSeq (Lit BACKSLASH) S_ESCAPE [BACKSLASH] [LF]);
          [constructor|]. apply MAltL. now constructor.
      * apply (MSeq (Lit BACKSLASH) S_ESCAPE [BACKSLASH] [CR]);
          [constructor|]. apply MAltL. now constructor.
      * apply (MSeq (Lit BACKSLASH) S_ESCAPE [BACKSLASH]
                 [code "u"; h1; h2; h3; h4]); [constructor|].
        apply MAltR.
        apply (MSeq (Lit (code "u")) _ [code "u"] [h1; h2; h3; h4]);
          [constructor|].
        apply (MSeq _ _ [h1] [h2; h3; h4]);
          [constructor; cbn [xorb]; now rewrite hex_class|].
        apply (MSeq _ _ [h2] [h3; h4]);
          [constructor; cbn [xorb]; now rewrite hex_class|].
        apply (MSeq _ _ [h3] [h4]);
          [constructor; cbn [xorb]; now rewrite hex_class|].
        apply (MSeq _ _ [h4] []);
          [constructor; cbn [xorb]; now rewrite hex_class|constructor].
    + apply MAltR. constructor. now rewrite plain_class.
Qed.

Lemma character_head ch :
  spec_string_character ch ->
  exists c ch',
    ch = c :: ch' /\ (c = BACKSLASH \/ spec_plain_character c = true).
Proof.
  intros [e He|c Hc]; [destruct He|]; eauto.
Qed.

Lemma Matches_characters body :
  Matches (Star S_CHAR) body <-> spec_string_characters body.
Proof.
  split.
  - intros H. apply Matches_Star_inv in H.
    destruct H as (chunks & -> & Hall). exists chunks. split; [reflexivity|].
    eapply Forall_impl; [|exact Hall]. simpl. intros ch [Hm _].
    now apply Matches_S_CHAR.
  - intros (chunks & -> & Hall). apply Matches_Star_concat.
    eapply Forall_impl; [|exact Hall]. simpl. intros ch Hch. split.
    + now apply Matches_S_CHAR.
    + destruct (character_head ch Hch) as (c & ch' & -> & _). easy.
Qed.

Lemma Matches_S_STRING m : Matches S_STRING m <-> spec_string m.
Proof.
  unfold S_STRING, spec_string. split.
  - intros H. invert_Matches.
    match goal with H : Matches (Star S_CHAR) ?b |- _ =>
      exists b; split; [now apply Matches_characters|reflexivity] end.
  - intros (body & Hbody & ->).
    apply (MSeq (Lit DQUOTE) _ [DQUOTE] (body ++ [DQUOTE])); [constructor|].
    apply MSeq; [now apply Matches_characters|constructor].
Qed.

(** No string character is a proper prefix of another. *)
Lemma character_prefix_free ch1 ch2 x y :
  spec_string_character ch1 -> spec_string_character ch2 ->
  ch1 ++ x = ch2 ++ y -> ch1 = ch2 /\ x = y.
Proof.
  intros [e1 [c1 H1| | |a1 a2 a3 a4 A1 A2 A3 A4]|c1 H1]
         [e2 [c2 H2| | |b1 b2 b3 b4 B1 B2 B3 B4]|c2 H2];
    cbn [app]; intros E; injection E; intros; subst;
    try (split; reflexivity); exfalso; try congruence;
    repeat match goal with
           | H : spec_escape_letter _ = true |- _ =>
               vm_compute in H; discriminate H
           | H : spec_plain_character _ = true |- _ =>
               vm_compute in H; discriminate H
           end.
Qed.

(** Two runs of string characters that stop at characters no string
    character begins with stop at the same place. *)
Lemma characters_align chunks1 : forall chunks2 c1 x c2 y,
  Forall spec_string_character chunks1 ->
  Forall spec_string_character chunks2 ->
  concat chunks1 ++ c1 :: x = concat chunks2 ++ c2 :: y ->
  no_character_start c1 -> no_character_start c2 ->
  concat chunks1 = concat chunks2 /\ c1 :: x = c2 :: y.
Proof.
  induction chunks1 as [|ch1 chunks1 IH];
    intros [|ch2 chunks2] c1 x c2 y Hall1 Hall2 E [Hb1 Hp1] [Hb2 Hp2].
  - auto.
  - exfalso. inversion Hall2 as [|? ? Hch2 _]; subst.
    destruct (character_head _ Hch2) as (c & ch' & -> & Hc).
    simpl in E. injection E as -> _. destruct Hc; congruence.
  - exfalso. inversion Hall1 as [|? ? Hch1 _]; subst.
    destruct (character_head _ Hch1) as (c & ch' & -> & Hc).
    simpl in E. injection E as -> _. destruct Hc; congruence.
  - inversion Hall1 as [|? ? Hch1 Hall1']; subst.
    inversion Hall2 as [|? ? Hch2 Hall2']; subst.
    simpl in E. rewrite <- !app_assoc in E.
    destruct (character_prefix_free _ _ _ _ Hch1 Hch2 E) as [-> E'].
    destruct (IH chunks2 c1 x c2 y Hall1' Hall2' E') as [E1 E2];
      try split; auto.
    simpl. now rewrite E1.
Qed.

Lemma no_character_start_DQUOTE : no_character_start DQUOTE.
Proof. split; [discriminate|reflexivity]. Qed.

(** The string entry of the grammar recognises exactly the strings of the
    specification, and the match is the string the input begins with. *)
Lemma String_match_S_STRING s m :
  String_match s S_STRING = Some m <->
  spec_string m /\ exists rest, s = m ++ rest.
Proof.
  split.
  - intros H. apply String_match_Some in H.
    destruct H as (rest & -> & _ & Hm). split; [|eauto].
    now apply Matches_S_STRING.
  - intros [Hm (rest & ->)]. apply String_match_first. unfold first.
    pose proof Hm as Hm'. apply Matches_S_STRING in Hm'.
    pose proof (rm_complete _ _ Hm' rest) as Hin.
    destruct (rm S_STRING (m ++ rest)) as [|t ts] eqn:E; [easy|].
    simpl. f_equal.
    destruct (rm_sound S_STRING (m ++ rest) t) as (m2 & E2 & Hm2).
    { rewrite E. now left. }
    apply Matches_S_STRING in Hm2.
    destruct Hm as (b1 & (chunks1 & -> & Hall1) & ->).
    destruct Hm2 as (b2 & (chunks2 & -> & Hall2) & ->).
    simpl in E2. injection E2 as E2. rewrite <- !app_assoc in E2.
    simpl in E2.
    destruct (characters_align _ _ _ _ _ _ Hall1 Hall2 E2) as [_ E3];
      auto using no_character_start_DQUOTE.
    now injection E3.
Qed.

(** A run of string characters followed by a character that begins none
    and is no double quote is not closed: the string entry fails. *)
Lemma String_match_unclosed body c post :
  spec_string_characters body -> no_character_start c -> c <> DQUOTE ->
  String_match (DQUOTE :: body ++ c :: post) S_STRING = None.
Proof.
  intros (chunks1 & -> & Hall1) Hc Hq.
  destruct (String_match _ S_STRING) as [m|] eqn:E; [|reflexivity].
  exfalso. apply String_match_S_STRING in E.
  destruct E as [(b2 & (chunks2 & -> & Hall2) & ->) (rest & E)].
  simpl in E. injection E as E. rewrite <- app_assoc in E. simpl in E.
  destruct (characters_align _ _ _ _ _ _ Hall1 Hall2 E) as [_ E3];
    auto using no_character_start_DQUOTE.
  now injection E3.
Qed.

(** ** A token that starts no value *)

Lemma lex_fresh c s ty m :
  (32 < c)%N -> grammar_match grammar (c :: s) = Some (ty, m) ->
  lex (new_Lexer (c :: s))
  = Normal (new_Token ty m 0)
           (skipWhitespace (forward (length m) (new_Lexer (c :: s)))).
Proof.
  intros Hgt H. unfold lex.
  rewrite (skipWhitespace_at_token (new_Lexer (c :: s)) c);
    try reflexivity; auto.
  rewrite lex_grammar_spec. cbn [input new_Lexer]. now rewrite H.
Qed.

Lemma peek_fresh c s ty m :
  (32 < c)%N -> grammar_match grammar (c :: s) = Some (ty, m) ->
  exists l, peek (new_Lexer (c :: s)) = Normal (Some (new_Token ty m 0)) l.
Proof.
  intros Hgt H. rewrite peek_unfold. unfold bind. cbn [lookahead_loop].
  replace (hasEnded (new_Lexer (c :: s))) with false by reflexivity.
  rewrite (lex_fresh _ _ _ _ Hgt H). cbn. eauto.
Qed.

Lemma lex_completes l : lex l <> OutOfFuel.
Proof.
  unfold lex. rewrite lex_grammar_spec.
  now destruct (grammar_match _ _) as [[ty m]|].
Qed.

Lemma lookahead_loop_stash times : forall l,
  match lookahead_loop times l with
  | Normal _ l' => exists more, stash l' = stash l ++ more
  | Throw _ => True
  | OutOfFuel => False
  end.
Proof.
  induction times as [|times IH]; intros l; cbn [lookahead_loop].
  - exists []. now rewrite app_nil_r.
  - destruct (hasEnded l); [exists []; now rewrite app_nil_r|].
    destruct (lex l) as [token l'| |] eqn:E; auto.
    + specialize (IH (push token l')).
      destruct (lookahead_loop times (push token l')); auto.
      destruct IH as (more & IH). apply lex_Normal in E.
      destruct E as (_ & E & _). exists (token :: more).
      rewrite IH. cbn [stash push]. now rewrite E, <- app_assoc.
    + now apply lex_completes in E.
Qed.

(** With a token in the stash, [peek] returns that token or throws. *)
Lemma peek_stash_head l token stash' :
  stash l = token :: stash' ->
  match peek l with
  | Normal x l' => x = Some token /\ exists stash'', stash l' = token :: stash''
  | Throw _ => True
  | OutOfFuel => False
  end.
Proof.
  intros Hs. rewrite peek_unfold. unfold bind.
  pose proof (lookahead_loop_stash 1 l) as H.
  destruct (lookahead_loop 1 l) as [[] l'| |]; auto.
  destruct H as (more & ->). rewrite Hs. simpl. eauto.
Qed.

Lemma is_stash_head v l token stash' :
  stash l = token :: stash' ->
  match is_ v l with
  | Normal b l' =>
      b = jsstring_eqb (value token) v
      /\ exists stash'', stash l' = token :: stash''
  | Throw _ => True
  | OutOfFuel => False
  end.
Proof.
  intros Hs. unfold is_, bind. pose proof (peek_stash_head l _ _ Hs) as H.
  destruct (peek l) as [x l'| |]; auto.
  destruct H as [-> H]. cbn. auto.
Qed.

(** A peeked token that is no bracket and gives no literal makes
    [parseValue] throw. *)
Lemma parseValue_not_a_value fuel l token l1 :
  peek l = Normal (Some token) l1 ->
  literal token = None ->
  jsstring_eqb (value token) (js "{") = false ->
  jsstring_eqb (value token) (js "[") = false ->
  exists e, parseValue (S fuel) l = Throw e.
Proof.
  intros Hpeek Hlit Hobj Harr. cbn [parseValue]. unfold bind at 1.
  rewrite Hpeek.
  assert (exists stash', stash l1 = token :: stash') as (stash1 & Hs1).
  { rewrite peek_unfold in Hpeek. unfold bind in Hpeek.
    destruct (lookahead_loop 1 l) as [[] l'| |]; try easy.
    injection Hpeek as H <-. destruct (stash l'); [easy|].
    simpl in H. injection H as ->. eauto. }
  unfold bind at 1. pose proof (is_stash_head (js "{") l1 _ _ Hs1) as H1.
  destruct (is_ (js "{") l1) as [b l2| |]; [|eauto|easy].
  destruct H1 as [-> (stash2 & Hs2)]. rewrite Hobj.
  unfold bind at 1. pose proof (is_stash_head (js "[") l2 _ _ Hs2) as H2.
  destruct (is_ (js "[") l2) as [b l3| |]; [|eauto|easy].
  destruct H2 as [-> _]. rewrite Harr, Hlit. eexists. reflexivity.
Qed.

Lemma outcome_parse_Throw input e :
  parseValue (S (length input)) (new_Lexer input) = Throw e ->
  outcome (parse input) = Some (inr e).
Proof. unfold parse, Parser_parse, bind. now intros ->. Qed.

(** A text that begins with a double quote that opens no string token does
    not parse: the quote is lexed as a punctuator. *)
Lemma parse_unclosed_string s :
  String_match (DQUOTE :: s) S_STRING = None ->
  exists e, outcome (parse (DQUOTE :: s)) = Some (inr e).
Proof.
  intros H.
  assert (grammar_match grammar (DQUOTE :: s)
          = Some (TOKEN_PUNCTUATOR, [DQUOTE])) as Hg.
  { unfold grammar. cbn [grammar_match]. rewrite H.
    replace (String_match (DQUOTE :: s) S_NUMBER) with (@None jsstring)
      by reflexivity.
    assert (String_match (DQUOTE :: s) S_PUNC = Some [DQUOTE]) as ->
      by (apply (String_match_first S_PUNC [DQUOTE] s); reflexivity).
    reflexivity. }
  destruct (peek_fresh DQUOTE s _ _ ltac:(reflexivity) Hg) as (l1 & Hpeek).
  destruct (parseValue_not_a_value (length (DQUOTE :: s)) _ _ _ Hpeek)
    as (e & He); try reflexivity.
  exists e. now apply outcome_parse_Throw.
Qed.

Lemma lex_type_STRING l token l' :
  lex l = Normal token l' -> type token = TOKEN_STRING ->
  exists s, String_match s S_STRING = Some (value token).
Proof.
  unfold lex. rewrite lex_grammar_spec.
  destruct (grammar_match _ _) as [[ty m]|] eqn:E; [|easy].
  intros [= <- <-] Hty. cbn in Hty. subst ty.
  apply grammar_match_In in E. destruct E as (re & Hin & E).
  destruct Hin as [H|[H|[H|[H|[H|[]]]]]]; try discriminate H.
  injection H as <-. eauto.
Qed.

Lemma grammar_match_STRING s m :
  String_match s S_STRING = Some m ->
  grammar_match grammar s = Some (TOKEN_STRING, m).
Proof. intros H. unfold grammar. cbn [grammar_match]. now rewrite H. Qed.

Lemma no_character_start_LF : no_character_start LF.
Proof. split; [discriminate|reflexivity]. Qed.

Lemma no_character_start_b : no_character_start (code "b").
Proof. split; [discriminate|reflexivity]. Qed.

(** ** The first match *)

Lemma rm_no_start r c s :
  nullable r = false -> starts r c = false -> rm r (c :: s) = [].
Proof.
  intros Hn Hs. destruct (rm r (c :: s)) as [|t ts] eqn:E; [reflexivity|].
  destruct (rm_sound r (c :: s) t) as (m & Em & Hm).
  { rewrite E. now left. }
  apply Matches_head in Hm. destruct m as [|c' m]; [congruence|].
  injection Em as <- _. congruence.
Qed.

Lemma rm_nil r : nullable r = false -> rm r [] = [].
Proof.
  intros Hn. destruct (rm r []) as [|t ts] eqn:E; [reflexivity|].
  destruct (rm_sound r [] t) as (m & Em & Hm).
  { rewrite E. now left. }
  apply Matches_head in Hm. destruct m; [congruence|discriminate].
Qed.

Lemma first_Seq r1 r2 s t u :
  first r1 s = Some t -> first r2 t = Some u -> first (Seq r1 r2) s = Some u.
Proof.
  unfold first. cbn [rm]. destruct (rm r1 s) as [|t' l]; [easy|].
  intros [= ->]. cbn [flat_map]. now destruct (rm r2 t).
Qed.

Lemma first_Alt_l r1 r2 s t :
  first r1 s = Some t -> first (Alt r1 r2) s = Some t.
Proof. unfold first. cbn [rm]. now destruct (rm r1 s). Qed.

Lemma first_Alt_r r1 r2 s :
  rm r1 s = [] -> first (Alt r1 r2) s = first r2 s.
Proof. unfold first. cbn [rm]. now intros ->. Qed.

Lemma first_Opt_some r s t : first r s = Some t -> first (Opt r) s = Some t.
Proof. unfold first. cbn [rm]. now destruct (rm r s). Qed.

Lemma first_Opt_none r s : rm r s = [] -> first (Opt r) s = Some s.
Proof. unfold first. cbn [rm]. now intros ->. Qed.

Lemma first_Class negated ranges c s :
  xorb negated (in_ranges c ranges) = true ->
  first (Class negated ranges) (c :: s) = Some s.
Proof. unfold first. cbn [rm]. now intros ->. Qed.

Lemma rm_Seq_nil r1 r2 s : rm r1 s = [] -> rm (Seq r1 r2) s = [].
Proof. cbn [rm]. now intros ->. Qed.

Lemma first_Star_stop r s : rm r s = [] -> first (Star r) s = Some s.
Proof.
  intros H. unfold first. cbn [rm]. destruct (length s); cbn [star].
  - reflexivity.
  - now rewrite H.
Qed.

Lemma first_Star_step r s t u :
  first r s = Some t -> length t < length s ->
  first (Star r) t = Some u -> first (Star r) s = Some u.
Proof.
  unfold first. cbn [rm]. intros Ht Hlt Hu.
  destruct (length s) as [|n] eqn:En; [lia|]. cbn [star].
  destruct (rm r s) as [|t' l]; [easy|]. injection Ht as ->.
  cbn [flat_map]. rewrite En.
  destruct (Nat.ltb_spec (length t) (S n)); [|lia].
  rewrite (star_fuel (rm r) n (length t)) by lia.
  now destruct (star (rm r) (length t) t).
Qed.

(** ** The number grammar *)

Lemma rm_S_DIGITS_stop rest : no_digit_head rest -> rm S_DIGITS rest = [].
Proof.
  destruct rest as [|c rest]; intros H.
  - now apply rm_nil.
  - apply rm_no_start; [reflexivity|]. simpl in H. revert H.
    unfold spec_digit. unfold_grammar. char_cases.
Qed.

Lemma first_digit d s :
  spec_digit d = true -> first S_DIGIT (d :: s) = Some s.
Proof.
  unfold first, S_DIGIT, spec_digit. cbn [rm]. unfold_grammar.
  char_cases.
Qed.

Lemma first_digits_star ds : forall rest,
  Forall (fun c => spec_digit c = true) ds -> no_digit_head rest ->
  first (Star S_DIGIT) (ds ++ rest) = Some rest.
Proof.
  induction ds as [|d ds IH]; intros rest Hds Hrest.
  - apply first_Star_stop. destruct rest as [|c rest]; [reflexivity|].
    simpl in Hrest. revert Hrest. unfold S_DIGIT, spec_digit. cbn [rm].
    unfold_grammar. char_cases.
  - inversion Hds as [|? ? Hd Hds']; subst.
    apply (first_Star_step S_DIGIT _ (ds ++ rest)).
    + now apply first_digit.
    + simpl. lia.
    + now apply IH.
Qed.

Lemma first_S_DIGITS ds rest :
  spec_digits ds -> no_digit_head rest ->
  first S_DIGITS (ds ++ rest) = Some rest.
Proof.
  intros [Hne Hds] Hrest. destruct ds as [|d ds]; [easy|].
  inversion Hds as [|? ? Hd Hds']; subst.
  apply (first_Seq _ _ _ (ds ++ rest)).
  - now apply first_digit.
  - now apply first_digits_star.
Qed.

Lemma no_digit_head_exponent e rest :
  spec_exponent e -> no_digit_head (e ++ rest).
Proof.
  intros (c & sign & ds & -> & [-> | ->] & _); reflexivity.
Qed.

Lemma no_digit_head_fraction f rest :
  spec_fraction f -> no_digit_head (f ++ rest).
Proof. intros (ds & -> & _). reflexivity. Qed.

Lemma first_S_EXP e rest :
  spec_exponent e -> no_digit_head rest -> first S_EXP (e ++ rest) = Some rest.
Proof.
  intros (c & sign & ds & -> & Hc & Hs & Hds) Hrest. unfold S_EXP.
  apply (first_Seq _ _ _ (sign :: ds ++ rest)).
  { destruct Hc as [-> | ->]; reflexivity. }
  apply (first_Seq _ _ _ (ds ++ rest)).
  { destruct Hs as [-> | ->]; reflexivity. }
  now apply first_S_DIGITS.
Qed.

Lemma first_S_FRAC f rest :
  spec_fraction f -> no_digit_head rest -> first S_FRAC (f ++ rest) = Some rest.
Proof.
  intros (ds & -> & Hds) Hrest. unfold S_FRAC.
  apply (first_Seq _ _ _ (ds ++ rest)); [reflexivity|].
  now apply first_S_DIGITS.
Qed.

Lemma first_S_INT i rest :
  spec_integer i -> no_digit_head rest -> first S_INT (i ++ rest) = Some rest.
Proof.
  intros (sign & body & -> & Hsign & Hbody) Hrest. unfold S_INT.
  apply (first_Seq _ _ _ (body ++ rest)).
  - destruct Hsign as [-> | ->]; [|reflexivity].
    apply first_Opt_none.
    destruct Hbody as [(d & ds & -> & Hd & _)|(d & -> & Hd)];
      (apply rm_no_start; [reflexivity|]); revert Hd;
      unfold spec_nonzero_digit, spec_digit; unfold_grammar; char_cases.
  - destruct Hbody as [(d & ds & -> & Hd & Hds)|(d & -> & Hd)].
    + apply first_Alt_l. apply (first_Seq _ _ _ (ds ++ rest)).
      * apply first_Class. revert Hd. unfold spec_nonzero_digit.
        unfold_grammar. char_cases.
      * now apply first_S_DIGITS.
    + rewrite first_Alt_r; [now apply first_digit|].
      cbn [rm app]. unfold S_ONENINE at 1. cbn [rm].
      destruct (xorb false _); [|reflexivity].
      cbn [flat_map]. rewrite rm_S_DIGITS_stop by exact Hrest. reflexivity.
Qed.

Lemma integer_head i rest :
  spec_integer i ->
  exists c s, i ++ rest = c :: s
              /\ (c = code "-" \/ spec_digit c = true).
Proof.
  intros (sign & body & -> & Hsign & Hbody).
  destruct Hsign as [-> | ->]; [|cbn; eauto].
  destruct Hbody as [(d & ds & -> & Hd & _)|(d & -> & Hd)]; cbn;
    exists d; eexists; (split; [reflexivity|]); right; auto.
  revert Hd. unfold spec_nonzero_digit, spec_digit. unfold_grammar.
  char_cases.
Qed.

(** A numeral with an exponent is the first match of the number entry. *)
Lemma first_S_NUMBER n rest :
  spec_numeral_with_exponent n -> no_digit_head rest ->
  first S_NUMBER (n ++ rest) = Some rest.
Proof.
  intros (mantissa & e & -> & He & Hm) Hrest. unfold S_NUMBER.
  rewrite <- app_assoc.
  pose proof (no_digit_head_exponent e rest He) as Hhead.
  pose proof (first_S_EXP e rest He Hrest) as Hexp.
  destruct Hm as [Hf|(i & f & -> & Hi & Hf)].
  - apply first_Alt_l. apply (first_Seq _ _ _ (e ++ rest)).
    + now apply first_S_FRAC.
    + now apply first_Opt_some.
  - rewrite <- app_assoc. rewrite first_Alt_r.
    2:{ apply rm_Seq_nil.
        destruct (integer_head i (f ++ e ++ rest) Hi) as (c & s & -> & Hc).
        apply rm_no_start; [reflexivity|].
        destruct Hc as [-> |Hc]; [reflexivity|]. revert Hc.
        unfold spec_digit. unfold_grammar. char_cases. }
    apply (first_Seq _ _ _ (f ++ e ++ rest)).
    { apply first_S_INT; [exact Hi|].
      destruct Hf as [-> |Hf]; [exact Hhead|].
      now apply no_digit_head_fraction. }
    apply (first_Seq _ _ _ (e ++ rest)).
    + destruct Hf as [-> |Hf].
      * apply first_Opt_none.
        destruct He as (c & sign & ds & -> & [-> | ->] & _);
          now apply rm_no_start.
      * apply first_Opt_some. now apply first_S_FRAC.
    + now apply first_Opt_some.
Qed.

Lemma numeral_head n rest :
  spec_numeral_with_exponent n ->
  exists c s, n ++ rest = c :: s
              /\ (c = code "." \/ c = code "-" \/ spec_digit c = true).
Proof.
  intros (mantissa & e & -> & He & Hm). rewrite <- app_assoc.
  destruct Hm as [(ds & -> & _)|(i & f & -> & Hi & _)].
  - cbn. eauto.
  - rewrite <- app_assoc.
    destruct (integer_head i (f ++ e ++ rest) Hi) as (c & s & -> & Hc).
    eauto.
Qed.

Lemma lex_at_token s c s' ty m :
  s = c :: s' -> (32 < c)%N -> grammar_match grammar s = Some (ty, m) ->
  lex (new_Lexer s)
  = Normal (new_Token ty m 0)
           (skipWhitespace (forward (length m) (new_Lexer s))).
Proof. intros ->. apply lex_fresh. Qed.

Lemma grammar_match_NUMBER s m :
  String_match s S_STRING = None -> String_match s S_NUMBER = Some m ->
  grammar_match grammar s = Some (TOKEN_NUMBER, m).
Proof.
  intros H1 H2. unfold grammar. cbn [grammar_match]. now rewrite H1, H2.
Qed.

(** [lex] returns a numeral with an exponent as one number token. *)
Lemma lex_numeral n rest :
  spec_numeral_with_exponent n -> no_digit_head rest ->
  exists l, lex (new_Lexer (n ++ rest)) = Normal (new_Token TOKEN_NUMBER n 0) l.
Proof.
  intros Hn Hrest.
  pose proof (first_S_NUMBER n rest Hn Hrest) as Hfirst.
  apply String_match_first in Hfirst.
  destruct (numeral_head n rest Hn) as (c & s & E & Hc).
  assert ((32 < c)%N /\ starts S_STRING c = false) as [Hgt Hq].
  { destruct Hc as [-> |[-> |Hc]]; try (split; reflexivity).
    revert Hc. unfold spec_digit. unfold_grammar. char_cases. }
  rewrite (lex_at_token _ c s TOKEN_NUMBER n E Hgt); [eauto|].
  apply grammar_match_NUMBER; [|exact Hfirst].
  apply String_match_None. rewrite E. now apply rm_no_start.
Qed.

Lemma Matches_S_DIGITS ds : Matches S_DIGITS ds <-> spec_digits ds.
Proof.
  split.
  - intros H. split.
    + now apply (Matches_nonempty S_DIGITS).
    + apply Matches_alphabet in H. eapply Forall_impl; [|exact H].
      intros c. unfold spec_digit. unfold_grammar. char_cases.
  - intros [Hne Hds]. destruct ds as [|d ds]; [easy|].
    inversion Hds as [|? ? Hd Hds']; subst.
    assert (forall c, spec_digit c = true -> Matches S_DIGIT [c]) as Hone.
    { intros c Hc. constructor. revert Hc. unfold spec_digit.
      unfold_grammar. char_cases. }
    apply (MSeq S_DIGIT (Star S_DIGIT) [d] ds); [now apply Hone|].
    clear Hne Hds Hd. induction Hds' as [|c ds Hc _ IH]; [constructor|].
    apply (MStarCons S_DIGIT [c] ds); [now apply Hone|easy|exact IH].
Qed.

Lemma mark_class c :
  xorb false (in_ranges c [chr "e"; chr "E"]) = true ->
  c = code "e" \/ c = code "E".
Proof. unfold_grammar. char_cases; subst; auto. Qed.

Lemma sign_class c :
  xorb false (in_ranges c [chr "+"; chr "-"]) = true ->
  c = code "+" \/ c = code "-".
Proof. unfold_grammar. char_cases; subst; auto. Qed.

(** The exponent of the grammar is the exponent of the specification: the
    sign is not optional. *)
Lemma Matches_S_EXP e : Matches S_EXP e <-> spec_exponent e.
Proof.
  split.
  - unfold S_EXP. intros H. invert_Matches.
    match goal with
    | H1 : xorb false (in_ranges ?c [chr "e"; chr "E"]) = true,
      H2 : xorb false (in_ranges ?s [chr "+"; chr "-"]) = true,
      H3 : Matches S_DIGITS ?ds |- _ =>
        apply Matches_S_DIGITS in H3; apply mark_class in H1;
        apply sign_class in H2; exists c, s, ds; auto
    end.
  - intros (c & sign & ds & -> & Hc & Hs & Hds).
    apply (MSeq _ _ [c] (sign :: ds)).
    { constructor. destruct Hc as [-> | ->]; reflexivity. }
    apply (MSeq _ _ [sign] ds).
    { constructor. destruct Hs as [-> | ->]; reflexivity. }
    now apply Matches_S_DIGITS.
Qed.

Lemma exponents_signed_app a b :
  Forall (fun c => exponent_mark c = false) a ->
  exponents_signed (a ++ b) = exponents_signed b.
Proof.
  induction 1 as [|c a Hc _ IH]; [reflexivity|].
  cbn [app exponents_signed]. now rewrite Hc, IH.
Qed.

Lemma exponents_signed_no_marks a :
  Forall (fun c => exponent_mark c = false) a -> exponents_signed a = true.
Proof.
  intros H. rewrite <- (app_nil_r a). now rewrite exponents_signed_app.
Qed.

Lemma exponents_signed_spec m : forall pre c post,
  exponents_signed m = true -> m = pre ++ c :: post ->
  exponent_mark c = true ->
  exists sign post', post = sign :: post' /\ exponent_sign sign = true.
Proof.
  intros pre. revert m. induction pre as [|x pre IH]; intros m c post H E Hc.
  - subst m. cbn [app exponents_signed] in H. rewrite Hc in H.
    destruct post as [|sign post']; [discriminate H|].
    apply andb_true_iff in H. destruct H as [H _]. eauto.
  - subst m. cbn [app exponents_signed] in H.
    apply andb_true_iff in H. destruct H as [_ H]. eauto.
Qed.

Lemma no_marks_in_digits ds :
  spec_digits ds -> Forall (fun c => exponent_mark c = false) ds.
Proof.
  intros [_ H]. eapply Forall_impl; [|exact H].
  intros c. unfold spec_digit, exponent_mark. unfold_grammar. char_cases.
Qed.

Lemma no_marks_in_mantissa r m :
  r = S_INT \/ r = S_FRAC -> Matches r m ->
  Forall (fun c => exponent_mark c = false) m.
Proof.
  intros Hr H. apply Matches_alphabet in H. eapply Forall_impl; [|exact H].
  intros c. unfold exponent_mark.
  destruct Hr as [-> | ->]; unfold_grammar; char_cases.
Qed.

Lemma exponents_signed_exponent e :
  spec_exponent e -> exponents_signed e = true.
Proof.
  intros (c & sign & ds & -> & Hc & Hs & Hds).
  apply no_marks_in_digits, exponents_signed_no_marks in Hds.
  cbn [exponents_signed]. rewrite Hds.
  destruct Hc as [-> | ->], Hs as [-> | ->]; reflexivity.
Qed.

(** In a match of the number entry every [e] or [E] is followed by a
    sign. *)
Lemma Matches_S_NUMBER_signed m :
  Matches S_NUMBER m -> exponents_signed m = true.
Proof.
  unfold S_NUMBER. intros H. invert_Matches;
    repeat match goal with
           | H : Matches S_EXP _ |- _ =>
               apply Matches_S_EXP, exponents_signed_exponent in H
           | H : Matches S_INT _ |- _ =>
               apply (no_marks_in_mantissa S_INT) in H; [|now left]
           | H : Matches S_FRAC _ |- _ =>
               apply (no_marks_in_mantissa S_FRAC) in H; [|now right]
           end;
    rewrite ?app_nil_r, ?exponents_signed_app by assumption;
    try assumption; try reflexivity;
    now apply exponents_signed_no_marks.
Qed.

Lemma lex_type_NUMBER l token l' :
  lex l = Normal token l' -> type token = TOKEN_NUMBER ->
  Matches S_NUMBER (value token).
Proof.
  unfold lex. rewrite lex_grammar_spec.
  destruct (grammar_match _ _) as [[ty m]|] eqn:E; [|easy].
  intros [= <- <-] Hty. cbn in Hty. subst ty.
  apply grammar_match_In in E. destruct E as (re & Hin & E).
  destruct Hin as [H|[H|[H|[H|[H|[]]]]]]; try discriminate H.
  injection H as <-. apply String_match_Some in E.
  now destruct E as (rest & _ & _ & Hm).
Qed.

Lemma spec_digits_forallb ds :
  ds <> [] -> forallb spec_digit ds = true -> spec_digits ds.
Proof.
  intros Hne H. split; [exact Hne|]. apply Forall_forall.
  now apply forallb_forall.
Qed.

(** ** The fuel of [parse] suffices *)

Lemma terminates_ret {A} (a : A) l (Q : A -> Lexer -> Prop) :
  Q a l -> terminates (ret a) l Q.
Proof. exact (fun H => H). Qed.

Lemma terminates_throw {A} e l (Q : A -> Lexer -> Prop) :
  terminates (throw e) l Q.
Proof. exact I. Qed.

Lemma terminates_bind {A B} (m : M A) (k : A -> M B) l
  (Q : B -> Lexer -> Prop) :
  terminates m l (fun a l' => terminates (k a) l' Q) ->
  terminates (bind m k) l Q.
Proof. unfold terminates, bind. now destruct (m l). Qed.

Lemma terminates_mono {A} (m : M A) l (Q Q' : A -> Lexer -> Prop) :
  terminates m l Q -> (forall a l', Q a l' -> Q' a l') -> terminates m l Q'.
Proof. unfold terminates. destruct (m l); auto. Qed.

Lemma Lexer_ok_forward times l :
  index l + times <= length (source l) -> Lexer_ok (forward times l).
Proof. intros H. split; [reflexivity|exact H]. Qed.

Lemma Lexer_ok_skipWhitespace l :
  Lexer_ok l ->
  Lexer_ok (skipWhitespace l) /\ index l <= index (skipWhitespace l).
Proof.
  intros [_ Hle].
  destruct (skipWhitespace_loop_spec (length (source l)) (source l) (index l))
    as (H1 & H2 & _); [lia|].
  split.
  - split; [reflexivity|]. rewrite index_skipWhitespace.
    rewrite source_skipWhitespace. lia.
  - rewrite index_skipWhitespace. exact H1.
Qed.

(** A lexeme is a non-empty prefix of the input. *)
Lemma grammar_match_length s ty m :
  grammar_match grammar s = Some (ty, m) -> 0 < length m <= length s.
Proof.
  intros H. destruct (lexeme_head _ _ _ H) as (c & m' & -> & _).
  destruct (grammar_match_prefix _ _ _ _ H) as (rest & ->).
  rewrite length_app. simpl. lia.
Qed.

(** [lex] consumes at least one character of a well-formed Lexer. *)
Lemma lex_advances l :
  Lexer_ok l ->
  terminates lex l
    (fun _ l' =>
       Lexer_ok l' /\ index l < index l' /\ stash l' = stash l
       /\ source l' = source l).
Proof.
  intros Hok. unfold terminates, lex. rewrite lex_grammar_spec.
  destruct (Lexer_ok_skipWhitespace l Hok) as [[Hin Hle] Hidx].
  set (l1 := skipWhitespace l) in *.
  destruct (grammar_match grammar (input l1)) as [[ty m]|] eqn:E; [|exact I].
  apply grammar_match_length in E. rewrite Hin in E. unfold substr in E.
  rewrite length_skipn in E.
  assert (Lexer_ok (forward (length m) l1)) as Hok2
    by (apply Lexer_ok_forward; lia).
  destruct (Lexer_ok_skipWhitespace _ Hok2) as [Hok3 Hidx3].
  repeat split; try apply Hok3.
  cbn [index forward] in Hidx3. lia.
Qed.

Lemma remaining_push token l l0 :
  Lexer_ok l -> index l0 < index l -> stash l = stash l0 ->
  source l = source l0 ->
  Lexer_ok (push token l) /\ remaining (push token l) <= remaining l0.
Proof.
  intros [Hin Hle] Hlt Hs Hsrc. split; [split; assumption|].
  unfold remaining. cbn [push stash source index].
  rewrite length_app, Hs, Hsrc in *. simpl. lia.
Qed.

Lemma lookahead_loop_total times : forall l,
  Lexer_ok l ->
  terminates (lookahead_loop times) l
    (fun _ l' =>
       Lexer_ok l' /\ remaining l' <= remaining l
       /\ length (stash l) <= length (stash l')).
Proof.
  induction times as [|times IH]; intros l Hok; unfold terminates;
    cbn [lookahead_loop]; [auto|].
  destruct (hasEnded l); [auto|].
  pose proof (lex_advances l Hok) as H. unfold terminates in H.
  destruct (lex l) as [token l1| |]; auto.
  destruct H as (Hok1 & Hlt & Hs & Hsrc).
  destruct (remaining_push token l1 l Hok1 Hlt Hs Hsrc) as [Hok2 Hrem].
  specialize (IH _ Hok2). unfold terminates in IH.
  destruct (lookahead_loop times (push token l1)); auto.
  destruct IH as (H1 & H2 & H3). split; [auto|]. split; [lia|].
  cbn [push stash] in H3. rewrite length_app, Hs in H3. lia.
Qed.

Lemma peek_total l :
  Lexer_ok l ->
  terminates peek l
    (fun token l' =>
       Lexer_ok l' /\ remaining l' <= remaining l
       /\ length (stash l) <= length (stash l')
       /\ (token <> None -> stash l' <> [])).
Proof.
  intros Hok. rewrite peek_unfold. apply terminates_bind.
  eapply terminates_mono; [apply lookahead_loop_total, Hok|].
  intros [] l' (H1 & H2 & H3). unfold terminates.
  split; [exact H1|]. split; [exact H2|]. split; [exact H3|].
  destruct (stash l'); [intros H; now elim H|easy].
Qed.

Lemma is_total v l :
  Lexer_ok l ->
  terminates (is_ v) l
    (fun _ l' =>
       Lexer_ok l' /\ remaining l' <= remaining l
       /\ length (stash l) <= length (stash l')).
Proof.
  intros Hok. unfold is_. apply terminates_bind.
  eapply terminates_mono; [apply peek_total, Hok|].
  intros [token|] l' (H1 & H2 & H3 & _); [|exact I].
  apply terminates_ret. auto.
Qed.

(** A token that [next] delivers is taken from what remains. *)
Lemma next_total l :
  Lexer_ok l ->
  terminates next l
    (fun r l' =>
       Lexer_ok l'
       /\ match result r with
          | Some _ => remaining l' < remaining l
          | None => remaining l' <= remaining l /\ stash l = []
          end).
Proof.
  intros Hok. unfold terminates, next.
  destruct (stash l) as [|token stash'] eqn:Es.
  - destruct (hasEnded l); [cbn; auto|].
    unfold bind. pose proof (lex_advances l Hok) as H.
    unfold terminates in H. destruct (lex l) as [token l1| |]; auto.
    destruct H as (Hok1 & Hlt & Hs & Hsrc). cbn. split; [exact Hok1|].
    unfold remaining. rewrite Hs, Hsrc. destruct Hok1 as [_ Hle].
    rewrite Hsrc in Hle. lia.
  - cbn. split; [exact Hok|]. unfold remaining, shift. cbn.
    rewrite Es. simpl. lia.
Qed.

Lemma ensure_total arguments l :
  Lexer_ok l ->
  terminates (ensure arguments) l
    (fun _ l' => Lexer_ok l' /\ remaining l' < remaining l).
Proof.
  intros Hok. unfold ensure. apply terminates_bind.
  eapply terminates_mono; [apply next_total, Hok|].
  intros r l' [Hok' H]. destruct (result r); [|exact I].
  destruct (negb _); [exact I|]. apply terminates_ret. auto.
Qed.

Lemma ensureType_total arguments l :
  Lexer_ok l ->
  terminates (ensureType arguments) l
    (fun _ l' => Lexer_ok l' /\ remaining l' < remaining l).
Proof.
  intros Hok. unfold ensureType. apply terminates_bind.
  eapply terminates_mono; [apply next_total, Hok|].
  intros r l' [Hok' H]. destruct (result r); [|exact I].
  destruct (negb _); [exact I|]. apply terminates_ret. auto.
Qed.

Section Fuel.

Variable pv : M Node.
Variable bound : nat.
Hypothesis pv_total : forall l,
  Lexer_ok l -> remaining l < bound ->
  terminates pv l (fun _ l' => Lexer_ok l' /\ remaining l' < remaining l).

Lemma separator_total (closing : bool) l :
  Lexer_ok l ->
  terminates (if negb closing then ensure [js ","] ;;; ret tt else ret tt) l
    (fun _ l' => Lexer_ok l' /\ remaining l' <= remaining l).
Proof.
  intros Hok. destruct (negb closing); [|apply terminates_ret; auto].
  apply terminates_bind. eapply terminates_mono; [apply ensure_total, Hok|].
  intros t l' [Hok' H]. apply terminates_ret. split; [auto|lia].
Qed.

Lemma parseObjectLiteral_while_total fuel : forall properties l,
  Lexer_ok l -> remaining l < fuel -> remaining l < bound ->
  terminates (parseObjectLiteral_while pv fuel properties) l
    (fun _ l' => Lexer_ok l' /\ remaining l' <= remaining l).
Proof.
  induction fuel as [|fuel IH]; intros properties l Hok Hfuel Hbound;
    [lia|].
  cbn [parseObjectLiteral_while]. apply terminates_bind.
  eapply terminates_mono; [apply is_total, Hok|]. intros b l1 (Hok1 & H1 & _).
  destruct (negb b); [|apply terminates_ret; auto].
  apply terminates_bind.
  eapply terminates_mono; [apply ensureType_total, Hok1|].
  intros key l2 [Hok2 H2].
  apply terminates_bind. eapply terminates_mono; [apply ensure_total, Hok2|].
  intros colon l3 [Hok3 H3].
  apply terminates_bind.
  eapply terminates_mono; [apply pv_total; [exact Hok3|lia]|].
  intros value l4 [Hok4 H4].
  apply terminates_bind. eapply terminates_mono; [apply is_total, Hok4|].
  intros b' l5 (Hok5 & H5 & _).
  apply terminates_bind.
  eapply terminates_mono; [apply separator_total, Hok5|].
  intros [] l6 [Hok6 H6].
  eapply terminates_mono; [apply IH; [exact Hok6|lia|lia]|].
  intros properties' l7 [Hok7 H7]. split; [auto|lia].
Qed.

Lemma parseObjectLiteral_total fuel l :
  Lexer_ok l -> remaining l <= fuel -> remaining l <= bound ->
  terminates (parseObjectLiteral pv fuel) l
    (fun _ l' => Lexer_ok l' /\ remaining l' < remaining l).
Proof.
  intros Hok Hfuel Hbound. unfold parseObjectLiteral.
  apply terminates_bind. eapply terminates_mono; [apply ensure_total, Hok|].
  intros startToken l1 [Hok1 H1].
  apply terminates_bind.
  eapply terminates_mono;
    [apply parseObjectLiteral_while_total; [exact Hok1|lia|lia]|].
  intros properties l2 [Hok2 H2].
  apply terminates_bind. eapply terminates_mono; [apply ensure_total, Hok2|].
  intros endToken l3 [Hok3 H3]. apply terminates_ret. split; [auto|lia].
Qed.

Lemma parseArrayLiteral_while_total fuel : forall elements l,
  Lexer_ok l -> remaining l < fuel -> remaining l < bound ->
  terminates (parseArrayLiteral_while pv fuel elements) l
    (fun _ l' => Lexer_ok l' /\ remaining l' <= remaining l).
Proof.
  induction fuel as [|fuel IH]; intros elements l Hok Hfuel Hbound; [lia|].
  cbn [parseArrayLiteral_while]. apply terminates_bind.
  eapply terminates_mono; [apply is_total, Hok|]. intros b l1 (Hok1 & H1 & _).
  destruct (negb b); [|apply terminates_ret; auto].
  apply terminates_bind.
  eapply terminates_mono; [apply pv_total; [exact Hok1|lia]|].
  intros element l2 [Hok2 H2].
  apply terminates_bind. eapply terminates_mono; [apply is_total, Hok2|].
  intros b' l3 (Hok3 & H3 & _).
  apply terminates_bind.
  eapply terminates_mono; [apply separator_total, Hok3|].
  intros [] l4 [Hok4 H4].
  eapply terminates_mono; [apply IH; [exact Hok4|lia|lia]|].
  intros elements' l5 [Hok5 H5]. split; [auto|lia].
Qed.

Lemma parseArrayLiteral_total fuel l :
  Lexer_ok l -> remaining l <= fuel -> remaining l <= bound ->
  terminates (parseArrayLiteral pv fuel) l
    (fun _ l' => Lexer_ok l' /\ remaining l' < remaining l).
Proof.
  intros Hok Hfuel Hbound. unfold parseArrayLiteral.
  apply terminates_bind. eapply terminates_mono; [apply ensure_total, Hok|].
  intros startToken l1 [Hok1 H1].
  apply terminates_bind.
  eapply terminates_mono;
    [apply parseArrayLiteral_while_total; [exact Hok1|lia|lia]|].
  intros elements l2 [Hok2 H2].
  apply terminates_bind. eapply terminates_mono; [apply ensure_total, Hok2|].
  intros endToken l3 [Hok3 H3]. apply terminates_ret. split; [auto|lia].
Qed.

End Fuel.

(** With more fuel than tokens can remain, [parseValue] returns or throws,
    and a value it returns has consumed a token. *)
Lemma parseValue_total fuel : forall l,
  Lexer_ok l -> remaining l < fuel ->
  terminates (parseValue fuel) l
    (fun _ l' => Lexer_ok l' /\ remaining l' < remaining l).
Proof.
  induction fuel as [|fuel IH]; intros l Hok Hfuel; [lia|].
  cbn [parseValue]. apply terminates_bind.
  eapply terminates_mono; [apply peek_total, Hok|].
  intros [token|] l1 (Hok1 & H1 & _ & Hs1); [|exact I].
  assert (0 < length (stash l1)) as Hs1'
    by (destruct (stash l1); [now elim Hs1|simpl; lia]).
  apply terminates_bind. eapply terminates_mono; [apply is_total, Hok1|].
  intros object l2 (Hok2 & H2 & Hs2). destruct object.
  { eapply terminates_mono;
      [apply (parseObjectLiteral_total _ fuel IH); [exact Hok2|lia|lia]|].
    intros node l3 [Hok3 H3]. split; [auto|lia]. }
  apply terminates_bind. eapply terminates_mono; [apply is_total, Hok2|].
  intros array l3 (Hok3 & H3 & Hs3). destruct array.
  { eapply terminates_mono;
      [apply (parseArrayLiteral_total _ fuel IH); [exact Hok3|lia|lia]|].
    intros node l4 [Hok4 H4]. split; [auto|lia]. }
  destruct (literal token); [|exact I].
  apply terminates_bind. eapply terminates_mono; [apply next_total, Hok3|].
  intros r l4 [Hok4 H4]. apply terminates_ret. split; [auto|].
  destruct (result r); [lia|]. destruct H4 as [_ H4].
  rewrite H4 in Hs3. simpl in Hs3. lia.
Qed.

(** [parse] returns a program or throws: its fuel is never exhausted. *)
Theorem parse_terminates input : outcome (parse input) <> None.
Proof.
  unfold parse, Parser_parse, bind.
  pose proof (parseValue_total (S (length input)) (new_Lexer input)) as H.
  unfold terminates in H.
  destruct (parseValue (S (length input)) (new_Lexer input)); try easy.
  intros _. apply H.
  - split; [reflexivity|cbn; lia].
  - unfold remaining. cbn. lia.
Qed.

(** ** peek and the stash *)

Lemma peek_lookahead_0 : peek = lookahead 0.
Proof. reflexivity. Qed.

(** After a [peek] that returned a token, [next] yields that token. *)
Lemma peek_then_next l token l' :
  peek l = Normal (Some token) l' ->
  next l' = Normal {| done := false; result := Some token |} (shift l').
Proof.
  rewrite peek_unfold. unfold bind.
  destruct (lookahead_loop 1 l) as [[] l1| |]; try easy.
  intros [= H <-]. unfold next.
  destruct (stash l1) as [|t ts]; [easy|]. simpl in H. now injection H as ->.
Qed.

(** A second [peek] returns the same token as the first, when it
    returns. *)
Lemma peek_peek l token l1 x l2 :
  peek l = Normal (Some token) l1 -> peek l1 = Normal x l2 ->
  x = Some token.
Proof.
  intros H1 H2.
  assert (exists stash', stash l1 = token :: stash') as (stash1 & Hs1).
  { rewrite peek_unfold in H1. unfold bind in H1.
    destruct (lookahead_loop 1 l) as [[] l'| |]; try easy.
    injection H1 as H <-. destruct (stash l'); [easy|].
    simpl in H. injection H as ->. eauto. }
  pose proof (peek_stash_head l1 _ _ Hs1) as H. rewrite H2 in H.
  now destruct H.
Qed.

(** With an empty stash and no input left, [peek] returns null. *)
Lemma peek_exhausted l :
  stash l = [] -> hasEnded l = true -> peek l = Normal None l.
Proof.
  intros Hs He. rewrite peek_unfold. unfold bind. simpl.
  now rewrite He, Hs.
Qed.

(** ** Tokens and nodes in source order *)

Lemma ordered_le lo tokens : forall hi, ordered lo tokens hi -> lo <= hi.
Proof.
  revert lo. induction tokens as [|t ts IH]; intros lo hi H; [exact H|].
  destruct H as (H1 & H2 & H3). apply IH in H3. lia.
Qed.

Lemma ordered_snoc tokens : forall lo hi token hi',
  ordered lo tokens hi -> hi <= start token ->
  start token <= end_ token -> end_ token <= hi' ->
  ordered lo (tokens ++ [token]) hi'.
Proof.
  induction tokens as [|t ts IH]; intros lo hi token hi' H H1 H2 H3.
  - simpl in *. lia.
  - destruct H as (Ha & Hb & Hc). simpl. repeat split; auto.
    eapply IH; eauto.
Qed.

(** The token [lex] returns lies between the old and the new index. *)
Lemma lex_span l :
  wp lex l (fun token l' =>
              index l <= start token /\ start token <= end_ token
              /\ end_ token <= index l' /\ stash l' = stash l).
Proof.
  unfold wp, lex. rewrite lex_grammar_spec.
  destruct (grammar_match _ _) as [[ty m]|]; [|exact I].
  cbn [new_Token start end_]. rewrite !index_skipWhitespace.
  pose proof (skipWhitespace_loop_spec (length (source l)) (source l)
                (index l)) as H1.
  destruct H1 as (H1 & _); [lia|].
  set (l1 := forward (length m) (skipWhitespace l)).
  pose proof (skipWhitespace_loop_spec (length (source l1)) (source l1)
                (index l1)) as H2.
  destruct H2 as (H2 & _); [lia|].
  subst l1. cbn [index forward] in H2 |- *.
  rewrite index_skipWhitespace in H2. rewrite ?index_skipWhitespace.
  repeat split; lia.
Qed.

Lemma lookahead_loop_ordered times : forall lo l,
  ordered lo (stash l) (index l) ->
  wp (lookahead_loop times) l
     (fun _ l' => ordered lo (stash l') (index l')
                  /\ exists more, stash l' = stash l ++ more).
Proof.
  induction times as [|times IH]; intros lo l H; unfold wp;
    cbn [lookahead_loop].
  - split; [exact H|]. exists []. now rewrite app_nil_r.
  - destruct (hasEnded l).
    { split; [exact H|]. exists []. now rewrite app_nil_r. }
    pose proof (lex_span l) as Hlex. unfold wp in Hlex.
    destruct (lex l) as [token l1| |]; auto.
    destruct Hlex as (H1 & H2 & H3 & H4).
    assert (ordered lo (stash (push token l1)) (index (push token l1))) as H'.
    { cbn [push stash index]. rewrite H4.
      eapply ordered_snoc; eauto. }
    specialize (IH lo _ H'). unfold wp in IH.
    destruct (lookahead_loop times (push token l1)) as [[] l2| |]; auto.
    destruct IH as (IH & more & Hmore). split; [exact IH|].
    exists (token :: more). rewrite Hmore. cbn [push stash]. rewrite H4.
    now rewrite <- app_assoc.
Qed.

(** [peek] keeps the stash in order and its head in place; the token it
    returns is that head. *)
Lemma peek_ordered lo l :
  ordered lo (stash l) (index l) ->
  wp peek l
     (fun token l' =>
        ordered lo (stash l') (index l')
        /\ token = hd_error (stash l')
        /\ (forall t, hd_error (stash l) = Some t -> token = Some t)).
Proof.
  intros H. rewrite peek_unfold. apply wp_bind.
  eapply wp_mono; [apply lookahead_loop_ordered, H|].
  intros [] l' (H1 & more & H2). unfold wp. repeat split; auto.
  intros t Ht. rewrite H2. destruct (stash l); [easy|].
  simpl in *. congruence.
Qed.

Lemma is_ordered v lo l :
  ordered lo (stash l) (index l) ->
  wp (is_ v) l
     (fun b l' =>
        ordered lo (stash l') (index l')
        /\ (exists t, hd_error (stash l') = Some t
                      /\ b = jsstring_eqb (value t) v)
        /\ (forall t, hd_error (stash l) = Some t
                      -> hd_error (stash l') = Some t)).
Proof.
  intros H. unfold is_. apply wp_bind.
  eapply wp_mono; [apply peek_ordered, H|].
  intros [t|] l' (H1 & H2 & H3); [|exact I]. apply wp_ret.
  repeat split; eauto.
  intros t' Ht'. apply H3 in Ht'. congruence.
Qed.

(** [next] returns the head of the stash, or the next token of the input;
    the rest of the tokens start where it ends or later. *)
Lemma next_ordered lo l :
  ordered lo (stash l) (index l) ->
  wp next l
     (fun r l' =>
        match result r with
        | Some t =>
            lo <= start t /\ start t <= end_ t
            /\ ordered (end_ t) (stash l') (index l')
            /\ (forall t', hd_error (stash l) = Some t' -> t = t')
        | None => stash l = [] /\ ordered lo (stash l') (index l')
        end).
Proof.
  intros H. unfold wp, next. destruct (stash l) as [|t ts] eqn:Es.
  - destruct (hasEnded l); [cbn; now rewrite Es|].
    pose proof (lex_span l) as Hlex. unfold wp in Hlex. unfold bind.
    destruct (lex l) as [token l1| |]; auto.
    destruct Hlex as (H1 & H2 & H3 & H4). cbn.
    rewrite H4, Es. simpl in *. repeat split; try lia. easy.
  - cbn. rewrite Es. cbn. destruct H as (H1 & H2 & H3).
    repeat split; auto. now intros t' [= ->].
Qed.

Lemma ensure_ordered arguments lo l :
  ordered lo (stash l) (index l) ->
  wp (ensure arguments) l
     (fun t l' =>
        lo <= start t /\ start t <= end_ t
        /\ ordered (end_ t) (stash l') (index l')).
Proof.
  intros H. unfold ensure. apply wp_bind.
  eapply wp_mono; [apply next_ordered, H|].
  intros r l' Hr. cbv beta in Hr. destruct (result r) as [t|]; [|exact I].
  destruct (negb _); [exact I|]. apply wp_ret.
  destruct Hr as (H1 & H2 & H3 & _). auto.
Qed.

Lemma ensureType_ordered arguments lo l :
  ordered lo (stash l) (index l) ->
  wp (ensureType arguments) l
     (fun t l' =>
        lo <= start t /\ start t <= end_ t
        /\ ordered (end_ t) (stash l') (index l')).
Proof.
  intros H. unfold ensureType. apply wp_bind.
  eapply wp_mono; [apply next_ordered, H|].
  intros r l' Hr. cbv beta in Hr. destruct (result r) as [t|]; [|exact I].
  destruct (negb _); [exact I|]. apply wp_ret.
  destruct Hr as (H1 & H2 & H3 & _). auto.
Qed.

Section Spans.

Variable parseValue : M Node.

Hypothesis parseValue_spans : forall lo l,
  ordered lo (stash l) (index l) ->
  wp parseValue l
     (fun node l' =>
        exists hi, ordered hi (stash l') (index l') /\ spans_from lo node hi).

Lemma ends_by_le f hi hi' : ends_by f hi -> hi <= hi' -> ends_by f hi'.
Proof. destruct f; simpl; [lia|auto]. Qed.

(** After an optional comma the loop goes on from the same or a later
    offset. *)
Lemma comma_ordered closing lo l :
  ordered lo (stash l) (index l) ->
  wp (if negb closing then ensure [js ","] ;;; ret tt else ret tt) l
     (fun _ l' => exists hi, lo <= hi /\ ordered hi (stash l') (index l')).
Proof.
  intros H. destruct closing; cbn [negb].
  - apply wp_ret. eauto.
  - apply wp_bind. eapply wp_mono; [apply ensure_ordered, H|].
    intros t l' (H1 & H2 & H3). apply wp_ret. exists (end_ t).
    split; [lia|exact H3].
Qed.

Lemma parseArrayLiteral_while_spans fuel : forall s lo l elements,
  ordered lo (stash l) (index l) ->
  s <= lo ->
  Forall (fun x => s <= Node_start x /\ ends_by (Node_end x) lo) elements ->
  Forall span_ok (flat_map nodes elements) ->
  wp (parseArrayLiteral_while parseValue fuel elements) l
     (fun elements' l' =>
        exists hi,
          ordered hi (stash l') (index l') /\ lo <= hi
          /\ Forall (fun x => s <= Node_start x /\ ends_by (Node_end x) hi)
               elements'
          /\ Forall span_ok (flat_map nodes elements')).
Proof.
  induction fuel as [|fuel IH]; intros s lo l elements H Hs Hin Hok;
    [exact I|].
  cbn [parseArrayLiteral_while]. apply wp_bind.
  eapply wp_mono; [apply is_ordered, H|].
  intros closing l1 (H1 & _ & _). destruct closing; cbn [negb].
  { apply wp_ret. eauto. }
  apply wp_bind. eapply wp_mono; [apply parseValue_spans, H1|].
  intros element l2 (hi & H2 & Ha & Hb & Hc & Hd).
  apply wp_bind. eapply wp_mono; [apply is_ordered, H2|].
  intros closing l3 (H3 & _ & _).
  apply wp_bind. eapply wp_mono; [apply comma_ordered, H3|].
  intros [] l4 (hi' & Hle & H4).
  eapply wp_mono; [apply (IH s hi'); [exact H4|lia| |]|].
  - apply Forall_app. split.
    + eapply Forall_impl; [|exact Hin]. intros x [Hx1 Hx2]. split; auto.
      eapply ends_by_le; [exact Hx2|lia].
    + constructor; [|constructor]. split; [lia|].
      eapply ends_by_le; eauto.
  - rewrite flat_map_app. apply Forall_app. split; [exact Hok|].
    simpl. rewrite app_nil_r. exact Hd.
  - intros elements' l5 (hi5 & Hx & Hy & Hz). exists hi5.
    repeat split; try tauto. lia.
Qed.

Lemma parseArrayLiteral_spans fuel lo l :
  ordered lo (stash l) (index l) ->
  wp (parseArrayLiteral parseValue fuel) l
     (fun node l' =>
        exists hi, ordered hi (stash l') (index l') /\ spans_from lo node hi).
Proof.
  intros H. unfold parseArrayLiteral. apply wp_bind.
  eapply wp_mono; [apply ensure_ordered, H|].
  intros startToken l1 (H1 & H2 & H3). apply wp_bind.
  eapply wp_mono;
    [apply (parseArrayLiteral_while_spans fuel (start startToken)
              (end_ startToken)); [exact H3|lia|constructor|constructor]|].
  intros elements l2 (hi & H4 & H5 & H6 & H7). apply wp_bind.
  eapply wp_mono; [apply ensure_ordered, H4|].
  intros endToken l3 (H8 & H9 & H10). apply wp_ret.
  exists (end_ endToken). split; [exact H10|].
  unfold spans_from. cbn [Node_start Node_end ends_by nodes].
  repeat split; try lia.
  constructor; [|exact H7]. split; [cbn; lia|].
  eapply Forall_impl; [|exact H6]. intros x [Hx1 Hx2]. split; auto.
  eapply ends_by_le; [exact Hx2|lia].
Qed.

Lemma parseObjectLiteral_while_spans fuel : forall s lo l properties,
  ordered lo (stash l) (index l) ->
  s <= lo ->
  Forall (property_inside s lo) properties ->
  wp (parseObjectLiteral_while parseValue fuel properties) l
     (fun properties' l' =>
        exists hi,
          ordered hi (stash l') (index l') /\ lo <= hi
          /\ Forall (property_inside s hi) properties').
Proof.
  induction fuel as [|fuel IH]; intros s lo l properties H Hs Hin;
    [exact I|].
  cbn [parseObjectLiteral_while]. apply wp_bind.
  eapply wp_mono; [apply is_ordered, H|].
  intros closing l1 (H1 & _ & _). destruct closing; cbn [negb].
  { apply wp_ret. eauto. }
  apply wp_bind. eapply wp_mono; [apply ensureType_ordered, H1|].
  intros key l2 (Hk1 & Hk2 & H2).
  apply wp_bind. eapply wp_mono; [apply ensure_ordered, H2|].
  intros colon l2' (Hc1 & Hc2 & H2').
  apply wp_bind. eapply wp_mono; [apply parseValue_spans, H2'|].
  intros value l3 (hi & H3 & Ha & Hb & Hc & Hd).
  apply wp_bind. eapply wp_mono; [apply is_ordered, H3|].
  intros closing l4 (H4 & _ & _).
  apply wp_bind. eapply wp_mono; [apply comma_ordered, H4|].
  intros [] l5 (hi' & Hle & H5).
  eapply wp_mono; [apply (IH s hi'); [exact H5|lia|]|].
  - apply Forall_app. split.
    + eapply Forall_impl; [|exact Hin]. unfold property_inside.
      intros p Hp. destruct (Property_start p) as [ps|]; [|exact I].
      destruct Hp as (Hp1 & Hp2 & Hp3). repeat split; try lia.
      destruct (Property_end p) as [pe|]; [lia|exact I].
    + constructor; [|constructor]. unfold property_inside.
      cbn [new_Property Property_start Property_end].
      repeat split; try lia.
      assert (span_ok value) as [Hv _].
      { destruct value; now inversion Hd. }
      unfold ends_by in Hc. destruct (Node_end value); [lia|exact I].
  - intros properties' l6 (hi6 & Hx & Hy & Hz). exists hi6.
    repeat split; try tauto. lia.
Qed.

Lemma parseObjectLiteral_spans fuel lo l :
  ordered lo (stash l) (index l) ->
  wp (parseObjectLiteral parseValue fuel) l
     (fun node l' =>
        exists hi, ordered hi (stash l') (index l') /\ spans_from lo node hi).
Proof.
  intros H. unfold parseObjectLiteral. apply wp_bind.
  eapply wp_mono; [apply ensure_ordered, H|].
  intros startToken l1 (H1 & H2 & H3). apply wp_bind.
  eapply wp_mono;
    [apply (parseObjectLiteral_while_spans fuel (start startToken)
              (end_ startToken)); [exact H3|lia|constructor]|].
  intros properties l2 (hi & H4 & H5 & H6). apply wp_bind.
  eapply wp_mono; [apply ensure_ordered, H4|].
  intros endToken l3 (H8 & H9 & H10). apply wp_ret.
  exists (end_ endToken). split; [exact H10|].
  unfold spans_from. cbn [Node_start Node_end ends_by nodes].
  repeat split; try lia.
  constructor; [|constructor]. split; [cbn; lia|].
  eapply Forall_impl; [|exact H6]. unfold property_inside.
  intros p Hp. destruct (Property_start p) as [ps|]; [|exact I].
  destruct Hp as (Hp1 & Hp2 & Hp3). repeat split; try lia.
  destruct (Property_end p) as [pe|]; [lia|exact I].
Qed.

End Spans.

Lemma literal_spans token node lo :
  literal token = Some node ->
  lo <= start token -> start token <= end_ token ->
  spans_from lo node (end_ token).
Proof.
  unfold literal, spans_from.
  destruct (type token); intros [= <-] H1 H2; cbn;
    repeat split; auto; repeat constructor; auto.
Qed.

Lemma parseValue_spans fuel : forall lo l,
  ordered lo (stash l) (index l) ->
  wp (parseValue fuel) l
     (fun node l' =>
        exists hi, ordered hi (stash l') (index l') /\ spans_from lo node hi).
Proof.
  induction fuel as [|fuel IH]; intros lo l H; [exact I|].
  cbn [parseValue]. apply wp_bind.
  eapply wp_mono; [apply peek_ordered, H|].
  intros [token|] l1 (H1 & Hd1 & _); [|exact I].
  apply wp_bind. eapply wp_mono; [apply is_ordered, H1|].
  intros object l2 (H2 & _ & Hd2). destruct object.
  { now apply parseObjectLiteral_spans. }
  apply wp_bind. eapply wp_mono; [apply is_ordered, H2|].
  intros array l3 (H3 & _ & Hd3). destruct array.
  { now apply parseArrayLiteral_spans. }
  destruct (literal token) as [node|] eqn:El; [|exact I].
  apply wp_bind. eapply wp_mono; [apply next_ordered, H3|].
  intros r l4 Hr. cbv beta in Hr. apply wp_ret.
  symmetry in Hd1. apply Hd2, Hd3 in Hd1.
  destruct (result r) as [t|].
  - destruct Hr as (Ha & Hb & Hc & Hd). apply Hd in Hd1. subst t.
    exists (end_ token). split; [exact Hc|].
    now apply literal_spans.
  - destruct Hr as [Hr _]. now rewrite Hr in Hd1.
Qed.


(** ** Tokens are pieces of the source *)

Lemma slice_prefix s i m rest :
  skipn i s = m ++ rest -> slice s i (i + length m) = m.
Proof.
  intros H. unfold slice. rewrite H.
  replace (i + length m - i) with (length m + 0) by lia.
  rewrite firstn_app_2. simpl. apply app_nil_r.
Qed.

(** What [lex] returns on a well-formed Lexer: a token of the grammar that
    is a piece of the source, with nothing but code units up to 32 skipped
    before and after it, and a Lexer that is at the end of the source or at
    a code unit above 32. *)
Lemma lex_text l :
  Lexer_ok l ->
  wp lex l
     (fun token l' =>
        lexed token /\ token_text (source l) token
        /\ Lexer_ok l' /\ source l' = source l /\ stash l' = stash l
        /\ index l <= start token /\ blank (source l) (index l) (start token)
        /\ end_ token <= index l'
        /\ blank (source l) (end_ token) (index l')
        /\ (forall c, charCodeAt (source l) (index l') = Some c ->
              (32 < c)%N)).
Proof.
  intros Hok. unfold wp, lex. rewrite lex_grammar_spec.
  destruct (Lexer_ok_skipWhitespace l Hok) as [[Hin Hle] Hidx].
  destruct (skipWhitespace_loop_spec (length (source l)) (source l) (index l))
    as (_ & _ & Hb1 & _); [lia|].
  rewrite <- index_skipWhitespace in Hb1.
  set (l1 := skipWhitespace l) in *.
  destruct (grammar_match grammar (input l1)) as [[ty m]|] eqn:E;
    [|exact I].
  pose proof (grammar_match_length _ _ _ E) as Hlen.
  destruct (grammar_match_prefix _ _ _ _ E) as (rest & Hrest).
  rewrite Hin in Hlen, Hrest. unfold substr in Hlen, Hrest.
  rewrite length_skipn in Hlen.
  assert (source l1 = source l) as Hs1 by reflexivity.
  rewrite Hs1 in *.
  assert (Lexer_ok (forward (length m) l1)) as Hok2
    by (apply Lexer_ok_forward; rewrite Hs1; lia).
  destruct (Lexer_ok_skipWhitespace _ Hok2) as [Hok3 Hidx3].
  set (l2 := forward (length m) l1) in *.
  destruct (skipWhitespace_loop_spec (length (source l2)) (source l2)
              (index l2)) as (_ & _ & Hb2 & Hb3); [lia|].
  rewrite <- index_skipWhitespace in Hb2, Hb3.
  cbn [new_Token start end_ value].
  split; [split; [exists (input l1); exact E|reflexivity]|]. split.
  { unfold token_text. cbn [new_Token start end_ value].
    repeat split; try lia.
    - intros ->. simpl in Hlen. lia.
    - eapply slice_prefix; eauto. }
  split; [exact Hok3|]. split; [reflexivity|]. split; [reflexivity|].
  split; [exact Hidx|]. split; [exact Hb1|].
  split; [exact Hidx3|]. split; [exact Hb2|exact Hb3].
Qed.

Lemma jsstring_eqb_eq a : forall b, jsstring_eqb a b = true <-> a = b.
Proof.
  induction a as [|x a IH]; intros [|y b]; simpl; split; try easy.
  - intros H. apply andb_prop in H. destruct H as [Hx Ha].
    apply N.eqb_eq in Hx. apply IH in Ha. now subst.
  - intros [= -> ->]. rewrite N.eqb_refl. now apply IH.
Qed.

Lemma jsstring_eqb_false a b : jsstring_eqb a b = false <-> a <> b.
Proof.
  split.
  - intros H E. apply jsstring_eqb_eq in E. congruence.
  - intros H. destruct (jsstring_eqb a b) eqn:E; [|reflexivity].
    apply jsstring_eqb_eq in E. contradiction.
Qed.

(** ** What the parser builds from the tokens of one source

    The rule of the parser for a property [TokP] that [lex] gives the
    tokens of a well-formed Lexer over the text [src]; it also records
    which bracket a node begins and ends with. *)

Section SourceRule.

Variable src : jsstring.
Variable TokP : Token -> Prop.
Variable NodeP : Node -> Prop.
Variable PropP : Property -> Prop.

Hypothesis lex_TokP : forall l token l',
  Lexer_ok l -> source l = src -> lex l = Normal token l' -> TokP token.
Hypothesis literal_NodeP : forall token node,
  TokP token -> literal token = Some node -> NodeP node.
Hypothesis array_NodeP : forall elements startToken endToken,
  Forall NodeP elements ->
  TokP startToken -> value startToken = js "[" ->
  TokP endToken -> value endToken = js "]" ->
  NodeP (ArrayLiteral elements (start startToken) (end_ endToken)).
Hypothesis object_NodeP : forall properties startToken endToken,
  Forall PropP properties ->
  TokP startToken -> value startToken = js "{" ->
  TokP endToken -> value endToken = js "}" ->
  NodeP (ObjectLiteral properties (start startToken) (end_ endToken)).
Hypothesis property_PropP : forall key value,
  TokP key -> type key = TOKEN_STRING \/ type key = TOKEN_NUMBER ->
  NodeP value ->
  PropP (new_Property key value (Some (start key)) (Node_end value)).

Let Inv (l : Lexer) : Prop :=
  Lexer_ok l /\ source l = src /\ Forall TokP (stash l).

Lemma lex_source_rule l :
  Inv l -> wp lex l (fun token l' => TokP token /\ Inv l').
Proof.
  intros (Hok & Hsrc & Hst). pose proof (lex_text l Hok) as H.
  unfold wp in *. destruct (lex l) as [token l'| |] eqn:E; auto.
  destruct H as (_ & _ & Hok' & Hsrc' & Hst' & _).
  split; [eauto|]. split; [exact Hok'|]. split; [congruence|].
  now rewrite Hst'.
Qed.

Lemma lookahead_loop_source_rule times : forall l,
  Inv l -> wp (lookahead_loop times) l (fun _ l' => Inv l').
Proof.
  induction times as [|times IH]; intros l HI; unfold wp; simpl; auto.
  destruct (hasEnded l); auto.
  pose proof (lex_source_rule l HI) as H. unfold wp in H.
  destruct (lex l) as [token l'| |]; auto.
  apply IH. destruct H as (Ht & Hok & Hsrc & Hst).
  split; [exact Hok|]. split; [exact Hsrc|].
  cbn [push stash]. apply Forall_app. split; auto.
Qed.

Lemma peek_source_rule l :
  Inv l ->
  wp peek l (fun token l' =>
               Inv l' /\ forall t, token = Some t -> TokP t).
Proof.
  intros HI. rewrite peek_unfold. apply wp_bind.
  eapply wp_mono; [apply lookahead_loop_source_rule, HI|].
  intros [] l' HI'. unfold wp. split; auto.
  intros t Ht. apply nth_error_In in Ht.
  destruct HI' as (_ & _ & HI'). rewrite Forall_forall in HI'. auto.
Qed.

Lemma next_source_rule l :
  Inv l ->
  wp next l (fun r l' => Inv l' /\ forall t, result r = Some t -> TokP t).
Proof.
  intros HI. unfold wp, next.
  destruct (stash l) as [|t ts] eqn:E.
  - destruct (hasEnded l).
    + split; auto. simpl. easy.
    + unfold bind. pose proof (lex_source_rule l HI) as H. unfold wp in H.
      destruct (lex l) as [token l'| |]; auto. simpl.
      destruct H. split; auto. now intros t [= <-].
  - destruct HI as (Hok & Hsrc & Hst). rewrite E in Hst.
    inversion Hst; subst. split.
    + split; [exact Hok|]. split; [reflexivity|].
      cbn [shift stash]. rewrite E. assumption.
    + now intros t' [= <-].
Qed.

Lemma is_source_rule v l : Inv l -> wp (is_ v) l (fun _ l' => Inv l').
Proof.
  intros HI. unfold is_. apply wp_bind.
  eapply wp_mono; [apply peek_source_rule, HI|].
  intros [t|] l' [HI' _]; [now apply wp_ret|apply wp_throw].
Qed.

(** [ensure] returns a token whose value is one of its arguments. *)
Lemma ensure_source_rule arguments l :
  Inv l ->
  wp (ensure arguments) l
     (fun t l' => Inv l' /\ TokP t /\ In (value t) arguments).
Proof.
  intros HI. unfold ensure. apply wp_bind.
  eapply wp_mono; [apply next_source_rule, HI|].
  intros r l' [HI' Ht]. destruct (result r) as [t|]; [|apply wp_throw].
  destruct (negb _) eqn:F; [apply wp_throw|]. apply wp_ret.
  repeat split; auto; try apply HI'. apply negb_false_iff in F.
  unfold ensure_found in F. apply existsb_exists in F.
  destruct F as (a & Hin & Heq). apply jsstring_eqb_eq in Heq.
  now rewrite Heq.
Qed.

Lemma ensureType_source_rule arguments l :
  Inv l ->
  wp (ensureType arguments) l
     (fun t l' => Inv l' /\ TokP t /\ In (type t) arguments).
Proof.
  intros HI. unfold ensureType. apply wp_bind.
  eapply wp_mono; [apply next_source_rule, HI|].
  intros r l' [HI' Ht]. destruct (result r) as [t|]; [|apply wp_throw].
  destruct (negb _) eqn:F; [apply wp_throw|]. apply wp_ret.
  repeat split; auto; try apply HI'. apply negb_false_iff in F.
  unfold ensureType_found in F. apply existsb_exists in F.
  destruct F as (ty & Hin & Heq).
  destruct (type t), ty; try discriminate; exact Hin.
Qed.

Section SourceLoops.

Variable pv : M Node.
Hypothesis pv_rule : forall l,
  Inv l -> wp pv l (fun node l' => Inv l' /\ NodeP node).

Lemma separator_source_rule (closing : bool) l :
  Inv l ->
  wp (if negb closing then ensure [js ","] ;;; ret tt else ret tt)
     l (fun _ l' => Inv l').
Proof.
  intros HI. destruct (negb closing); [|now apply wp_ret].
  apply wp_bind. eapply wp_mono; [apply ensure_source_rule, HI|].
  intros t l' [HI' _]. now apply wp_ret.
Qed.

Lemma parseObjectLiteral_while_source_rule fuel : forall properties l,
  Inv l -> Forall PropP properties ->
  wp (parseObjectLiteral_while pv fuel properties) l
     (fun properties' l' => Inv l' /\ Forall PropP properties').
Proof.
  induction fuel as [|fuel IH]; intros properties l HI HP; [exact I|].
  cbn [parseObjectLiteral_while]. apply wp_bind.
  eapply wp_mono; [apply is_source_rule, HI|]. intros b l1 HI1.
  destruct (negb b); [|now apply wp_ret].
  apply wp_bind. eapply wp_mono; [apply ensureType_source_rule, HI1|].
  intros key l2 (HI2 & Hkey & Hty).
  apply wp_bind. eapply wp_mono; [apply ensure_source_rule, HI2|].
  intros tok l3 [HI3 _].
  apply wp_bind. eapply wp_mono; [apply pv_rule, HI3|].
  intros value l4 [HI4 Hvalue].
  apply wp_bind. eapply wp_mono; [apply is_source_rule, HI4|].
  intros b' l5 HI5.
  apply wp_bind. eapply wp_mono; [apply separator_source_rule, HI5|].
  intros [] l6 HI6. apply IH; auto.
  apply Forall_app. split; auto. constructor; auto.
  apply property_PropP; auto.
  destruct Hty as [<-|[<-|[]]]; auto.
Qed.

Lemma parseObjectLiteral_source_rule fuel l :
  Inv l ->
  wp (parseObjectLiteral pv fuel) l (fun node l' => Inv l' /\ NodeP node).
Proof.
  intros HI. unfold parseObjectLiteral.
  apply wp_bind. eapply wp_mono; [apply ensure_source_rule, HI|].
  intros startToken l1 (HI1 & Hs & [Hsv|[]]).
  apply wp_bind.
  eapply wp_mono; [apply parseObjectLiteral_while_source_rule; auto|].
  intros properties l2 [HI2 HP].
  apply wp_bind. eapply wp_mono; [apply ensure_source_rule, HI2|].
  intros endToken l3 (HI3 & He & [Hev|[]]). apply wp_ret. auto.
Qed.

Lemma parseArrayLiteral_while_source_rule fuel : forall elements l,
  Inv l -> Forall NodeP elements ->
  wp (parseArrayLiteral_while pv fuel elements) l
     (fun elements' l' => Inv l' /\ Forall NodeP elements').
Proof.
  induction fuel as [|fuel IH]; intros elements l HI HP; [exact I|].
  cbn [parseArrayLiteral_while]. apply wp_bind.
  eapply wp_mono; [apply is_source_rule, HI|]. intros b l1 HI1.
  destruct (negb b); [|now apply wp_ret].
  apply wp_bind. eapply wp_mono; [apply pv_rule, HI1|].
  intros element l2 [HI2 Helement].
  apply wp_bind. eapply wp_mono; [apply is_source_rule, HI2|].
  intros b' l3 HI3.
  apply wp_bind. eapply wp_mono; [apply separator_source_rule, HI3|].
  intros [] l4 HI4. apply IH; auto.
  apply Forall_app. split; auto.
Qed.

Lemma parseArrayLiteral_source_rule fuel l :
  Inv l ->
  wp (parseArrayLiteral pv fuel) l (fun node l' => Inv l' /\ NodeP node).
Proof.
  intros HI. unfold parseArrayLiteral.
  apply wp_bind. eapply wp_mono; [apply ensure_source_rule, HI|].
  intros startToken l1 (HI1 & Hs & [Hsv|[]]).
  apply wp_bind.
  eapply wp_mono; [apply parseArrayLiteral_while_source_rule; auto|].
  intros elements l2 [HI2 HP].
  apply wp_bind. eapply wp_mono; [apply ensure_source_rule, HI2|].
  intros endToken l3 (HI3 & He & [Hev|[]]). apply wp_ret. auto.
Qed.

End SourceLoops.

Lemma parseValue_source_rule fuel : forall l,
  Inv l -> wp (parseValue fuel) l (fun node l' => Inv l' /\ NodeP node).
Proof.
  induction fuel as [|fuel IH]; intros l HI; [exact I|].
  cbn [parseValue]. apply wp_bind.
  eapply wp_mono; [apply peek_source_rule, HI|].
  intros [token|] l1 [HI1 Htoken]; [|apply wp_throw].
  apply wp_bind. eapply wp_mono; [apply is_source_rule, HI1|].
  intros object l2 HI2.
  destruct object; [now apply parseObjectLiteral_source_rule|].
  apply wp_bind. eapply wp_mono; [apply is_source_rule, HI2|].
  intros array l3 HI3.
  destruct array; [now apply parseArrayLiteral_source_rule|].
  destruct (literal token) as [node|] eqn:E; [|apply wp_throw].
  apply wp_bind. eapply wp_mono; [apply next_source_rule, HI3|].
  intros r l4 [HI4 _]. apply wp_ret. split; eauto.
Qed.

End SourceRule.

Lemma Lexer_ok_new input : Lexer_ok (new_Lexer input).
Proof. split; [reflexivity|apply Nat.le_0_l]. Qed.

Lemma parse_source_rule input (TokP : Token -> Prop) (NodeP : Node -> Prop)
  (PropP : Property -> Prop) :
  (forall l token l',
     Lexer_ok l -> source l = input -> lex l = Normal token l' ->
     TokP token) ->
  (forall token node,
     TokP token -> literal token = Some node -> NodeP node) ->
  (forall elements startToken endToken,
     Forall NodeP elements ->
     TokP startToken -> value startToken = js "[" ->
     TokP endToken -> value endToken = js "]" ->
     NodeP (ArrayLiteral elements (start startToken) (end_ endToken))) ->
  (forall properties startToken endToken,
     Forall PropP properties ->
     TokP startToken -> value startToken = js "{" ->
     TokP endToken -> value endToken = js "}" ->
     NodeP (ObjectLiteral properties (start startToken) (end_ endToken))) ->
  (forall key value,
     TokP key -> type key = TOKEN_STRING \/ type key = TOKEN_NUMBER ->
     NodeP value ->
     PropP (new_Property key value (Some (start key)) (Node_end value))) ->
  forall root, outcome (parse input) = Some (inl root) -> NodeP root.
Proof.
  intros H1 H2 H3 H4 H5 root H. apply outcome_node in H.
  destruct H as (p & l & H & <-).
  unfold parse, Parser_parse, bind in H.
  pose proof (parseValue_source_rule input TokP NodeP PropP H1 H2 H3 H4 H5
                (S (length input)) (new_Lexer input)) as Hr.
  unfold wp in Hr.
  destruct (parseValue (S (length input)) (new_Lexer input))
    as [node l'| |]; try easy.
  injection H as <- <-. apply Hr.
  split; [apply Lexer_ok_new|]. split; [reflexivity|constructor].
Qed.

(** ** The lexeme of each kind of token *)

Lemma Matches_S_FRAC f : Matches S_FRAC f <-> spec_fraction f.
Proof.
  unfold S_FRAC, spec_fraction. split.
  - intros H. invert_Matches.
    match goal with H : Matches S_DIGITS ?ds |- _ =>
      exists ds; split; [reflexivity|now apply Matches_S_DIGITS] end.
  - intros (ds & -> & Hds).
    apply (MSeq _ _ [code "."] ds); [constructor|].
    now apply Matches_S_DIGITS.
Qed.

Lemma nonzero_class c :
  xorb false (in_ranges c [rng "1" "9"]) = spec_nonzero_digit c.
Proof. unfold spec_nonzero_digit. unfold_grammar. char_cases. Qed.

Lemma digit_class c :
  xorb false (in_ranges c [rng "0" "9"]) = spec_digit c.
Proof. unfold spec_digit. unfold_grammar. char_cases. Qed.

Lemma Matches_S_INT i : Matches S_INT i <-> spec_integer i.
Proof.
  unfold S_INT, S_ONENINE, S_DIGIT, spec_integer. split.
  - intros H. invert_Matches;
      repeat match goal with
             | H : xorb false _ = true |- _ =>
                 first [rewrite nonzero_class in H|rewrite digit_class in H]
             | H : Matches S_DIGITS _ |- _ => apply Matches_S_DIGITS in H
             end.
    all: first [ exists [code "-"]; eexists; split; [reflexivity|];
                 split; [now right|]
               | exists []; eexists; split; [reflexivity|];
                 split; [now left|] ].
    all: first [ left; do 2 eexists; split; [reflexivity|solve [auto]]
               | right; eexists; split; [reflexivity|solve [auto]] ].
  - intros (sign & body & -> & Hsign & Hbody).
    apply MSeq.
    + destruct Hsign as [-> | ->]; [apply MOptNone|].
      apply MOptSome. constructor.
    + destruct Hbody as [(d & ds & -> & Hd & Hds)|(d & -> & Hd)].
      * apply MAltL. apply (MSeq _ _ [d] ds).
        -- constructor. now rewrite nonzero_class.
        -- now apply Matches_S_DIGITS.
      * apply MAltR. constructor. now rewrite digit_class.
Qed.

Lemma Matches_Opt_S_EXP e :
  Matches (Opt S_EXP) e <-> e = [] \/ spec_exponent e.
Proof.
  split.
  - intros H. inversion H; subst; [right; now apply Matches_S_EXP|now left].
  - intros [-> |H]; [apply MOptNone|apply MOptSome; now apply Matches_S_EXP].
Qed.

Lemma Matches_Opt_S_FRAC f :
  Matches (Opt S_FRAC) f <-> f = [] \/ spec_fraction f.
Proof.
  split.
  - intros H. inversion H; subst; [right; now apply Matches_S_FRAC|now left].
  - intros [-> |H]; [apply MOptNone|apply MOptSome; now apply Matches_S_FRAC].
Qed.

(** The language of the number entry. *)
Lemma Matches_S_NUMBER n : Matches S_NUMBER n <-> spec_numeral n.
Proof.
  unfold S_NUMBER, spec_numeral. split.
  - intros H. inversion H as [ | | | |r1 r2 m Hl|r1 r2 m Hr| | | | ]; subst.
    + inversion Hl as [ | | |r1 r2 m1 m2 H1 H2| | | | | | ]; subst.
      exists m1, m2. split; [reflexivity|].
      split; [now apply Matches_Opt_S_EXP|]. left.
      now apply Matches_S_FRAC.
    + inversion Hr as [ | | |r1 r2 m1 m2 H1 H2| | | | | | ]; subst.
      inversion H2 as [ | | |r1 r2 m3 m4 H3 H4| | | | | | ]; subst.
      exists (m1 ++ m3), m4. split; [now rewrite app_assoc|].
      split; [now apply Matches_Opt_S_EXP|]. right.
      exists m1, m3. split; [reflexivity|].
      split; [now apply Matches_S_INT|now apply Matches_Opt_S_FRAC].
  - intros (mantissa & e & -> & He & [Hf|(i & f & -> & Hi & Hf)]).
    + apply MAltL. apply MSeq; [now apply Matches_S_FRAC|].
      now apply Matches_Opt_S_EXP.
    + apply MAltR. rewrite <- app_assoc. apply MSeq.
      * now apply Matches_S_INT.
      * apply MSeq; [now apply Matches_Opt_S_FRAC|].
        now apply Matches_Opt_S_EXP.
Qed.

Lemma Matches_Str s m : Matches (Str s) m -> m = s.
Proof.
  revert m. induction s as [|c s IH]; intros m H; simpl in H.
  - now inversion H.
  - inversion H as [ | | |r1 r2 m1 m2 H1 H2| | | | | | ]; subst.
    inversion H1; subst. simpl. f_equal. now apply IH.
Qed.

Lemma Matches_S_PUNC m :
  Matches S_PUNC m -> exists c, m = [c] /\ In c punctuators.
Proof.
  unfold S_PUNC. intros H. inversion H as [ | |neg rs c Hc| | | | | | | ];
    subst. exists c. split; [reflexivity|]. revert Hc. unfold punctuators.
  unfold_grammar. char_cases; intros _; simpl; lia.
Qed.

(** The lexeme of a token that [lex] built, by the token's kind. *)
Lemma lexed_kind token :
  lexed token -> lexeme_of_kind (type token) (value token).
Proof.
  intros [(s & H) _]. apply grammar_match_In in H.
  destruct H as (re & Hin & H). apply String_match_Some in H.
  destruct H as (rest & _ & _ & Hm).
  destruct Hin as [E|[E|[E|[E|[E|[]]]]]]; injection E as <- <-;
    cbn [lexeme_of_kind].
  - now apply Matches_S_STRING.
  - now apply Matches_S_NUMBER.
  - now apply Matches_S_PUNC.
  - unfold S_BOOL in Hm. inversion Hm; subst; [left|right];
      now apply Matches_Str.
  - now apply Matches_Str.
Qed.

(** ** Nodes are pieces of the input *)

Lemma slice_one s a c : slice s a (a + 1) = [c] -> charCodeAt s a = Some c.
Proof.
  unfold slice, charCodeAt. replace (a + 1 - a) with 1 by lia.
  rewrite <- (firstn_skipn a s) at 2.
  intros H. destruct (skipn a s) as [|x rest] eqn:E; [discriminate|].
  injection H as ->.
  assert (length (firstn a s) = a) as Hlen.
  { apply firstn_length_le. apply (f_equal (@length _)) in E.
    rewrite length_skipn in E. simpl in E. lia. }
  rewrite nth_error_app2 by lia. rewrite Hlen, Nat.sub_diag. reflexivity.
Qed.

(** A token whose lexeme is one character sits at that character. *)
Lemma token_text_one s token c :
  token_text s token -> value token = [c] ->
  end_ token = start token + 1 /\ charCodeAt s (start token) = Some c.
Proof.
  intros (_ & He & _ & Hs) Hv. rewrite Hv in *. simpl in He.
  split; [exact He|]. apply slice_one. now rewrite <- He.
Qed.

Lemma parse_node_text input root :
  outcome (parse input) = Some (inl root) ->
  Forall (node_text input) (nodes root).
Proof.
  apply (parse_source_rule input
           (fun t => lexed t /\ token_text input t)
           (fun n => Forall (node_text input) (nodes n))
           (fun p => token_text input (Property_key p))).
  - intros l token l' Hok Hsrc Hlex. pose proof (lex_text l Hok) as H.
    unfold wp in H. rewrite Hlex, Hsrc in H. tauto.
  - intros token node [Hlexed (Hne & He & Hle & Hs)] Hlit.
    apply lexed_kind in Hlexed. unfold literal in Hlit.
    destruct (type token); try discriminate; injection Hlit as <-;
      (constructor; [|constructor]); cbn [node_text]; auto.
    cbn [lexeme_of_kind] in Hlexed. rewrite Hlexed in He, Hs.
    simpl in He. split; [reflexivity|]. now rewrite <- He.
  - intros elements s e Hall [_ Hs] Hsv [_ He] Hev. cbn [nodes].
    constructor.
    + destruct (token_text_one _ _ _ Hs Hsv) as [_ H1].
      destruct (token_text_one _ _ _ He Hev) as [H2 H3].
      destruct He as (_ & _ & Hle & _). cbn [node_text].
      rewrite H2. replace (start e + 1 - 1) with (start e) by lia.
      repeat split; auto; lia.
    + clear -Hall. induction Hall; simpl; [constructor|].
      apply Forall_app. split; auto.
  - intros properties s e Hall [_ Hs] Hsv [_ He] Hev. cbn [nodes].
    constructor; [|constructor].
    destruct (token_text_one _ _ _ Hs Hsv) as [_ H1].
    destruct (token_text_one _ _ _ He Hev) as [H2 H3].
    destruct He as (_ & _ & Hle & _). cbn [node_text].
    rewrite H2. replace (start e + 1 - 1) with (start e) by lia.
    repeat split; auto; lia.
  - intros key value [_ Hkey] _ _. exact Hkey.
Qed.

(** ** Lexing ahead *)

Lemma with_stash_eta l : with_stash (stash l) l = l.
Proof. now destruct l. Qed.

Lemma lex_with_stash s l :
  lex (with_stash s l)
  = match lex l with
    | Normal token l' => Normal token (with_stash s l')
    | Throw e => Throw e
    | OutOfFuel => OutOfFuel
    end.
Proof.
  unfold lex. rewrite !lex_grammar_spec.
  change (input (skipWhitespace (with_stash s l)))
    with (input (skipWhitespace l)).
  now destruct (grammar_match grammar (input (skipWhitespace l)))
    as [[ty m]|].
Qed.

Lemma pending_with_stash l tokens :
  pending l tokens -> forall s, pending (with_stash s l) tokens.
Proof.
  induction 1 as [l He|l token l' tokens He Hlex _ IH]; intros s.
  - now apply pending_end.
  - apply (pending_lex _ token (with_stash s l')); auto.
    rewrite lex_with_stash. now rewrite Hlex.
Qed.

Lemma pending_ended l tokens :
  pending l tokens -> hasEnded l = true -> tokens = [].
Proof. destruct 1; [reflexivity|congruence]. Qed.

Lemma pending_inv l tokens :
  pending l tokens -> hasEnded l = false ->
  exists token l' tokens',
    tokens = token :: tokens' /\ lex l = Normal token l'
    /\ pending l' tokens'.
Proof. destruct 1; [congruence|eauto 6]. Qed.

Lemma ahead_ret {A} (a : A) : ahead_safe (ret a).
Proof. intros l l' H. split; [reflexivity|exact H]. Qed.

Lemma ahead_throw {A} e : ahead_safe (@throw A e).
Proof. intros l l' H. reflexivity. Qed.

Lemma ahead_bind {A B} (m : M A) (k : A -> M B) :
  ahead_safe m -> (forall a, ahead_safe (k a)) -> ahead_safe (bind m k).
Proof.
  intros Hm Hk l l' H. specialize (Hm l l' H). unfold bind, agree in *.
  destruct (m l) as [a l1| |], (m l') as [a' l1'| |]; try easy.
  destruct Hm as [<- Hm]. now apply Hk.
Qed.

Lemma ahead_peek : ahead_safe peek.
Proof.
  intros l l' (Hsrc & He & rest & Hp & Hs). rewrite peek_unfold.
  unfold bind. cbn [lookahead_loop]. rewrite He.
  destruct (hasEnded l) eqn:El.
  - apply pending_ended in Hp; [|exact El]. subst rest.
    rewrite app_nil_r in Hs. cbn. rewrite Hs. split; [reflexivity|].
    split; [exact Hsrc|]. split; [exact He|]. exists [].
    split; [now apply pending_end|]. now rewrite app_nil_r.
  - destruct (pending_inv _ _ Hp El) as (t & l1 & ts & -> & Hlex & Hp1).
    pose proof (lex_Normal _ _ _ Hlex) as (_ & Hst & Hsrc1).
    rewrite Hlex. cbn. split.
    + rewrite Hs, Hst. destruct (stash l); reflexivity.
    + split; [cbn; congruence|]. split; [exact He|]. exists ts. split.
      * exact (pending_with_stash _ _ Hp1 (stash l1 ++ [t])).
      * cbn. rewrite Hs, Hst, <- app_assoc. reflexivity.
Qed.

Lemma ahead_next : ahead_safe next.
Proof.
  intros l l' (Hsrc & He & rest & Hp & Hs). unfold next. rewrite Hs.
  destruct (stash l) as [|t ts] eqn:Es.
  - destruct (hasEnded l) eqn:El.
    + apply pending_ended in Hp; [|exact El]. subst rest. cbn. rewrite He.
      split; [reflexivity|]. split; [exact Hsrc|]. split; [exact He|].
      exists []. split; [now apply pending_end|]. now rewrite Hs, Es.
    + destruct (pending_inv _ _ Hp El) as (t & l1 & ts & -> & Hlex & Hp1).
      unfold bind. rewrite Hlex. cbn. split; [reflexivity|].
      pose proof (lex_Normal _ _ _ Hlex) as (_ & Hst & Hsrc1).
      split; [cbn; congruence|]. split; [exact He|]. exists ts.
      split; [exact Hp1|]. cbn. rewrite Hs, Hst, Es. reflexivity.
  - cbn. split; [reflexivity|]. split; [exact Hsrc|]. split; [exact He|].
    exists rest. split.
    + change (shift l) with (with_stash (tl (stash l)) l). rewrite Es.
      exact (pending_with_stash _ _ Hp ts).
    + cbn. rewrite Hs, Es. reflexivity.
Qed.

Lemma ahead_is_ v : ahead_safe (is_ v).
Proof.
  unfold is_. apply ahead_bind; [exact ahead_peek|].
  intros [t|]; [apply ahead_ret|apply ahead_throw].
Qed.

Lemma ahead_ensure arguments : ahead_safe (ensure arguments).
Proof.
  unfold ensure. apply ahead_bind; [exact ahead_next|].
  intros r. destruct (result r) as [t|]; [|apply ahead_throw].
  destruct (negb _); [apply ahead_throw|apply ahead_ret].
Qed.

Lemma ahead_ensureType arguments : ahead_safe (ensureType arguments).
Proof.
  unfold ensureType. apply ahead_bind; [exact ahead_next|].
  intros r. destruct (result r) as [t|]; [|apply ahead_throw].
  destruct (negb _); [apply ahead_throw|apply ahead_ret].
Qed.

Lemma ahead_parseObjectLiteral_while pv fuel :
  ahead_safe pv -> forall properties,
  ahead_safe (parseObjectLiteral_while pv fuel properties).
Proof.
  intros Hpv. induction fuel as [|fuel IH]; intros properties.
  { intros l l' _. exact I. }
  cbn [parseObjectLiteral_while].
  apply ahead_bind; [apply ahead_is_|]. intros closing.
  destruct (negb closing); [|apply ahead_ret].
  apply ahead_bind; [apply ahead_ensureType|]. intros key.
  apply ahead_bind; [apply ahead_ensure|]. intros _.
  apply ahead_bind; [exact Hpv|]. intros value.
  apply ahead_bind; [apply ahead_is_|]. intros closing'.
  apply ahead_bind; [|intros _; apply IH].
  destruct (negb closing'); [|apply ahead_ret].
  apply ahead_bind; [apply ahead_ensure|]. intros _. apply ahead_ret.
Qed.

Lemma ahead_parseArrayLiteral_while pv fuel :
  ahead_safe pv -> forall elements,
  ahead_safe (parseArrayLiteral_while pv fuel elements).
Proof.
  intros Hpv. induction fuel as [|fuel IH]; intros elements.
  { intros l l' _. exact I. }
  cbn [parseArrayLiteral_while].
  apply ahead_bind; [apply ahead_is_|]. intros closing.
  destruct (negb closing); [|apply ahead_ret].
  apply ahead_bind; [exact Hpv|]. intros element.
  apply ahead_bind; [apply ahead_is_|]. intros closing'.
  apply ahead_bind; [|intros _; apply IH].
  destruct (negb closing'); [|apply ahead_ret].
  apply ahead_bind; [apply ahead_ensure|]. intros _. apply ahead_ret.
Qed.

Lemma ahead_parseValue fuel : ahead_safe (parseValue fuel).
Proof.
  induction fuel as [|fuel IH]; [intros l l' _; exact I|].
  cbn [parseValue]. apply ahead_bind; [exact ahead_peek|].
  intros [token|]; [|apply ahead_throw].
  apply ahead_bind; [apply ahead_is_|]. intros object. destruct object.
  { unfold parseObjectLiteral.
    apply ahead_bind; [apply ahead_ensure|]. intros startToken.
    apply ahead_bind; [now apply ahead_parseObjectLiteral_while|].
    intros properties.
    apply ahead_bind; [apply ahead_ensure|]. intros endToken.
    apply ahead_ret. }
  apply ahead_bind; [apply ahead_is_|]. intros array. destruct array.
  { unfold parseArrayLiteral.
    apply ahead_bind; [apply ahead_ensure|]. intros startToken.
    apply ahead_bind; [now apply ahead_parseArrayLiteral_while|].
    intros elements.
    apply ahead_bind; [apply ahead_ensure|]. intros endToken.
    apply ahead_ret. }
  destruct (literal token); [|apply ahead_throw].
  apply ahead_bind; [exact ahead_next|]. intros _. apply ahead_ret.
Qed.

Lemma ahead_Parser_parse fuel : ahead_safe (Parser_parse fuel).
Proof.
  unfold Parser_parse. apply ahead_bind; [apply ahead_parseValue|].
  intros node. apply ahead_ret.
Qed.

(** ** Lexer.all *)

Lemma Lexer_all_loop_pending fuel : forall tokens l out l',
  stash l = [] ->
  Lexer_all_loop fuel tokens l = Normal out l' ->
  exists rest,
    out = tokens ++ map Some rest /\ pending l rest
    /\ stash l' = [] /\ hasEnded l' = true /\ source l' = source l.
Proof.
  induction fuel as [|fuel IH]; intros tokens l out l' Hs H; [discriminate|].
  cbn [Lexer_all_loop] in H. unfold bind, next in H. rewrite Hs in H.
  destruct (hasEnded l) eqn:He.
  - cbn in H. injection H as <- <-. exists []. cbn. rewrite app_nil_r.
    repeat split; auto. now apply pending_end.
  - unfold bind, ret in H.
    destruct (lex l) as [token l1| |] eqn:Hlex; try discriminate.
    cbn in H. pose proof (lex_Normal _ _ _ Hlex) as (_ & Hst & Hsrc).
    apply IH in H; [|congruence].
    destruct H as (rest & -> & Hp & Hs' & He' & Hsrc').
    exists (token :: rest). cbn. rewrite <- app_assoc.
    repeat split; auto; [|congruence].
    now apply (pending_lex _ token l1).
Qed.

Lemma pending_Lexer_all_loop l rest :
  pending l rest -> stash l = [] ->
  forall fuel tokens,
    length rest < fuel ->
    exists l',
      Lexer_all_loop fuel tokens l = Normal (tokens ++ map Some rest) l'.
Proof.
  induction 1 as [l He|l token l1 rest He Hlex _ IH]; intros Hs fuel tokens Hf.
  - destruct fuel as [|fuel]; [simpl in Hf; lia|]. cbn [Lexer_all_loop].
    unfold bind, next. rewrite Hs, He. cbn. rewrite app_nil_r. eauto.
  - destruct fuel as [|fuel]; [simpl in Hf; lia|]. cbn [Lexer_all_loop].
    unfold bind, next. rewrite Hs, He. unfold bind, ret. rewrite Hlex. cbn.
    pose proof (lex_Normal _ _ _ Hlex) as (_ & Hst & _).
    destruct (IH (eq_trans Hst Hs) fuel (tokens ++ [Some token]))
      as (l' & IH'); [simpl in Hf; lia|].
    rewrite IH'. rewrite <- app_assoc. eauto.
Qed.


Lemma blank_join s a b c : blank s a b -> blank s b c -> blank s a c.
Proof.
  intros H1 H2 j Hj. destruct (Nat.lt_ge_cases j b); [apply H1|apply H2]; lia.
Qed.

Lemma tokens_cover_from s tokens a b :
  a <= b -> blank s a b -> tokens_cover s b tokens -> tokens_cover s a tokens.
Proof.
  intros Hle Hb H. destruct tokens as [|t ts]; simpl in *.
  - eapply blank_join; eauto.
  - destruct H as (H1 & H2 & H3). split; [lia|].
    split; [eapply blank_join; eauto|exact H3].
Qed.

(** The tokens still to be lexed cover what is left of the source. *)
Lemma pending_cover l tokens :
  pending l tokens -> Lexer_ok l ->
  tokens_cover (source l) (index l) tokens.
Proof.
  induction 1 as [l He|l token l1 rest He Hlex _ IH]; intros Hok.
  - simpl. intros j Hj. unfold hasEnded in He. apply Nat.leb_le in He. lia.
  - pose proof (lex_text l Hok) as H. unfold wp in H. rewrite Hlex in H.
    destruct H as (H1 & H2 & Hok1 & Hsrc & _ & H3 & H4 & H5 & H6 & _).
    simpl. split; [exact H3|]. split; [exact H4|]. split; [exact H1|].
    split; [exact H2|].
    apply (tokens_cover_from _ _ _ (index l1)); auto.
    rewrite <- Hsrc. now apply IH.
Qed.

(** ** The kind of a token is a function of its lexeme *)

Lemma lexed_Matches token :
  lexed token ->
  exists re, In (type token, re) grammar /\ Matches re (value token).
Proof.
  intros [(s & H) _]. apply grammar_match_In in H.
  destruct H as (re & Hin & H). apply String_match_Some in H.
  destruct H as (rest & _ & _ & Hm). eauto.
Qed.

(** Two entries of the grammar that a lexeme can both begin with are the
    same entry, or the string and the punctuator entry. *)
Lemma grammar_starts_disjoint ty1 re1 ty2 re2 c :
  In (ty1, re1) grammar -> In (ty2, re2) grammar ->
  starts re1 c = true -> starts re2 c = true ->
  ty1 = ty2
  \/ (ty1 = TOKEN_STRING /\ ty2 = TOKEN_PUNCTUATOR)
  \/ (ty1 = TOKEN_PUNCTUATOR /\ ty2 = TOKEN_STRING).
Proof.
  intros [E1|[E1|[E1|[E1|[E1|[]]]]]] [E2|[E2|[E2|[E2|[E2|[]]]]]];
    injection E1 as <- <-; injection E2 as <- <-; auto;
    unfold_grammar; char_cases.
Qed.

Lemma lexed_type_of_value t1 t2 :
  lexed t1 -> lexed t2 -> value t1 = value t2 -> type t1 = type t2.
Proof.
  intros H1 H2 Hv.
  destruct (lexed_Matches _ H1) as (re1 & Hin1 & Hm1).
  destruct (lexed_Matches _ H2) as (re2 & Hin2 & Hm2).
  apply lexed_kind in H1, H2. rewrite <- Hv in Hm2, H2.
  pose proof (Matches_head _ _ Hm1) as Hh1.
  pose proof (Matches_head _ _ Hm2) as Hh2.
  destruct (value t1) as [|c m] eqn:Em.
  { destruct (grammar_starts _ _ 0%N Hin1) as [Hn _]. congruence. }
  destruct (grammar_starts_disjoint _ _ _ _ c Hin1 Hin2 Hh1 Hh2)
    as [E|[[E1 E2]|[E1 E2]]]; [exact E| |];
    rewrite E1, E2 in *; cbn [lexeme_of_kind] in H1, H2.
  - destruct H1 as (body & _ & H1), H2 as (c' & H2 & _).
    rewrite H1 in H2. injection H2 as _ H2. now destruct body.
  - destruct H2 as (body & _ & H2), H1 as (c' & H1 & _).
    rewrite H2 in H1. injection H1 as _ H1. now destruct body.
Qed.

(** ** Input of whitespace only *)

Lemma skipWhitespace_loop_blank source i :
  blank source i (length source) -> i <= length source ->
  skipWhitespace_loop (length source) source i = length source.
Proof.
  intros Hb Hi.
  destruct (skipWhitespace_loop_spec (length source) source i)
    as (H1 & H2 & _ & H4); [lia|].
  set (r := skipWhitespace_loop (length source) source i) in *.
  destruct (Nat.lt_ge_cases r (length source)) as [Hlt|Hge]; [|lia].
  destruct (Hb r) as (c & Hc & Hle); [lia|]. apply H4 in Hc. lia.
Qed.

Lemma lex_blank l :
  Lexer_ok l -> blank (source l) (index l) (length (source l)) ->
  lex l = Throw (Error (js "Unexpected token 'undefined'")).
Proof.
  intros [Hin Hle] Hb. unfold lex. rewrite lex_grammar_spec.
  assert (index (skipWhitespace l) = length (source l)) as Hi.
  { rewrite index_skipWhitespace. now apply skipWhitespace_loop_blank. }
  assert (input (skipWhitespace l) = []) as Hinp.
  { unfold skipWhitespace, forward. cbn [input]. 
    unfold skipWhitespace, forward in Hi. cbn [index] in Hi.
    unfold substr. rewrite Nat.max_0_l, Hi. apply skipn_all. }
  rewrite Hinp, Hi. cbn [grammar_match]. unfold char_at_to_string.
  replace (nth_error (source (skipWhitespace l)) (length (source l)))
    with (@None char); [reflexivity|].
  symmetry. apply nth_error_None. reflexivity.
Qed.

Lemma blank_all input :
  Forall (fun c => (c <= 32)%N) input -> blank input 0 (length input).
Proof.
  intros H j [_ Hj]. unfold charCodeAt.
  destruct (nth_error input j) as [c|] eqn:E.
  - exists c. split; [exact E|]. rewrite Forall_forall in H.
    apply H. eapply nth_error_In; eauto.
  - apply nth_error_None in E. lia.
Qed.

Lemma hasEnded_new input : input <> [] -> hasEnded (new_Lexer input) = false.
Proof.
  intros H. unfold hasEnded. cbn. destruct input; [easy|reflexivity].
Qed.

Lemma parse_blank input :
  input <> [] -> Forall (fun c => (c <= 32)%N) input ->
  parse input = Throw (Error (js "Unexpected token 'undefined'")).
Proof.
  intros Hne Hall. unfold parse, Parser_parse. cbn [parseValue].
  unfold bind at 1 2. rewrite peek_unfold. unfold bind at 1.
  cbn [lookahead_loop]. rewrite (hasEnded_new _ Hne).
  rewrite lex_blank; [reflexivity|apply Lexer_ok_new|].
  now apply blank_all.
Qed.

Lemma Lexer_all_blank input :
  input <> [] -> Forall (fun c => (c <= 32)%N) input ->
  Lexer_all input = Throw (Error (js "Unexpected token 'undefined'")).
Proof.
  intros Hne Hall. unfold Lexer_all, iterator. cbn [Lexer_all_loop].
  unfold bind at 1. unfold next. cbn [stash new_Lexer].
  rewrite (hasEnded_new _ Hne). unfold bind.
  rewrite lex_blank; [reflexivity|apply Lexer_ok_new|].
  now apply blank_all.
Qed.

(** ** lookahead *)


(** [peek] returns null only when nothing is stashed and no input is
    left. *)
Lemma peek_None l l' :
  peek l = Normal None l' ->
  l' = l /\ stash l = [] /\ hasEnded l = true.
Proof.
  rewrite peek_unfold. unfold bind. cbn [lookahead_loop].
  destruct (hasEnded l) eqn:He.
  - intros [= H <-]. destruct (stash l); [auto|discriminate].
  - destruct (lex l) as [token l1| |]; try discriminate.
    intros [= H _]. cbn [push stash] in H.
    destruct (stash l1); discriminate.
Qed.

(** ** Skipping whitespace twice *)

Lemma skipWhitespace_idempotent l :
  skipWhitespace (skipWhitespace l) = skipWhitespace l.
Proof.
  destruct (skipWhitespace_loop_spec (length (source l)) (source l) (index l))
    as (H1 & H2 & _ & H4); [lia|].
  set (l1 := skipWhitespace l).
  assert (input l1 = substr (source l1) (index l1)) as Hin.
  { unfold l1, skipWhitespace, forward. cbn [input source index].
    now rewrite Nat.max_0_l. }
  assert (index l1 = skipWhitespace_loop (length (source l)) (source l)
                       (index l)) as Hi by apply index_skipWhitespace.
  destruct (charCodeAt (source l1) (index l1)) as [c|] eqn:Ec.
  - apply (skipWhitespace_at_token l1 c Hin Ec). apply H4.
    now rewrite <- Hi.
  - apply skipWhitespace_at_end; [exact Hin|].
    now apply nth_error_None in Ec.
Qed.

(** ** What the parser throws *)

Lemma raises_ret {A} (a : A) E : raises (ret a) E.
Proof. intros l. exact I. Qed.

Lemma raises_bind {A B} (m : M A) (k : A -> M B) E :
  raises m E -> (forall a, raises (k a) E) -> raises (bind m k) E.
Proof.
  intros Hm Hk l. specialize (Hm l). unfold bind.
  destruct (m l) as [a l'| |]; auto. apply Hk.
Qed.

Lemma raises_lex : raises lex lexical_error.
Proof.
  intros l. unfold lex. rewrite lex_grammar_spec.
  destruct (grammar_match _ _) as [[ty m]|]; [exact I|].
  eexists. split; [reflexivity|]. unfold char_at_to_string.
  destruct (nth_error _ _); eauto.
Qed.

Lemma raises_lookahead_loop times : raises (lookahead_loop times) lexical_error.
Proof.
  induction times as [|times IH]; intros l; cbn [lookahead_loop];
    [exact I|].
  destruct (hasEnded l); [exact I|]. pose proof (raises_lex l) as H.
  destruct (lex l) as [token l'| |]; auto. apply IH.
Qed.

Lemma raises_peek : raises peek lexical_error.
Proof.
  rewrite peek_unfold. apply raises_bind; [apply raises_lookahead_loop|].
  intros _ l. exact I.
Qed.

Lemma raises_next : raises next lexical_error.
Proof.
  intros l. unfold next. destruct (stash l); [|exact I].
  destruct (hasEnded l); [exact I|].
  apply (raises_bind lex _ lexical_error raises_lex).
  intros token. apply raises_ret.
Qed.

Lemma runs_ret {A} (P : Lexer -> Prop) (a : A) (Q : A -> Lexer -> Prop) E :
  (forall l, P l -> Q a l) -> runs P (ret a) Q E.
Proof. intros H l HP. now apply H. Qed.

Lemma runs_throw {A} (P : Lexer -> Prop) e (Q : A -> Lexer -> Prop)
  (E : exn -> Prop) :
  (forall l, P l -> E e) -> runs P (throw e) Q E.
Proof. intros H l HP. exact (H l HP). Qed.

Lemma runs_bind {A B} P (m : M A) Q (k : A -> M B) R E :
  runs P m Q E -> (forall a, runs (Q a) (k a) R E) ->
  runs P (bind m k) R E.
Proof.
  intros Hm Hk l HP. specialize (Hm l HP). unfold bind.
  destruct (m l) as [a l'| |]; auto. now apply Hk.
Qed.

Lemma runs_weaken {A} (P P' : Lexer -> Prop) (m : M A)
  (Q Q' : A -> Lexer -> Prop) (E E' : exn -> Prop) :
  runs P m Q E ->
  (forall l, P' l -> P l) -> (forall a l, Q a l -> Q' a l) ->
  (forall e, E e -> E' e) ->
  runs P' m Q' E'.
Proof.
  intros H HP HQ HE l Hl. specialize (H l (HP l Hl)).
  destruct (m l); auto.
Qed.

Lemma runs_frame {A} (P : Lexer -> Prop) (m : M A)
  (Q : A -> Lexer -> Prop) (E : exn -> Prop) (F : Prop) :
  runs P m Q E ->
  runs (fun l => P l /\ F) m (fun a l' => Q a l' /\ F) E.
Proof.
  intros H l [HP HF]. specialize (H l HP). destruct (m l); auto.
Qed.

Lemma lex_genuine l token l' : lex l = Normal token l' -> lexed token.
Proof. intros E. now apply lex_Normal in E. Qed.

Lemma peek_runs :
  runs genuine peek
    (fun x l' =>
       match x with
       | Some token => holds token l'
       | None => genuine l'
       end)
    lexical_error.
Proof.
  intros l HI.
  pose proof (peek_rule lexed lex_genuine l HI) as Hw.
  pose proof (raises_peek l) as Hr. unfold wp in Hw.
  destruct (peek l) as [x l'| |] eqn:E; auto.
  destruct Hw as [HI' _]. destruct x as [token|]; [|exact HI'].
  split; [exact HI'|]. rewrite peek_unfold in E. unfold bind in E.
  destruct (lookahead_loop 1 l) as [[] l1| |]; try discriminate.
  injection E as E <-. destruct (stash l1) as [|t ts]; [discriminate|].
  injection E as ->. eauto.
Qed.

Lemma is_runs v token :
  runs (holds token) (is_ v)
    (fun b l' => holds token l' /\ b = jsstring_eqb (value token) v)
    parse_error.
Proof.
  intros l [HI (rest & Hs)].
  pose proof (is_rule lexed lex_genuine v l HI) as Hw.
  pose proof (is_stash_head v l _ _ Hs) as Hh. unfold wp in Hw.
  destruct (is_ v l) as [b l'| |] eqn:E; auto.
  - destruct Hh as [-> Hh]. now repeat split.
  - unfold is_, bind in E. pose proof (raises_peek l) as Hr.
    pose proof (peek_stash_head l _ _ Hs) as Hp.
    destruct (peek l) as [x l'| |]; try discriminate.
    + destruct Hp as [-> _]. discriminate.
    + injection E as <-. now left.
Qed.

Lemma is_genuine v :
  runs genuine (is_ v) (fun _ l' => genuine l') parse_error.
Proof.
  unfold is_. eapply runs_bind.
  - eapply runs_weaken; [apply peek_runs|auto|intros a l H; exact H|].
    intros e H. now left.
  - intros [token|].
    + apply runs_ret. now intros l [H _].
    + apply runs_throw. intros _ _. unfold parse_error. tauto.
Qed.

Lemma next_runs :
  runs genuine next
    (fun r l' => genuine l' /\ forall t, result r = Some t -> lexed t)
    lexical_error.
Proof.
  intros l HI. pose proof (next_rule lexed lex_genuine l HI) as Hw.
  pose proof (raises_next l) as Hr. unfold wp in Hw.
  destruct (next l); auto.
Qed.

Lemma ensure_runs arguments :
  runs genuine (ensure arguments) (fun _ l' => genuine l') parse_error.
Proof.
  unfold ensure. eapply runs_bind.
  - eapply runs_weaken; [apply next_runs|auto|intros a l H; exact H|].
    intros e H. now left.
  - intros r. cbv beta. destruct (result r) as [t|].
    + destruct (negb _).
      * apply runs_throw. intros l [_ Ht]. do 3 right. left.
        exists t. split; [now apply Ht|reflexivity].
      * apply runs_ret. now intros l [H _].
    + apply runs_throw. intros _ _. unfold parse_error. tauto.
Qed.

Lemma ensureType_runs arguments :
  runs genuine (ensureType arguments) (fun _ l' => genuine l')
    parse_error.
Proof.
  unfold ensureType. eapply runs_bind.
  - eapply runs_weaken; [apply next_runs|auto|intros a l H; exact H|].
    intros e H. now left.
  - intros r. cbv beta. destruct (result r) as [t|].
    + destruct (negb _).
      * apply runs_throw. intros _ _. unfold parse_error. tauto.
      * apply runs_ret. now intros l [H _].
    + apply runs_throw. intros _ _. unfold parse_error. tauto.
Qed.

Lemma separator_runs (closing : bool) :
  runs genuine
    (if negb closing then ensure [js ","] ;;; ret tt else ret tt)
    (fun _ l' => genuine l') parse_error.
Proof.
  destruct (negb closing); [|now apply runs_ret].
  eapply runs_bind; [apply ensure_runs|]. intros ?. now apply runs_ret.
Qed.

Section Thrown.

Variable pv : M Node.
Hypothesis pv_runs : runs genuine pv (fun _ l' => genuine l') parse_error.

Lemma parseObjectLiteral_while_runs fuel : forall properties,
  runs genuine (parseObjectLiteral_while pv fuel properties)
    (fun _ l' => genuine l') parse_error.
Proof.
  induction fuel as [|fuel IH]; intros properties.
  { intros l _. exact I. }
  cbn [parseObjectLiteral_while].
  eapply runs_bind; [apply is_genuine|]. intros closing. cbv beta.
  destruct (negb closing); [|now apply runs_ret].
  eapply runs_bind; [apply ensureType_runs|]. intros key. cbv beta.
  eapply runs_bind; [apply ensure_runs|]. intros ?. cbv beta.
  eapply runs_bind; [exact pv_runs|]. intros value. cbv beta.
  eapply runs_bind; [apply is_genuine|]. intros closing'. cbv beta.
  eapply runs_bind; [apply separator_runs|]. intros ?. apply IH.
Qed.

Lemma parseArrayLiteral_while_runs fuel : forall elements,
  runs genuine (parseArrayLiteral_while pv fuel elements)
    (fun _ l' => genuine l') parse_error.
Proof.
  induction fuel as [|fuel IH]; intros elements.
  { intros l _. exact I. }
  cbn [parseArrayLiteral_while].
  eapply runs_bind; [apply is_genuine|]. intros closing. cbv beta.
  destruct (negb closing); [|now apply runs_ret].
  eapply runs_bind; [exact pv_runs|]. intros element. cbv beta.
  eapply runs_bind; [apply is_genuine|]. intros closing'. cbv beta.
  eapply runs_bind; [apply separator_runs|]. intros ?. apply IH.
Qed.

End Thrown.

(** A punctuator [lex] built that is neither [{] nor [[]. *)
Lemma punctuator_no_value token :
  lexed token -> literal token = None ->
  jsstring_eqb (value token) (js "{") = false ->
  jsstring_eqb (value token) (js "[") = false ->
  exists c,
    In c [DQUOTE; code ":"; code ","; code "]"; code "}"]
    /\ value token = [c].
Proof.
  intros Hl Hlit Ho Ha. apply lexed_kind in Hl.
  assert (type token = TOKEN_PUNCTUATOR) as Ety.
  { unfold literal in Hlit. now destruct (type token). }
  rewrite Ety in Hl. destruct Hl as (c & Ev & Hin).
  apply jsstring_eqb_false in Ho, Ha. rewrite Ev in Ho, Ha.
  exists c. split; [|exact Ev].
  destruct Hin as [<-|[<-|[<-|[<-|[<-|[<-|[<-|[]]]]]]]];
    first [exfalso; apply Ho; reflexivity
          |exfalso; apply Ha; reflexivity
          |simpl; tauto].
Qed.

Lemma parseValue_runs fuel :
  runs genuine (parseValue fuel) (fun _ l' => genuine l') parse_error.
Proof.
  induction fuel as [|fuel IH]; [intros l _; exact I|].
  cbn [parseValue]. eapply runs_bind.
  { eapply runs_weaken; [apply peek_runs|auto|intros a l H; exact H|].
    intros e H. now left. }
  intros [token|]; cbv beta;
    [|apply runs_throw; intros _ _; unfold parse_error; tauto].
  eapply runs_bind; [apply is_runs|]. intros object. cbv beta.
  destruct object.
  { unfold parseObjectLiteral.
    eapply runs_bind.
    { eapply runs_weaken; [apply ensure_runs| |intros a l H; exact H|auto].
      now intros l [[H _] _]. }
    intros startToken. cbv beta.
    eapply runs_bind; [now apply parseObjectLiteral_while_runs|].
    intros properties. cbv beta.
    eapply runs_bind; [apply ensure_runs|]. intros endToken.
    now apply runs_ret. }
  eapply runs_bind; [apply runs_frame, (is_runs (js "[") token)|].
  intros array. cbv beta. destruct array.
  { unfold parseArrayLiteral.
    eapply runs_bind.
    { eapply runs_weaken; [apply ensure_runs| |intros a l H; exact H|auto].
      now intros l [[[H _] _] _]. }
    intros startToken. cbv beta.
    eapply runs_bind; [now apply parseArrayLiteral_while_runs|].
    intros elements. cbv beta.
    eapply runs_bind; [apply ensure_runs|]. intros endToken.
    now apply runs_ret. }
  destruct (literal token) eqn:El.
  - eapply runs_bind; [|intros ?; apply runs_ret; intros l H; exact H].
    eapply runs_weaken; [apply next_runs| | |].
    + now intros l [[[H _] _] _].
    + now intros a l [H _].
    + intros e H. now left.
  - apply runs_throw. intros l [[[HI (rest & Hs)] Ha] Ho].
    unfold genuine in HI. rewrite Hs in HI.
    apply Forall_inv in HI. symmetry in Ha, Ho.
    destruct (punctuator_no_value token HI El Ho Ha) as (c & Hin & Ev).
    do 2 right. left. exists c. split; [exact Hin|]. now rewrite Ev.
Qed.

(** ** Tokens after the value *)

Lemma peek_hasEnded l :
  hasEnded l = true -> peek l = Normal (hd_error (stash l)) l.
Proof.
  intros He. rewrite peek_unfold. unfold bind. cbn [lookahead_loop].
  rewrite He. now destruct (stash l).
Qed.

Lemma blind_ret {A} extra (a : A) : blind extra (ret a).
Proof. intros l l2 a' l' H [= <- <-]. eauto. Qed.

Lemma blind_throw {A} extra e : blind extra (@throw A e).
Proof. intros l l2 a l' _ H. discriminate H. Qed.

Lemma blind_bind {A B} extra (m : M A) (k : A -> M B) :
  blind extra m -> (forall a, blind extra (k a)) -> blind extra (bind m k).
Proof.
  intros Hm Hk l l2 b l' H. unfold bind.
  destruct (m l) as [a l1| |] eqn:E; try discriminate.
  destruct (Hm _ _ _ _ H E) as (l2' & -> & H'). now apply Hk.
Qed.

Lemma blind_is_ extra v : blind extra (is_ v).
Proof.
  intros l l2 b l' (He & He2 & Hs). unfold is_, bind.
  rewrite (peek_hasEnded _ He), (peek_hasEnded _ He2), Hs.
  destruct (stash l) as [|t ts] eqn:Es; [discriminate|]. cbn.
  intros [= <- <-]. eexists. split; [reflexivity|].
  split; [exact He|]. split; [exact He2|]. now rewrite Hs, Es.
Qed.

(** A [next] that yields a token yields the same with more tokens
    behind. *)
Lemma next_extended extra l l2 r l' :
  extended extra l l2 -> next l = Normal r l' -> result r <> None ->
  exists l2', next l2 = Normal r l2' /\ extended extra l' l2'.
Proof.
  intros (He & He2 & Hs). unfold next. rewrite Hs, He.
  destruct (stash l) as [|t ts] eqn:Es.
  - intros [= <- <-]. now cbn.
  - cbn. intros [= <- <-] _. eexists. split; [reflexivity|].
    split; [exact He|]. split; [exact He2|]. cbn. now rewrite Hs, Es.
Qed.

Lemma blind_ensure extra arguments : blind extra (ensure arguments).
Proof.
  intros l l2 t l' H. unfold ensure, bind.
  destruct (next l) as [r l1| |] eqn:E; try discriminate.
  destruct (result r) as [t'|] eqn:Er; [|discriminate].
  destruct (next_extended _ _ _ _ _ H E) as (l2' & -> & H');
    [congruence|].
  rewrite Er. destruct (negb _); [discriminate|].
  intros [= <- <-]. eauto.
Qed.

Lemma blind_ensureType extra arguments : blind extra (ensureType arguments).
Proof.
  intros l l2 t l' H. unfold ensureType, bind.
  destruct (next l) as [r l1| |] eqn:E; try discriminate.
  destruct (result r) as [t'|] eqn:Er; [|discriminate].
  destruct (next_extended _ _ _ _ _ H E) as (l2' & -> & H');
    [congruence|].
  rewrite Er. destruct (negb _); [discriminate|].
  intros [= <- <-]. eauto.
Qed.

Lemma blind_separator extra (closing : bool) :
  blind extra (if negb closing then ensure [js ","] ;;; ret tt else ret tt).
Proof.
  destruct (negb closing); [|apply blind_ret].
  apply blind_bind; [apply blind_ensure|]. intros _. apply blind_ret.
Qed.

Lemma blind_parseObjectLiteral_while extra pv fuel :
  blind extra pv -> forall properties,
  blind extra (parseObjectLiteral_while pv fuel properties).
Proof.
  intros Hpv. induction fuel as [|fuel IH]; intros properties.
  { intros l l2 a l' _ H. discriminate H. }
  cbn [parseObjectLiteral_while].
  apply blind_bind; [apply blind_is_|]. intros closing.
  destruct (negb closing); [|apply blind_ret].
  apply blind_bind; [apply blind_ensureType|]. intros key.
  apply blind_bind; [apply blind_ensure|]. intros _.
  apply blind_bind; [exact Hpv|]. intros value.
  apply blind_bind; [apply blind_is_|]. intros closing'.
  apply blind_bind; [apply blind_separator|]. intros _. apply IH.
Qed.

Lemma blind_parseArrayLiteral_while extra pv fuel :
  blind extra pv -> forall elements,
  blind extra (parseArrayLiteral_while pv fuel elements).
Proof.
  intros Hpv. induction fuel as [|fuel IH]; intros elements.
  { intros l l2 a l' _ H. discriminate H. }
  cbn [parseArrayLiteral_while].
  apply blind_bind; [apply blind_is_|]. intros closing.
  destruct (negb closing); [|apply blind_ret].
  apply blind_bind; [exact Hpv|]. intros element.
  apply blind_bind; [apply blind_is_|]. intros closing'.
  apply blind_bind; [apply blind_separator|]. intros _. apply IH.
Qed.

Lemma is_hasEnded v l token tokens :
  hasEnded l = true -> stash l = token :: tokens ->
  is_ v l = Normal (jsstring_eqb (value token) v) l.
Proof.
  intros He Hs. unfold is_, bind. now rewrite (peek_hasEnded _ He), Hs.
Qed.

Lemma blind_parseObjectLiteral extra pv fuel :
  blind extra pv -> blind extra (parseObjectLiteral pv fuel).
Proof.
  intros Hpv. unfold parseObjectLiteral.
  apply blind_bind; [apply blind_ensure|]. intros startToken.
  apply blind_bind; [now apply blind_parseObjectLiteral_while|].
  intros properties.
  apply blind_bind; [apply blind_ensure|]. intros endToken.
  apply blind_ret.
Qed.

Lemma blind_parseArrayLiteral extra pv fuel :
  blind extra pv -> blind extra (parseArrayLiteral pv fuel).
Proof.
  intros Hpv. unfold parseArrayLiteral.
  apply blind_bind; [apply blind_ensure|]. intros startToken.
  apply blind_bind; [now apply blind_parseArrayLiteral_while|].
  intros elements.
  apply blind_bind; [apply blind_ensure|]. intros endToken.
  apply blind_ret.
Qed.

Lemma blind_parseValue extra fuel : blind extra (parseValue fuel).
Proof.
  induction fuel as [|fuel IH].
  { intros l l2 a l' _ H. discriminate H. }
  intros l l2 node l' H Hp. pose proof H as (He & He2 & Hs).
  cbn [parseValue] in Hp |- *.
  unfold bind at 1 in Hp. unfold bind at 1.
  rewrite (peek_hasEnded _ He) in Hp. rewrite (peek_hasEnded _ He2).
  destruct (stash l) as [|token ts] eqn:Es; [discriminate|].
  cbn [app] in Hs. rewrite Hs. cbn [hd_error] in Hp |- *.
  unfold bind at 1 in Hp. unfold bind at 1.
  rewrite (is_hasEnded _ _ _ _ He Es) in Hp.
  rewrite (is_hasEnded _ _ _ _ He2 Hs).
  destruct (jsstring_eqb (value token) (js "{")).
  { exact (blind_parseObjectLiteral _ _ _ IH _ _ _ _ H Hp). }
  unfold bind at 1 in Hp. unfold bind at 1.
  rewrite (is_hasEnded _ _ _ _ He Es) in Hp.
  rewrite (is_hasEnded _ _ _ _ He2 Hs).
  destruct (jsstring_eqb (value token) (js "[")).
  { exact (blind_parseArrayLiteral _ _ _ IH _ _ _ _ H Hp). }
  destruct (literal token) as [leaf|]; [|discriminate].
  unfold bind, next in Hp |- *. rewrite Es in Hp. rewrite Hs.
  injection Hp as <- <-. eexists. split; [reflexivity|].
  split; [exact He|]. split; [exact He2|]. cbn. now rewrite Es, Hs.
Qed.

Lemma blind_Parser_parse extra fuel : blind extra (Parser_parse fuel).
Proof.
  unfold Parser_parse. apply blind_bind; [apply blind_parseValue|].
  intros node. apply blind_ret.
Qed.

(** ** More fuel *)

Lemma below_refl {A} (m : M A) : below m m.
Proof. intros l _. reflexivity. Qed.

Lemma below_bind {A B} (m m' : M A) (k k' : A -> M B) :
  below m m' -> (forall a, below (k a) (k' a)) ->
  below (bind m k) (bind m' k').
Proof.
  intros Hm Hk l H. unfold bind in *.
  destruct (m l) as [a l1| |] eqn:E; [| |easy].
  - rewrite Hm, E by congruence. now apply Hk.
  - rewrite Hm, E by congruence. reflexivity.
Qed.

Lemma below_parseObjectLiteral_while pv pv' fuel :
  below pv pv' -> forall properties,
  below (parseObjectLiteral_while pv fuel properties)
        (parseObjectLiteral_while pv' (S fuel) properties).
Proof.
  intros Hpv. induction fuel as [|fuel IH]; intros properties.
  { intros l H. now elim H. }
  cbn [parseObjectLiteral_while] in *.
  apply below_bind; [apply below_refl|]. intros closing.
  destruct (negb closing); [|apply below_refl].
  apply below_bind; [apply below_refl|]. intros key.
  apply below_bind; [apply below_refl|]. intros _.
  apply below_bind; [exact Hpv|]. intros value.
  apply below_bind; [apply below_refl|]. intros closing'.
  apply below_bind; [apply below_refl|]. intros _. apply IH.
Qed.

Lemma below_parseArrayLiteral_while pv pv' fuel :
  below pv pv' -> forall elements,
  below (parseArrayLiteral_while pv fuel elements)
        (parseArrayLiteral_while pv' (S fuel) elements).
Proof.
  intros Hpv. induction fuel as [|fuel IH]; intros elements.
  { intros l H. now elim H. }
  cbn [parseArrayLiteral_while] in *.
  apply below_bind; [apply below_refl|]. intros closing.
  destruct (negb closing); [|apply below_refl].
  apply below_bind; [exact Hpv|]. intros element.
  apply below_bind; [apply below_refl|]. intros closing'.
  apply below_bind; [apply below_refl|]. intros _. apply IH.
Qed.

Lemma below_parseValue fuel : below (parseValue fuel) (parseValue (S fuel)).
Proof.
  induction fuel as [|fuel IH]; [intros l H; now elim H|].
  cbn [parseValue] in *.
  apply below_bind; [apply below_refl|]. intros [token|];
    [|apply below_refl].
  apply below_bind; [apply below_refl|]. intros object. destruct object.
  { unfold parseObjectLiteral.
    apply below_bind; [apply below_refl|]. intros startToken.
    apply below_bind; [now apply below_parseObjectLiteral_while|].
    intros properties. apply below_refl. }
  apply below_bind; [apply below_refl|]. intros array. destruct array.
  { unfold parseArrayLiteral.
    apply below_bind; [apply below_refl|]. intros startToken.
    apply below_bind; [now apply below_parseArrayLiteral_while|].
    intros elements. apply below_refl. }
  apply below_refl.
Qed.

(** A run of [parseValue] that does not exhaust its fuel is the same with
    more fuel. *)
Lemma parseValue_more_fuel fuel fuel' l :
  fuel <= fuel' -> parseValue fuel l <> OutOfFuel ->
  parseValue fuel' l = parseValue fuel l.
Proof.
  induction 1 as [|fuel' _ IH]; intros H; [reflexivity|].
  rewrite <- (IH H). apply below_parseValue. now rewrite (IH H).
Qed.

Lemma Parser_parse_more_fuel fuel fuel' l :
  fuel <= fuel' -> Parser_parse fuel l <> OutOfFuel ->
  Parser_parse fuel' l = Parser_parse fuel l.
Proof.
  intros Hle H. unfold Parser_parse, bind in *.
  rewrite (parseValue_more_fuel fuel fuel' l Hle); [reflexivity|].
  intros E. now rewrite E in H.
Qed.

(** ** Leading zeros *)

Lemma first_S_NUMBER_zero d rest :
  spec_digit d = true ->
  first S_NUMBER (code "0" :: d :: rest) = Some (d :: rest).
Proof.
  intros Hd. unfold S_NUMBER. rewrite first_Alt_r.
  2:{ apply rm_Seq_nil. now apply rm_no_start. }
  apply (first_Seq _ _ _ (d :: rest)).
  - unfold S_INT. apply (first_Seq _ _ _ (code "0" :: d :: rest)).
    + apply first_Opt_none. now apply rm_no_start.
    + rewrite first_Alt_r; [now apply first_digit|].
      apply rm_Seq_nil. now apply rm_no_start.
  - apply (first_Seq _ _ _ (d :: rest)); apply first_Opt_none;
      (apply rm_no_start; [reflexivity|]); revert Hd; unfold spec_digit;
      unfold_grammar; char_cases.
Qed.

(** A zero that a digit follows is a number token of its own. *)
Lemma lex_leading_zero d rest :
  spec_digit d = true ->
  exists l,
    lex (new_Lexer (code "0" :: d :: rest))
    = Normal (new_Token TOKEN_NUMBER (js "0") 0) l.
Proof.
  intros Hd. pose proof (first_S_NUMBER_zero d rest Hd) as Hfirst.
  apply (String_match_first S_NUMBER (js "0")) in Hfirst.
  rewrite (lex_at_token _ (code "0") (d :: rest) TOKEN_NUMBER (js "0"));
    [eauto|reflexivity|reflexivity|].
  apply grammar_match_NUMBER; [|exact Hfirst].
  apply String_match_None. now apply rm_no_start.
Qed.

Lemma digits_head ds :
  spec_digits ds -> exists d ds', ds = d :: ds' /\ spec_digit d = true.
Proof.
  intros [Hne Hall]. destruct ds as [|d ds']; [easy|].
  inversion Hall; subst. eauto.
Qed.

(** In a numeral no digit follows a leading zero. *)
Lemma numeral_leading_zero n d rest :
  spec_numeral n ->
  n = code "0" :: d :: rest \/ n = code "-" :: code "0" :: d :: rest ->
  spec_digit d = false.
Proof.
  intros (mantissa & e & -> & He & Hm) Hn.
  destruct Hm as [(ds & -> & _)|(i & f & -> & Hi & Hf)].
  { destruct Hn as [Hn|Hn]; discriminate Hn. }
  destruct Hi as (sign & body & -> & Hsign & Hbody).
  assert (forall s, body ++ f ++ e = code "0" :: d :: s ->
                    spec_digit d = false) as Hbody0.
  { intros s E.
    destruct Hbody as [(d1 & ds & -> & Hd1 & _)|(d1 & -> & _)].
    - injection E as -> _. discriminate Hd1.
    - cbn in E. injection E as _ E.
      destruct Hf as [-> |(ds & -> & _)]; cbn in E.
      + destruct He as [-> |(c & sg & ds & -> & [-> | ->] & _)];
          [discriminate| |]; now injection E as <- _.
      + now injection E as <- _. }
  rewrite <- !app_assoc in Hn.
  destruct Hsign as [-> | ->]; cbn in Hn; destruct Hn as [Hn|Hn].
  - now apply (Hbody0 rest).
  - destruct Hbody as [(d1 & ds & -> & Hd1 & _)|(d1 & -> & Hd1)];
      injection Hn as -> _; discriminate Hd1.
  - discriminate Hn.
  - injection Hn as Hn. now apply (Hbody0 rest).
Qed.

(** ** Lexing ahead of the parser *)

Lemma map_Some_inj {A} (xs : list A) : forall ys,
  map Some xs = map Some ys -> xs = ys.
Proof.
  induction xs as [|x xs IH]; intros [|y ys] E; try discriminate;
    [reflexivity|].
  injection E as -> E. f_equal. now apply IH.
Qed.

Lemma Lexer_all_pending input tokens l :
  Lexer_all input = Normal (map Some tokens) l ->
  pending (new_Lexer input) tokens.
Proof.
  intros H. unfold Lexer_all, iterator in H.
  apply Lexer_all_loop_pending in H; [|reflexivity].
  destruct H as (rest & E & Hp & _). cbn [app] in E.
  now rewrite (map_Some_inj _ _ E).
Qed.

Lemma lexed_ahead_new input tokens :
  pending (new_Lexer input) tokens ->
  lexed_ahead (new_Lexer input) (ended input tokens).
Proof.
  intros Hp. split; [reflexivity|]. split; [apply hasEnded_ended|].
  exists tokens. now split.
Qed.

Lemma agree_outcome c c' : agree c c' -> outcome c = outcome c'.
Proof.
  unfold agree. destruct c as [p l| |], c' as [p' l'| |]; try easy; cbn.
  - now intros [-> _].
  - now intros ->.
Qed.

(** ** The parser on a Lexer that has lexed all of its input *)

Lemma is_hasEnded_inv v l b l' :
  hasEnded l = true -> is_ v l = Normal b l' ->
  l' = l
  /\ exists token tokens,
       stash l = token :: tokens /\ b = jsstring_eqb (value token) v.
Proof.
  intros He. unfold is_, bind. rewrite (peek_hasEnded _ He).
  destruct (stash l) as [|t ts]; [discriminate|]. cbn.
  intros [= <- <-]. eauto.
Qed.

Lemma ensure_hasEnded arguments l token l' :
  hasEnded l = true -> ensure arguments l = Normal token l' ->
  exists tokens,
    stash l = token :: tokens /\ In (value token) arguments
    /\ l' = with_stash tokens l.
Proof.
  intros He. unfold ensure, bind, next. rewrite He.
  destruct (stash l) as [|t ts] eqn:Es; [discriminate|].
  cbn [result]. destruct (negb _) eqn:F; [discriminate|].
  intros [= <- <-]. exists ts. split; [reflexivity|]. split.
  - apply negb_false_iff in F. unfold ensure_found in F.
    apply existsb_exists in F. destruct F as (a & Hin & Heq).
    apply jsstring_eqb_eq in Heq. now rewrite Heq.
  - unfold shift, with_stash. now rewrite Es.
Qed.

Lemma ensureType_hasEnded arguments l token l' :
  hasEnded l = true -> ensureType arguments l = Normal token l' ->
  exists tokens,
    stash l = token :: tokens /\ In (type token) arguments
    /\ l' = with_stash tokens l.
Proof.
  intros He. unfold ensureType, bind, next. rewrite He.
  destruct (stash l) as [|t ts] eqn:Es; [discriminate|].
  cbn [result]. destruct (negb _) eqn:F; [discriminate|].
  intros [= <- <-]. exists ts. split; [reflexivity|]. split.
  - apply negb_false_iff in F. unfold ensureType_found in F.
    apply existsb_exists in F. destruct F as (ty & Hin & Heq).
    destruct (type t), ty; try discriminate; exact Hin.
  - unfold shift, with_stash. now rewrite Es.
Qed.

Lemma separator_hasEnded closing v l l' (u : unit) :
  hasEnded l = true -> stash l <> [] ->
  (forall token tokens,
     stash l = token :: tokens -> closing = jsstring_eqb (value token) v) ->
  (if negb closing then ensure [js ","] ;;; ret tt else ret tt) l
  = Normal u l' ->
  hasEnded l' = true /\ separated v (stash l) (stash l').
Proof.
  intros He Hne Hc. destruct (stash l) as [|c rest] eqn:Es; [easy|].
  specialize (Hc c rest eq_refl). destruct closing; cbn [negb].
  - intros [= _ <-]. split; [exact He|]. exists c, rest.
    split; [reflexivity|]. left. symmetry in Hc.
    apply jsstring_eqb_eq in Hc. now rewrite Es.
  - unfold bind. destruct (ensure [js ","] l) as [t l1| |] eqn:E;
      try discriminate.
    intros [= _ <-]. apply ensure_hasEnded in E; [|exact He].
    destruct E as (ts & Hs & [Hv|[]] & ->). rewrite Es in Hs.
    injection Hs as <- <-. split; [exact He|]. exists c, rest.
    split; [reflexivity|]. right. symmetry in Hc.
    apply jsstring_eqb_false in Hc. auto.
Qed.

Lemma bind_Normal {A B} (m : M A) (k : A -> M B) l b l' :
  bind m k l = Normal b l' ->
  exists a l1, m l = Normal a l1 /\ k a l1 = Normal b l'.
Proof.
  unfold bind. destruct (m l) as [a l1| |]; try discriminate. eauto.
Qed.

(** ** What the parser returns is a value of the syntax *)

Section Accepted.

Variable pv : M Node.
Hypothesis pv_parses : forall l node l',
  hasEnded l = true -> pv l = Normal node l' ->
  hasEnded l' = true /\ parses (stash l) node (stash l').

Lemma parseArrayLiteral_while_parses fuel : forall elements l elements' l',
  hasEnded l = true ->
  parseArrayLiteral_while pv fuel elements l = Normal elements' l' ->
  hasEnded l' = true
  /\ exists more,
       elements' = elements ++ more
       /\ parses_elements (stash l) more (stash l').
Proof.
  induction fuel as [|fuel IH]; intros elements l elements' l' He H;
    [discriminate|].
  cbn [parseArrayLiteral_while] in H.
  apply bind_Normal in H. destruct H as (closing & l1 & H1 & H).
  apply is_hasEnded_inv in H1; [|exact He].
  destruct H1 as (-> & token & tokens & Hs & ->).
  destruct (jsstring_eqb (value token) (js "]")) eqn:Ec; cbn [negb] in H.
  { injection H as <- <-. split; [exact He|]. exists [].
    rewrite app_nil_r. split; [reflexivity|]. rewrite Hs.
    apply elements_end. now apply jsstring_eqb_eq. }
  apply bind_Normal in H. destruct H as (element & l2 & H2 & H).
  apply pv_parses in H2; [|exact He]. destruct H2 as [He2 Hp].
  apply bind_Normal in H. destruct H as (closing & l3 & H3 & H).
  apply is_hasEnded_inv in H3; [|exact He2].
  destruct H3 as (-> & c & rest & Hs2 & ->).
  apply bind_Normal in H. destruct H as (u & l4 & H4 & H).
  apply (separator_hasEnded _ (js "]")) in H4; [|exact He2| |].
  2:{ now rewrite Hs2. }
  2:{ intros c' rest' E. rewrite Hs2 in E. now injection E as <- <-. }
  destruct H4 as [He4 Hsep].
  apply IH in H; [|exact He4]. destruct H as (He' & more & -> & Hm).
  split; [exact He'|]. exists (element :: more).
  split; [now rewrite <- app_assoc|]. rewrite Hs in *.
  apply (elements_more _ _ _ (stash l2) (stash l4)); auto.
  now apply jsstring_eqb_false.
Qed.

Lemma parseObjectLiteral_while_parses fuel :
  forall properties l properties' l',
  hasEnded l = true ->
  parseObjectLiteral_while pv fuel properties l = Normal properties' l' ->
  hasEnded l' = true
  /\ exists more,
       properties' = properties ++ more
       /\ parses_members (stash l) more (stash l').
Proof.
  induction fuel as [|fuel IH]; intros properties l properties' l' He H;
    [discriminate|].
  cbn [parseObjectLiteral_while] in H.
  apply bind_Normal in H. destruct H as (closing & l1 & H1 & H).
  apply is_hasEnded_inv in H1; [|exact He].
  destruct H1 as (-> & token & tokens & Hs & ->).
  destruct (jsstring_eqb (value token) (js "}")) eqn:Ec; cbn [negb] in H.
  { injection H as <- <-. split; [exact He|]. exists [].
    rewrite app_nil_r. split; [reflexivity|]. rewrite Hs.
    apply members_end. now apply jsstring_eqb_eq. }
  apply bind_Normal in H. destruct H as (key & l2 & H2 & H).
  apply ensureType_hasEnded in H2; [|exact He].
  destruct H2 as (ts & Hs' & Hty & ->). rewrite Hs in Hs'.
  injection Hs' as -> <-.
  apply bind_Normal in H. destruct H as (colon & l3 & H3 & H).
  apply ensure_hasEnded in H3; [|exact He].
  destruct H3 as (ts & Hs3 & [Hcolon|[]] & ->). cbn [stash with_stash] in Hs3.
  subst tokens.
  apply bind_Normal in H. destruct H as (value' & l4 & H4 & H).
  apply pv_parses in H4; [|exact He]. destruct H4 as [He4 Hp].
  cbn [stash with_stash] in Hp.
  apply bind_Normal in H. destruct H as (closing & l5 & H5 & H).
  apply is_hasEnded_inv in H5; [|exact He4].
  destruct H5 as (-> & c & rest & Hs4 & ->).
  apply bind_Normal in H. destruct H as (u & l6 & H6 & H).
  apply (separator_hasEnded _ (js "}")) in H6; [|exact He4| |].
  2:{ now rewrite Hs4. }
  2:{ intros c' rest' E. rewrite Hs4 in E. now injection E as <- <-. }
  destruct H6 as [He6 Hsep].
  apply IH in H; [|exact He6]. destruct H as (He' & more & -> & Hm).
  split; [exact He'|]. eexists (_ :: more).
  split; [now rewrite <- app_assoc|]. rewrite Hs.
  apply (members_more _ _ _ _ (stash l4) (stash l6)); auto.
  - now apply jsstring_eqb_false.
  - destruct Hty as [<-|[<-|[]]]; auto.
Qed.

End Accepted.

Lemma parseValue_parses fuel : forall l node l',
  hasEnded l = true -> parseValue fuel l = Normal node l' ->
  hasEnded l' = true /\ parses (stash l) node (stash l').
Proof.
  induction fuel as [|fuel IH]; intros l node l' He H; [discriminate|].
  cbn [parseValue] in H. unfold bind at 1 in H.
  rewrite (peek_hasEnded _ He) in H.
  destruct (stash l) as [|token tokens] eqn:Es; [discriminate|].
  cbn [hd_error] in H. unfold bind at 1 in H.
  rewrite (is_hasEnded _ _ _ _ He Es) in H.
  destruct (jsstring_eqb (value token) (js "{")) eqn:Eo.
  { unfold parseObjectLiteral in H.
    apply bind_Normal in H. destruct H as (s & l1 & H1 & H).
    apply ensure_hasEnded in H1; [|exact He].
    destruct H1 as (ts & Hs & [Hv|[]] & ->). rewrite Es in Hs.
    injection Hs as <- <-.
    apply bind_Normal in H. destruct H as (properties & l2 & H2 & H).
    apply (parseObjectLiteral_while_parses _ IH) in H2; [|exact He].
    destruct H2 as (He2 & more & -> & Hm). cbn [stash with_stash app] in Hm.
    apply bind_Normal in H. destruct H as (e & l3 & H3 & H).
    apply ensure_hasEnded in H3; [|exact He2].
    destruct H3 as (ts & Hs & _ & ->). injection H as <- <-.
    split; [exact He2|]. cbn [stash with_stash]. rewrite Hs in Hm.
    now apply parses_object. }
  unfold bind at 1 in H. rewrite (is_hasEnded _ _ _ _ He Es) in H.
  destruct (jsstring_eqb (value token) (js "[")) eqn:Ea.
  { unfold parseArrayLiteral in H.
    apply bind_Normal in H. destruct H as (s & l1 & H1 & H).
    apply ensure_hasEnded in H1; [|exact He].
    destruct H1 as (ts & Hs & [Hv|[]] & ->). rewrite Es in Hs.
    injection Hs as <- <-.
    apply bind_Normal in H. destruct H as (elements & l2 & H2 & H).
    apply (parseArrayLiteral_while_parses _ IH) in H2; [|exact He].
    destruct H2 as (He2 & more & -> & Hm). cbn [stash with_stash app] in Hm.
    apply bind_Normal in H. destruct H as (e & l3 & H3 & H).
    apply ensure_hasEnded in H3; [|exact He2].
    destruct H3 as (ts & Hs & _ & ->). injection H as <- <-.
    split; [exact He2|]. cbn [stash with_stash]. rewrite Hs in Hm.
    now apply parses_array. }
  destruct (literal token) as [leaf|] eqn:El; [|discriminate].
  unfold bind, next in H. rewrite Es in H. injection H as <- <-.
  split; [exact He|]. cbn [shift stash]. rewrite Es. cbn [tl].
  apply parses_literal; auto; now apply jsstring_eqb_false.
Qed.

(** ** Every value of the syntax is returned *)

Lemma below_trans {A} (m1 m2 m3 : M A) :
  below m1 m2 -> below m2 m3 -> below m1 m3.
Proof.
  intros H12 H23 l H. rewrite H23; [now apply H12|].
  now rewrite H12.
Qed.

Lemma below_parseValue_le fuel fuel' :
  fuel <= fuel' -> below (parseValue fuel) (parseValue fuel').
Proof.
  induction 1 as [|fuel' _ IH]; [apply below_refl|].
  eapply below_trans; [exact IH|apply below_parseValue].
Qed.

Lemma below_parseArrayLiteral_while_le pv pv' :
  below pv pv' -> forall fuel fuel' elements,
  fuel <= fuel' ->
  below (parseArrayLiteral_while pv fuel elements)
        (parseArrayLiteral_while pv' fuel' elements).
Proof.
  intros Hpv. induction fuel as [|fuel IH]; intros fuel' elements Hle.
  { intros l H. now elim H. }
  destruct fuel' as [|fuel']; [lia|].
  cbn [parseArrayLiteral_while].
  apply below_bind; [apply below_refl|]. intros closing.
  destruct (negb closing); [|apply below_refl].
  apply below_bind; [exact Hpv|]. intros element.
  apply below_bind; [apply below_refl|]. intros closing'.
  apply below_bind; [apply below_refl|]. intros _. apply IH. lia.
Qed.

Lemma below_parseObjectLiteral_while_le pv pv' :
  below pv pv' -> forall fuel fuel' properties,
  fuel <= fuel' ->
  below (parseObjectLiteral_while pv fuel properties)
        (parseObjectLiteral_while pv' fuel' properties).
Proof.
  intros Hpv. induction fuel as [|fuel IH]; intros fuel' properties Hle.
  { intros l H. now elim H. }
  destruct fuel' as [|fuel']; [lia|].
  cbn [parseObjectLiteral_while].
  apply below_bind; [apply below_refl|]. intros closing.
  destruct (negb closing); [|apply below_refl].
  apply below_bind; [apply below_refl|]. intros key.
  apply below_bind; [apply below_refl|]. intros _.
  apply below_bind; [exact Hpv|]. intros value.
  apply below_bind; [apply below_refl|]. intros closing'.
  apply below_bind; [apply below_refl|]. intros _. apply IH. lia.
Qed.

Lemma below_Normal {A} (m m' : M A) l a l' :
  below m m' -> m l = Normal a l' -> m' l = Normal a l'.
Proof. intros H E. rewrite H; [exact E|]. now rewrite E. Qed.

Lemma ensure_head arguments l token tokens :
  hasEnded l = true -> stash l = token :: tokens ->
  In (value token) arguments ->
  ensure arguments l = Normal token (with_stash tokens l).
Proof.
  intros He Hs Hin. unfold ensure, bind, next. rewrite Hs. cbn [result].
  replace (ensure_found (Some token) arguments) with true.
  - cbn. unfold shift, with_stash. now rewrite Hs.
  - symmetry. apply existsb_exists. exists (value token).
    split; [exact Hin|]. now apply jsstring_eqb_eq.
Qed.

Lemma ensureType_head arguments l token tokens :
  hasEnded l = true -> stash l = token :: tokens ->
  In (type token) arguments ->
  ensureType arguments l = Normal token (with_stash tokens l).
Proof.
  intros He Hs Hin. unfold ensureType, bind, next. rewrite Hs. cbn [result].
  replace (ensureType_found (Some token) arguments) with true.
  - cbn. unfold shift, with_stash. now rewrite Hs.
  - symmetry. apply existsb_exists. exists (type token).
    split; [exact Hin|]. now destruct (type token).
Qed.

Lemma separated_run closing tokens tokens' l :
  separated closing tokens tokens' ->
  hasEnded l = true -> stash l = tokens ->
  exists b,
    is_ closing l = Normal b l
    /\ (if negb b then ensure [js ","] ;;; ret tt else ret tt) l
       = Normal tt (with_stash tokens' l).
Proof.
  intros (c & rest & -> & H) He Hs.
  exists (jsstring_eqb (value c) closing).
  split; [now apply (is_hasEnded _ _ c rest)|].
  destruct H as [[Hc ->]|(Hc & Hcomma & ->)].
  - apply jsstring_eqb_eq in Hc. rewrite Hc. cbn.
    unfold ret. f_equal. rewrite <- Hs. symmetry. apply with_stash_eta.
  - apply jsstring_eqb_false in Hc. rewrite Hc. cbn [negb]. unfold bind.
    rewrite (ensure_head _ _ c rest He Hs); [reflexivity|].
    rewrite Hcomma. now left.
Qed.

Lemma parses_elements_closing tokens elements tokens' :
  parses_elements tokens elements tokens' ->
  exists c rest, tokens' = c :: rest /\ value c = js "]".
Proof. induction 1; eauto. Qed.

Lemma parses_members_closing tokens properties tokens' :
  parses_members tokens properties tokens' ->
  exists c rest, tokens' = c :: rest /\ value c = js "}".
Proof. induction 1; eauto. Qed.

Lemma parses_complete :
  (forall tokens node tokens',
     parses tokens node tokens' ->
     forall l, hasEnded l = true -> stash l = tokens ->
     exists fuel, parseValue fuel l = Normal node (with_stash tokens' l))
  /\ (forall tokens elements tokens',
        parses_elements tokens elements tokens' ->
        forall l elements0, hasEnded l = true -> stash l = tokens ->
        exists fuel,
          parseArrayLiteral_while (parseValue fuel) fuel elements0 l
          = Normal (elements0 ++ elements) (with_stash tokens' l))
  /\ (forall tokens properties tokens',
        parses_members tokens properties tokens' ->
        forall l properties0, hasEnded l = true -> stash l = tokens ->
        exists fuel,
          parseObjectLiteral_while (parseValue fuel) fuel properties0 l
          = Normal (properties0 ++ properties) (with_stash tokens' l)).
Proof.
  apply parses_mutind.
  - (* a literal *)
    intros token tokens node Ho Ha Hlit l He Hs. exists 1.
    cbn [parseValue]. unfold bind at 1. rewrite (peek_hasEnded _ He), Hs.
    cbn [hd_error]. unfold bind at 1.
    rewrite (is_hasEnded _ _ _ _ He Hs).
    apply jsstring_eqb_false in Ho, Ha. rewrite Ho.
    unfold bind at 1. rewrite (is_hasEnded _ _ _ _ He Hs), Ha, Hlit.
    unfold bind, next. rewrite Hs. cbn. unfold shift, with_stash.
    now rewrite Hs.
  - (* an array *)
    intros s tokens elements e tokens' Hv Hel IH l He Hs.
    destruct (IH (with_stash tokens l) [] He eq_refl) as (fuel & Hloop).
    destruct (parses_elements_closing _ _ _ Hel) as (c & r & E & Hc).
    injection E as <- <-.
    exists (S fuel). cbn [parseValue]. unfold bind at 1.
    rewrite (peek_hasEnded _ He), Hs. cbn [hd_error]. unfold bind at 1.
    rewrite (is_hasEnded _ _ _ _ He Hs), Hv.
    replace (jsstring_eqb (js "[") (js "{")) with false by reflexivity.
    unfold bind at 1. rewrite (is_hasEnded _ _ _ _ He Hs), Hv.
    replace (jsstring_eqb (js "[") (js "[")) with true by reflexivity.
    unfold parseArrayLiteral. unfold bind at 1.
    rewrite (ensure_head _ _ s tokens He Hs) by (rewrite Hv; now left).
    unfold bind at 1. rewrite Hloop. unfold bind at 1.
    rewrite (ensure_head _ _ e tokens') by
      (try reflexivity; try exact He; rewrite Hc; now left).
    reflexivity.
  - (* an object *)
    intros s tokens properties e tokens' Hv Hmem IH l He Hs.
    destruct (IH (with_stash tokens l) [] He eq_refl) as (fuel & Hloop).
    destruct (parses_members_closing _ _ _ Hmem) as (c & r & E & Hc).
    injection E as <- <-.
    exists (S fuel). cbn [parseValue]. unfold bind at 1.
    rewrite (peek_hasEnded _ He), Hs. cbn [hd_error]. unfold bind at 1.
    rewrite (is_hasEnded _ _ _ _ He Hs), Hv.
    replace (jsstring_eqb (js "{") (js "{")) with true by reflexivity.
    unfold parseObjectLiteral. unfold bind at 1.
    rewrite (ensure_head _ _ s tokens He Hs) by (rewrite Hv; now left).
    unfold bind at 1. rewrite Hloop. unfold bind at 1.
    rewrite (ensure_head _ _ e tokens') by
      (try reflexivity; try exact He; rewrite Hc; now left).
    reflexivity.
  - (* no more elements *)
    intros token tokens Hv l elements0 He Hs. exists 1.
    cbn [parseArrayLiteral_while]. unfold bind.
    rewrite (is_hasEnded _ _ _ _ He Hs).
    apply jsstring_eqb_eq in Hv. rewrite Hv. cbn. unfold ret.
    rewrite app_nil_r, <- Hs. f_equal. symmetry. apply with_stash_eta.
  - (* an element *)
    intros token tokens element tokens1 tokens2 elements tokens3
      Hv Hp IHp Hsep Hel IHel l elements0 He Hs.
    destruct (IHp l He Hs) as (f1 & H1).
    destruct (separated_run _ _ _ (with_stash tokens1 l) Hsep He eq_refl)
      as (b & Hb & Hcomma).
    destruct (IHel (with_stash tokens2 l) (elements0 ++ [element]) He eq_refl)
      as (f2 & H2).
    set (F := Nat.max f1 f2). exists (S F).
    cbn [parseArrayLiteral_while]. unfold bind at 1.
    rewrite (is_hasEnded _ _ _ _ He Hs).
    apply jsstring_eqb_false in Hv. rewrite Hv. cbn [negb].
    unfold bind at 1.
    rewrite (below_Normal _ _ _ _ _
               (below_parseValue_le f1 (S F) ltac:(lia)) H1).
    unfold bind at 1. rewrite Hb. unfold bind at 1. rewrite Hcomma.
    rewrite <- app_assoc in H2.
    exact (below_Normal _ _ _ _ _
             (below_parseArrayLiteral_while_le _ _
                (below_parseValue_le f2 (S F) ltac:(lia)) f2 F _ ltac:(lia))
             H2).
  - (* no more members *)
    intros token tokens Hv l properties0 He Hs. exists 1.
    cbn [parseObjectLiteral_while]. unfold bind.
    rewrite (is_hasEnded _ _ _ _ He Hs).
    apply jsstring_eqb_eq in Hv. rewrite Hv. cbn. unfold ret.
    rewrite app_nil_r, <- Hs. f_equal. symmetry. apply with_stash_eta.
  - (* a member *)
    intros key colon tokens value' tokens1 tokens2 properties tokens3
      Hv Hty Hcolon Hp IHp Hsep Hmem IHmem l properties0 He Hs.
    destruct (IHp (with_stash tokens l) He eq_refl) as (f1 & H1).
    change (with_stash tokens1 (with_stash tokens l))
      with (with_stash tokens1 l) in H1.
    destruct (separated_run _ _ _ (with_stash tokens1 l) Hsep He eq_refl)
      as (b & Hb & Hcomma).
    destruct (IHmem (with_stash tokens2 l)
                (properties0
                   ++ [new_Property key value' (Some (start key))
                         (Node_end value')]) He eq_refl)
      as (f2 & H2).
    set (F := Nat.max f1 f2). exists (S F).
    cbn [parseObjectLiteral_while]. unfold bind at 1.
    rewrite (is_hasEnded _ _ _ _ He Hs).
    apply jsstring_eqb_false in Hv. rewrite Hv. cbn [negb].
    unfold bind at 1.
    rewrite (ensureType_head _ _ key (colon :: tokens) He Hs)
      by (destruct Hty as [-> | ->]; simpl; auto).
    unfold bind at 1.
    rewrite (ensure_head _ (with_stash (colon :: tokens) l) colon tokens)
      by (try reflexivity; try exact He; rewrite Hcolon; now left).
    change (with_stash tokens (with_stash (colon :: tokens) l))
      with (with_stash tokens l).
    unfold bind at 1.
    rewrite (below_Normal _ _ _ _ _
               (below_parseValue_le f1 (S F) ltac:(lia)) H1).
    unfold bind at 1. rewrite Hb. unfold bind at 1. rewrite Hcomma.
    rewrite <- app_assoc in H2.
    exact (below_Normal _ _ _ _ _
             (below_parseObjectLiteral_while_le _ _
                (below_parseValue_le f2 (S F) ltac:(lia)) f2 F _ ltac:(lia))
             H2).
Qed.

(** ** The parser behind a Lexer that lexes on demand *)

(** What the parser returns on the tokens lexed ahead, with any fuel, is
    what [parse] returns. *)
Lemma parse_of_pending input tokens fuel p l :
  pending (new_Lexer input) tokens ->
  Parser_parse fuel (ended input tokens) = Normal p l ->
  outcome (parse input) = Some (inl (program p)).
Proof.
  intros Hp H. set (f := S (length input)).
  pose proof (ahead_Parser_parse f _ _ (lexed_ahead_new _ _ Hp)) as Ha.
  assert (Parser_parse f (ended input tokens) = Normal p l) as E.
  { destruct (Nat.le_ge_cases fuel f) as [Hle|Hle].
    - rewrite (Parser_parse_more_fuel fuel f _ Hle); [exact H|].
      now rewrite H.
    - rewrite <- H. symmetry. apply Parser_parse_more_fuel; [exact Hle|].
      intros E. rewrite E in Ha.
      pose proof (parse_terminates input) as Ht. unfold parse in Ht.
      fold f in Ht. destruct (Parser_parse f (new_Lexer input)); easy. }
  rewrite E in Ha. unfold parse. fold f.
  destruct (Parser_parse f (new_Lexer input)) as [p' l'| |]; try easy.
  now destruct Ha as [-> _].
Qed.

(** ** Whitespace between the tokens *)

Lemma alike_runs_ret {A} (R : A -> A -> Prop) a a2 :
  R a a2 -> alike_runs R (ret a) (ret a2).
Proof. intros H l l2 Hl. now split. Qed.

Lemma alike_runs_throw {A} (R : A -> A -> Prop) e :
  alike_runs R (throw e) (throw e).
Proof. intros l l2 _. reflexivity. Qed.

Lemma alike_runs_bind {A B} (R : A -> A -> Prop) (S : B -> B -> Prop)
  (m m2 : M A) (k k2 : A -> M B) :
  alike_runs R m m2 ->
  (forall a a2, R a a2 -> alike_runs S (k a) (k2 a2)) ->
  alike_runs S (bind m k) (bind m2 k2).
Proof.
  intros Hm Hk l l2 Hl. specialize (Hm l l2 Hl). unfold bind.
  destruct (m l) as [a l'| |], (m2 l2) as [a2 l2'| |]; try easy.
  destruct Hm as [Ha Hl']. now apply Hk.
Qed.

Lemma alike_cons l l2 token tokens :
  alike l l2 -> stash l = token :: tokens ->
  exists token2 tokens2,
    stash l2 = token2 :: tokens2
    /\ type token2 = type token /\ value token2 = value token
    /\ map unplaced_token tokens = map unplaced_token tokens2.
Proof.
  intros (_ & _ & H) Hs. rewrite Hs in H.
  destruct (stash l2) as [|t2 ts2]; [discriminate|].
  injection H as Ht Hv Hts. eauto 6.
Qed.

Lemma alike_nil l l2 : alike l l2 -> stash l = [] -> stash l2 = [].
Proof.
  intros (_ & _ & H) Hs. rewrite Hs in H. now destruct (stash l2).
Qed.

Lemma alike_runs_is_ v : alike_runs eq (is_ v) (is_ v).
Proof.
  intros l l2 Hl. pose proof Hl as (He & He2 & _). unfold is_, bind.
  rewrite (peek_hasEnded _ He), (peek_hasEnded _ He2).
  destruct (stash l) as [|t ts] eqn:Es.
  - now rewrite (alike_nil _ _ Hl Es).
  - destruct (alike_cons _ _ _ _ Hl Es) as (t2 & ts2 & -> & _ & Hv & _).
    cbn. now rewrite Hv.
Qed.

Lemma alike_shift l l2 token tokens token2 tokens2 :
  alike l l2 -> stash l = token :: tokens -> stash l2 = token2 :: tokens2 ->
  alike (shift l) (shift l2).
Proof.
  intros (He & He2 & H) Hs Hs2. split; [exact He|]. split; [exact He2|].
  cbn [shift stash]. rewrite Hs, Hs2 in *. now injection H.
Qed.

Lemma alike_runs_ensure arguments :
  alike_runs (fun t t2 => unplaced_token t = unplaced_token t2)
    (ensure arguments) (ensure arguments).
Proof.
  intros l l2 Hl. pose proof Hl as (He & He2 & _).
  unfold ensure, bind, next. rewrite He, He2.
  destruct (stash l) as [|t ts] eqn:Es.
  - now rewrite (alike_nil _ _ Hl Es).
  - destruct (alike_cons _ _ _ _ Hl Es) as (t2 & ts2 & Es2 & Hty & Hv & _).
    rewrite Es2. cbn [result]. unfold ensure_found. rewrite Hv.
    destruct (negb _); [reflexivity|]. split.
    + unfold unplaced_token. now rewrite Hty, Hv.
    + now apply (alike_shift _ _ t ts t2 ts2).
Qed.

Lemma alike_runs_ensureType arguments :
  alike_runs (fun t t2 => unplaced_token t = unplaced_token t2)
    (ensureType arguments) (ensureType arguments).
Proof.
  intros l l2 Hl. pose proof Hl as (He & He2 & _).
  unfold ensureType, bind, next. rewrite He, He2.
  destruct (stash l) as [|t ts] eqn:Es.
  - now rewrite (alike_nil _ _ Hl Es).
  - destruct (alike_cons _ _ _ _ Hl Es) as (t2 & ts2 & Es2 & Hty & Hv & _).
    rewrite Es2. cbn [result]. unfold ensureType_found. rewrite Hty.
    destruct (negb _); [reflexivity|]. split.
    + unfold unplaced_token. now rewrite Hty, Hv.
    + now apply (alike_shift _ _ t ts t2 ts2).
Qed.

Lemma alike_runs_separator (closing : bool) :
  alike_runs eq
    (if negb closing then ensure [js ","] ;;; ret tt else ret tt)
    (if negb closing then ensure [js ","] ;;; ret tt else ret tt).
Proof.
  destruct (negb closing); [|now apply alike_runs_ret].
  eapply alike_runs_bind; [apply alike_runs_ensure|].
  intros _ _ _. now apply alike_runs_ret.
Qed.

Lemma alike_runs_parseArrayLiteral_while pv pv2 fuel :
  alike_runs (fun n n2 => unplaced n = unplaced n2) pv pv2 ->
  forall elements elements2,
    map unplaced elements = map unplaced elements2 ->
    alike_runs (fun es es2 => map unplaced es = map unplaced es2)
      (parseArrayLiteral_while pv fuel elements)
      (parseArrayLiteral_while pv2 fuel elements2).
Proof.
  intros Hpv. induction fuel as [|fuel IH]; intros elements elements2 Hes.
  { intros l l2 _. exact I. }
  cbn [parseArrayLiteral_while].
  eapply alike_runs_bind; [apply alike_runs_is_|]. intros closing _ <-.
  destruct (negb closing); [|now apply alike_runs_ret].
  eapply alike_runs_bind; [exact Hpv|]. intros element element2 Hel.
  eapply alike_runs_bind; [apply alike_runs_is_|]. intros closing' _ <-.
  eapply alike_runs_bind; [apply alike_runs_separator|]. intros _ _ _.
  apply IH. rewrite !map_app. cbn. now rewrite Hes, Hel.
Qed.

Lemma alike_runs_parseObjectLiteral_while pv pv2 fuel :
  alike_runs (fun n n2 => unplaced n = unplaced n2) pv pv2 ->
  forall properties properties2,
    map unplaced_property properties = map unplaced_property properties2 ->
    alike_runs
      (fun ps ps2 => map unplaced_property ps = map unplaced_property ps2)
      (parseObjectLiteral_while pv fuel properties)
      (parseObjectLiteral_while pv2 fuel properties2).
Proof.
  intros Hpv. induction fuel as [|fuel IH];
    intros properties properties2 Hps.
  { intros l l2 _. exact I. }
  cbn [parseObjectLiteral_while].
  eapply alike_runs_bind; [apply alike_runs_is_|]. intros closing _ <-.
  destruct (negb closing); [|now apply alike_runs_ret].
  eapply alike_runs_bind; [apply alike_runs_ensureType|].
  intros key key2 Hkey.
  eapply alike_runs_bind; [apply alike_runs_ensure|]. intros colon colon2 _.
  eapply alike_runs_bind; [exact Hpv|]. intros value value2 Hvalue.
  eapply alike_runs_bind; [apply alike_runs_is_|]. intros closing' _ <-.
  eapply alike_runs_bind; [apply alike_runs_separator|]. intros _ _ _.
  apply IH. rewrite !map_app. cbn. rewrite Hps. f_equal. f_equal.
  unfold unplaced_property. cbn. now rewrite Hkey.
Qed.

Lemma literal_unplaced token token2 :
  unplaced_token token = unplaced_token token2 ->
  match literal token, literal token2 with
  | Some node, Some node2 => unplaced node = unplaced node2
  | None, None => True
  | _, _ => False
  end.
Proof.
  intros [= Hty Hv]. unfold literal. rewrite Hty, Hv.
  now destruct (type token2).
Qed.

Lemma alike_runs_peek :
  alike_runs
    (fun x x2 => option_map unplaced_token x = option_map unplaced_token x2)
    peek peek.
Proof.
  intros l l2 Hl. pose proof Hl as (He & He2 & _).
  rewrite (peek_hasEnded _ He), (peek_hasEnded _ He2).
  split; [|exact Hl]. destruct (stash l) as [|t ts] eqn:Es.
  - now rewrite (alike_nil _ _ Hl Es).
  - destruct (alike_cons _ _ _ _ Hl Es) as (t2 & ts2 & -> & Hty & Hv & _).
    cbn. unfold unplaced_token. now rewrite Hty, Hv.
Qed.

Lemma alike_runs_next : alike_runs (fun _ _ => True) next next.
Proof.
  intros l l2 Hl. pose proof Hl as (He & He2 & _). unfold next.
  rewrite He, He2. destruct (stash l) as [|t ts] eqn:Es.
  - now rewrite (alike_nil _ _ Hl Es).
  - destruct (alike_cons _ _ _ _ Hl Es) as (t2 & ts2 & Es2 & _).
    rewrite Es2. split; [exact I|].
    now apply (alike_shift _ _ t ts t2 ts2).
Qed.

Lemma alike_runs_parseValue fuel :
  alike_runs (fun n n2 => unplaced n = unplaced n2)
    (parseValue fuel) (parseValue fuel).
Proof.
  induction fuel as [|fuel IH]; [intros l l2 _; exact I|].
  cbn [parseValue]. eapply alike_runs_bind; [apply alike_runs_peek|].
  intros [t|] [t2|] Ht; try discriminate; [|apply alike_runs_throw].
  injection Ht as Hty Hv.
  eapply alike_runs_bind; [apply alike_runs_is_|]. intros object _ <-.
  destruct object.
  { unfold parseObjectLiteral.
    eapply alike_runs_bind; [apply alike_runs_ensure|]. intros s s2 Hs.
    eapply alike_runs_bind;
      [now apply alike_runs_parseObjectLiteral_while|].
    intros ps ps2 Hps.
    eapply alike_runs_bind; [apply alike_runs_ensure|]. intros e e2 He.
    apply alike_runs_ret. cbn. now rewrite Hps. }
  eapply alike_runs_bind; [apply alike_runs_is_|]. intros array _ <-.
  destruct array.
  { unfold parseArrayLiteral.
    eapply alike_runs_bind; [apply alike_runs_ensure|]. intros s s2 Hs.
    eapply alike_runs_bind;
      [now apply alike_runs_parseArrayLiteral_while|].
    intros es es2 Hes.
    eapply alike_runs_bind; [apply alike_runs_ensure|]. intros e e2 He.
    apply alike_runs_ret. cbn. now rewrite Hes. }
  pose proof (literal_unplaced t t2) as Hlit.
  unfold unplaced_token in Hlit. rewrite Hty, Hv in Hlit.
  specialize (Hlit eq_refl).
  destruct (literal t) as [node|], (literal t2) as [node2|]; try easy.
  - eapply alike_runs_bind; [apply alike_runs_next|]. intros _ _ _.
    now apply alike_runs_ret.
  - rewrite Hv. apply alike_runs_throw.
Qed.

Lemma alike_runs_Parser_parse fuel :
  alike_runs (fun p p2 => unplaced (program p) = unplaced (program p2))
    (Parser_parse fuel) (Parser_parse fuel).
Proof.
  unfold Parser_parse.
  eapply alike_runs_bind; [apply alike_runs_parseValue|].
  intros node node2 H. now apply alike_runs_ret.
Qed.

Lemma parse_outcome_of_pending input tokens fuel :
  pending (new_Lexer input) tokens ->
  Parser_parse fuel (ended input tokens) <> OutOfFuel ->
  outcome (parse input) = outcome (Parser_parse fuel (ended input tokens)).
Proof.
  intros Hp H. set (f := S (length input)).
  pose proof (ahead_Parser_parse f _ _ (lexed_ahead_new _ _ Hp)) as Ha.
  apply agree_outcome in Ha. unfold parse. fold f. rewrite Ha.
  destruct (Nat.le_ge_cases fuel f) as [Hle|Hle].
  - now rewrite (Parser_parse_more_fuel fuel f _ Hle).
  - rewrite (Parser_parse_more_fuel f fuel _ Hle); [reflexivity|].
    intros E. rewrite E in Ha. now apply (parse_terminates input).
Qed.

(** ** Tokens that need no delimiter *)

Lemma first_Lit c s : first (Lit c) (c :: s) = Some s.
Proof. unfold first. cbn [rm]. now rewrite N.eqb_refl. Qed.

Lemma first_Str s : forall rest, first (Str s) (s ++ rest) = Some rest.
Proof.
  induction s as [|c s IH]; intros rest; [reflexivity|].
  cbn [Str app]. apply (first_Seq _ _ _ (s ++ rest)); [apply first_Lit|].
  apply IH.
Qed.

Lemma grammar_match_PUNC s m :
  String_match s S_STRING = None -> String_match s S_NUMBER = None ->
  String_match s S_PUNC = Some m ->
  grammar_match grammar s = Some (TOKEN_PUNCTUATOR, m).
Proof.
  intros H1 H2 H3. unfold grammar. cbn [grammar_match].
  now rewrite H1, H2, H3.
Qed.

Lemma grammar_match_BOOL s m :
  String_match s S_STRING = None -> String_match s S_NUMBER = None ->
  String_match s S_PUNC = None -> String_match s S_BOOL = Some m ->
  grammar_match grammar s = Some (TOKEN_BOOLEAN, m).
Proof.
  intros H1 H2 H3 H4. unfold grammar. cbn [grammar_match].
  now rewrite H1, H2, H3, H4.
Qed.

Lemma grammar_match_NULL s m :
  String_match s S_STRING = None -> String_match s S_NUMBER = None ->
  String_match s S_PUNC = None -> String_match s S_BOOL = None ->
  String_match s S_NULL = Some m ->
  grammar_match grammar s = Some (TOKEN_NULL, m).
Proof.
  intros H1 H2 H3 H4 H5. unfold grammar. cbn [grammar_match].
  now rewrite H1, H2, H3, H4, H5.
Qed.

Lemma String_match_no_start r c s :
  nullable r = false -> starts r c = false -> String_match (c :: s) r = None.
Proof. intros Hn Hs. apply String_match_None. now apply rm_no_start. Qed.

(** An input that begins with [true], [false] or [null] lexes to that
    token. *)
Lemma lex_keyword ty keyword rest :
  In (ty, keyword)
     [(TOKEN_BOOLEAN, js "true"); (TOKEN_BOOLEAN, js "false");
      (TOKEN_NULL, js "null")] ->
  exists l,
    lex (new_Lexer (keyword ++ rest)) = Normal (new_Token ty keyword 0) l.
Proof.
  intros [H|[H|[H|[]]]]; injection H as <- <-; eexists.
  - apply (lex_at_token _ (code "t") (js "rue" ++ rest));
      [reflexivity|reflexivity|].
    apply grammar_match_BOOL; try now apply String_match_no_start.
    apply (String_match_first S_BOOL (js "true") rest).
    apply first_Alt_l. apply first_Str.
  - apply (lex_at_token _ (code "f") (js "alse" ++ rest));
      [reflexivity|reflexivity|].
    apply grammar_match_BOOL; try now apply String_match_no_start.
    apply (String_match_first S_BOOL (js "false") rest).
    unfold S_BOOL. rewrite first_Alt_r; [apply first_Str|].
    now apply rm_no_start.
  - apply (lex_at_token _ (code "n") (js "ull" ++ rest));
      [reflexivity|reflexivity|].
    apply grammar_match_NULL; try now apply String_match_no_start.
    apply (String_match_first S_NULL (js "null") rest). apply first_Str.
Qed.

(** An input that begins with a punctuator other than the double quote
    lexes to that punctuator. *)
Lemma lex_punctuator c rest :
  In c punctuators -> c <> DQUOTE ->
  exists l,
    lex (new_Lexer (c :: rest)) = Normal (new_Token TOKEN_PUNCTUATOR [c] 0) l.
Proof.
  intros Hin Hq.
  assert ((32 < c)%N /\ starts S_STRING c = false
          /\ starts S_NUMBER c = false
          /\ xorb false
               (in_ranges c [one DQUOTE; chr ":"; chr ","; chr "["; chr "]";
                             chr "{"; chr "}"]) = true)
    as (Hgt & H1 & H2 & H3).
  { destruct Hin as [H|[H|[H|[H|[H|[H|[H|[]]]]]]]]; subst c;
      try (now elim Hq); repeat split. }
  eexists. apply (lex_at_token _ c rest TOKEN_PUNCTUATOR [c] eq_refl Hgt).
  apply grammar_match_PUNC; try now apply String_match_no_start.
  apply (String_match_first S_PUNC [c] rest). now apply first_Class.
Qed.

(** An input that begins with a double quote lexes: to a string token, or
    to the punctuator that is the double quote alone. *)
Lemma lex_quote rest :
  exists token l,
    lex (new_Lexer (DQUOTE :: rest)) = Normal token l
    /\ start token = 0
    /\ ((type token = TOKEN_STRING /\ spec_string (value token))
        \/ (type token = TOKEN_PUNCTUATOR /\ value token = [DQUOTE]
            /\ String_match (DQUOTE :: rest) S_STRING = None)).
Proof.
  destruct (String_match (DQUOTE :: rest) S_STRING) as [m|] eqn:E.
  - eexists. eexists. split.
    { apply (lex_at_token _ DQUOTE rest TOKEN_STRING m eq_refl);
        [reflexivity|now apply grammar_match_STRING]. }
    split; [reflexivity|]. left.
    split; [reflexivity|]. apply String_match_S_STRING in E. apply E.
  - eexists. eexists. split.
    { apply (lex_at_token _ DQUOTE rest TOKEN_PUNCTUATOR [DQUOTE] eq_refl);
        [reflexivity|].
      apply grammar_match_PUNC; [exact E|now apply String_match_no_start|].
      apply (String_match_first S_PUNC [DQUOTE] rest). now apply first_Class. }
    split; [reflexivity|]. right. auto.
Qed.

(** ** Where lex throws *)

Lemma grammar_match_punctuator c rest :
  In c punctuators -> grammar_match grammar (c :: rest) <> None.
Proof.
  intros Hin. destruct (N.eq_dec c DQUOTE) as [-> |Hq].
  - destruct (String_match (DQUOTE :: rest) S_STRING) as [m|] eqn:E.
    + now rewrite (grammar_match_STRING _ _ E).
    + rewrite (grammar_match_PUNC _ [DQUOTE] E); [easy| |].
      * now apply String_match_no_start.
      * apply (String_match_first S_PUNC [DQUOTE] rest).
        now apply first_Class.
  - assert (starts S_STRING c = false /\ starts S_NUMBER c = false
            /\ xorb false
                 (in_ranges c [one DQUOTE; chr ":"; chr ","; chr "[";
                               chr "]"; chr "{"; chr "}"]) = true)
      as (H1 & H2 & H3).
    { destruct Hin as [H|[H|[H|[H|[H|[H|[H|[]]]]]]]]; subst c;
        try (now elim Hq); repeat split. }
    rewrite (grammar_match_PUNC _ [c]); [easy| | |].
    + now apply String_match_no_start.
    + now apply String_match_no_start.
    + apply (String_match_first S_PUNC [c] rest). now apply first_Class.
Qed.

Lemma grammar_match_digit d rest :
  spec_digit d = true -> grammar_match grammar (d :: rest) <> None.
Proof.
  intros Hd.
  assert (starts S_STRING d = false) as H1.
  { revert Hd. unfold spec_digit. unfold_grammar. char_cases. }
  assert (Matches S_NUMBER [d]) as Hm.
  { apply Matches_S_NUMBER. exists [d], []. split; [reflexivity|].
    split; [now left|]. right. exists [d], []. split; [reflexivity|].
    split; [|now left]. exists [], [d]. split; [reflexivity|].
    split; [now left|]. right. eauto. }
  pose proof (rm_complete _ _ Hm rest) as Hin.
  destruct (String_match (d :: rest) S_NUMBER) as [m|] eqn:E.
  - rewrite (grammar_match_NUMBER _ m); [easy| |exact E].
    now apply String_match_no_start.
  - apply String_match_None in E. cbn [app] in Hin. rewrite E in Hin.
    destruct Hin.
Qed.

Lemma skipn_nth_error {A} (s : list A) : forall i c,
  nth_error s i = Some c -> exists rest, skipn i s = c :: rest.
Proof.
  induction s as [|x s IH]; intros [|i] c H; try discriminate.
  - injection H as ->. now exists s.
  - now apply IH.
Qed.

(** ** The tokens the parser has lexed *)

Lemma with_stash_same a b :
  with_stash [] a = with_stash [] b -> a = with_stash (stash a) b.
Proof.
  destruct a, b. unfold with_stash. cbn. now intros [= -> -> ->].
Qed.

Lemma lexes_with_stash l tokens l' :
  lexes l tokens l' ->
  forall s s', lexes (with_stash s l) tokens (with_stash s' l').
Proof.
  induction 1 as [l l' E|l token l1 tokens l' Hlex _ IH]; intros s s'.
  - apply lexes_nil. exact E.
  - apply (lexes_cons _ token (with_stash s l1)); [|apply IH].
    rewrite lex_with_stash. now rewrite Hlex.
Qed.

Lemma lexes_end l tokens l' l'' :
  lexes l tokens l' -> with_stash [] l'' = with_stash [] l' ->
  lexes l tokens l''.
Proof.
  induction 1 as [l l' E|l token l1 tokens l' Hlex _ IH]; intros E'.
  - apply lexes_nil. now rewrite E'.
  - apply (lexes_cons _ _ l1); auto.
Qed.

Lemma lexes_same l0 l tokens l' :
  with_stash [] l0 = with_stash [] l -> lexes l tokens l' ->
  lexes l0 tokens l'.
Proof.
  intros E H. rewrite (with_stash_same _ _ E).
  rewrite <- (with_stash_eta l'). now apply lexes_with_stash.
Qed.

Lemma lexes_app l a l1 b l2 :
  lexes l a l1 -> lexes l1 b l2 -> lexes l (a ++ b) l2.
Proof.
  induction 1 as [l l1 E|l token l0 tokens l1 Hlex _ IH]; intros H.
  - cbn [app]. now apply (lexes_same _ l1).
  - cbn [app]. apply (lexes_cons _ _ l0); auto.
Qed.

Ltac lexes_chain :=
  repeat (eapply lexes_app; [eassumption|]); eassumption.

Lemma lexes_one l token l' s :
  lex l = Normal token l' -> lexes l [token] (with_stash s l').
Proof.
  intros E. apply (lexes_cons _ _ l'); [exact E|]. now apply lexes_nil.
Qed.

Lemma peek_lexes l x l' :
  peek l = Normal x l' ->
  exists more,
    lexes l more l' /\ stash l' = stash l ++ more
    /\ x = hd_error (stash l').
Proof.
  rewrite peek_unfold. unfold bind. cbn [lookahead_loop].
  assert (forall s : list Token, nth_error s 0 = hd_error s) as Hnth
      by now intros [|t s].
  destruct (hasEnded l).
  - intros [= <- <-]. exists []. rewrite app_nil_r.
    split; [now apply lexes_nil|]. split; [reflexivity|apply Hnth].
  - destruct (lex l) as [token l1| |] eqn:E; try discriminate.
    intros [= <- <-]. exists [token]. split.
    + exact (lexes_one _ _ _ (stash l1 ++ [token]) E).
    + apply lex_Normal in E. destruct E as (_ & E & _).
      cbn [push stash]. rewrite E. split; [reflexivity|apply Hnth].
Qed.

Lemma is_lexes v l b l' :
  is_ v l = Normal b l' ->
  exists more token rest,
    lexes l more l' /\ stash l' = stash l ++ more
    /\ stash l' = token :: rest
    /\ b = jsstring_eqb (value token) v.
Proof.
  intros H. unfold is_ in H. apply bind_Normal in H.
  destruct H as (x & l1 & H1 & H). apply peek_lexes in H1.
  destruct H1 as (more & L & S & ->).
  destruct (stash l1) as [|token rest] eqn:E; [discriminate|].
  cbn [hd_error] in H. injection H as <- <-.
  exists more, token, rest. now rewrite E.
Qed.

Lemma next_lexes l r l' :
  next l = Normal r l' ->
  exists more,
    lexes l more l'
    /\ match result r with
       | Some token => stash l ++ more = token :: stash l'
       | None => True
       end.
Proof.
  unfold next. destruct (stash l) as [|t ts] eqn:Es.
  - destruct (hasEnded l).
    + intros [= <- <-]. exists []. split; [now apply lexes_nil|exact I].
    + unfold bind. destruct (lex l) as [token l1| |] eqn:E;
        try discriminate.
      intros [= <- <-]. exists [token]. cbn [result]. split.
      * rewrite <- (with_stash_eta l1).
        exact (lexes_one _ _ _ _ E).
      * apply lex_Normal in E. destruct E as (_ & E & _).
        now rewrite E, Es.
  - intros [= <- <-]. exists []. cbn [result shift stash].
    split; [now apply lexes_nil|]. now rewrite Es, app_nil_r.
Qed.

Lemma ensure_lexes arguments l token l' :
  ensure arguments l = Normal token l' ->
  exists more,
    lexes l more l' /\ stash l ++ more = token :: stash l'
    /\ In (value token) arguments.
Proof.
  intros H. unfold ensure in H. apply bind_Normal in H.
  destruct H as (r & l1 & H1 & H). apply next_lexes in H1.
  destruct H1 as (more & L & S).
  destruct (result r) as [t|]; [|discriminate].
  destruct (negb _) eqn:F; [discriminate|]. injection H as <- <-.
  exists more. split; [exact L|]. split; [exact S|].
  apply negb_false_iff in F. unfold ensure_found in F.
  apply existsb_exists in F. destruct F as (a & Hin & Heq).
  apply jsstring_eqb_eq in Heq. now rewrite Heq.
Qed.

Lemma ensureType_lexes arguments l token l' :
  ensureType arguments l = Normal token l' ->
  exists more,
    lexes l more l' /\ stash l ++ more = token :: stash l'
    /\ In (type token) arguments.
Proof.
  intros H. unfold ensureType in H. apply bind_Normal in H.
  destruct H as (r & l1 & H1 & H). apply next_lexes in H1.
  destruct H1 as (more & L & S).
  destruct (result r) as [t|]; [|discriminate].
  destruct (negb _) eqn:F; [discriminate|]. injection H as <- <-.
  exists more. split; [exact L|]. split; [exact S|].
  apply negb_false_iff in F. unfold ensureType_found in F.
  apply existsb_exists in F. destruct F as (ty & Hin & Heq).
  destruct (type t), ty; try discriminate; exact Hin.
Qed.

Lemma separator_lexes v l c rest (u : unit) l' :
  stash l = c :: rest ->
  (if negb (jsstring_eqb (value c) v) then ensure [js ","] ;;; ret tt
   else ret tt) l = Normal u l' ->
  exists more,
    lexes l more l' /\ separated v (stash l ++ more) (stash l').
Proof.
  intros Es. destruct (jsstring_eqb (value c) v) eqn:Ec; cbn [negb].
  - intros [= _ <-]. exists []. rewrite app_nil_r.
    split; [now apply lexes_nil|]. exists c, rest.
    split; [exact Es|]. left. now apply jsstring_eqb_eq in Ec.
  - intros H. apply bind_Normal in H. destruct H as (t & l1 & H1 & H).
    injection H as _ <-. apply ensure_lexes in H1.
    destruct H1 as (more & L & S & [Hv|[]]). exists more.
    split; [exact L|]. rewrite S. rewrite Es in S. injection S as -> S.
    exists t, (stash l1). split; [reflexivity|]. right.
    apply jsstring_eqb_false in Ec. auto.
Qed.

(** More tokens behind change nothing of what is read. *)
Lemma separated_app v tokens tokens' extra :
  separated v tokens tokens' ->
  separated v (tokens ++ extra) (tokens' ++ extra).
Proof.
  intros (c & rest & -> & H). exists c, (rest ++ extra).
  split; [reflexivity|].
  destruct H as [[Hv ->]|(Hv & Hc & ->)]; [left|right]; auto.
Qed.

Lemma parses_app :
  (forall tokens node tokens',
     parses tokens node tokens' ->
     forall extra, parses (tokens ++ extra) node (tokens' ++ extra))
  /\ (forall tokens elements tokens',
        parses_elements tokens elements tokens' ->
        forall extra,
          parses_elements (tokens ++ extra) elements (tokens' ++ extra))
  /\ (forall tokens properties tokens',
        parses_members tokens properties tokens' ->
        forall extra,
          parses_members (tokens ++ extra) properties (tokens' ++ extra)).
Proof.
  apply parses_mutind.
  - intros token tokens node Ho Ha Hlit extra. now apply parses_literal.
  - intros s tokens elements e tokens' Hv _ IH extra.
    cbn [app]. apply parses_array; [exact Hv|]. exact (IH extra).
  - intros s tokens properties e tokens' Hv _ IH extra.
    cbn [app]. apply parses_object; [exact Hv|]. exact (IH extra).
  - intros token tokens Hv extra. now apply elements_end.
  - intros token tokens element tokens1 tokens2 elements tokens3
      Hv _ IH1 Hsep _ IH2 extra.
    cbn [app]. apply (elements_more _ _ _ (tokens1 ++ extra)
                        (tokens2 ++ extra)); auto.
    + exact (IH1 extra).
    + now apply separated_app.
  - intros token tokens Hv extra. now apply members_end.
  - intros key colon tokens value' tokens1 tokens2 properties tokens3
      Hk Hty Hc _ IH1 Hsep _ IH2 extra.
    cbn [app]. apply (members_more _ _ _ _ (tokens1 ++ extra)
                        (tokens2 ++ extra)); auto.
    now apply separated_app.
Qed.

(** What the parser returns on a Lexer that lexes on demand is read from
    the tokens it held and has lexed, and the stash holds the rest. *)
Section OnDemand.

Variable pv : M Node.
Hypothesis pv_lexes : forall l node l',
  pv l = Normal node l' ->
  exists more,
    lexes l more l' /\ parses (stash l ++ more) node (stash l').

Lemma parseArrayLiteral_while_lexes fuel : forall elements l elements' l',
  parseArrayLiteral_while pv fuel elements l = Normal elements' l' ->
  exists more added,
    lexes l more l' /\ elements' = elements ++ added
    /\ parses_elements (stash l ++ more) added (stash l').
Proof.
  induction fuel as [|fuel IH]; intros elements l elements' l' H;
    [discriminate|].
  cbn [parseArrayLiteral_while] in H.
  apply bind_Normal in H. destruct H as (closing & l1 & H1 & H).
  apply is_lexes in H1.
  destruct H1 as (m1 & t & r1 & L1 & S1 & S1' & ->).
  destruct (jsstring_eqb (value t) (js "]")) eqn:Ec; cbn [negb] in H.
  { injection H as <- <-. exists m1, []. rewrite app_nil_r.
    split; [exact L1|]. split; [reflexivity|]. rewrite <- S1, S1'.
    apply elements_end. now apply jsstring_eqb_eq. }
  apply bind_Normal in H. destruct H as (element & l2 & H2 & H).
  apply pv_lexes in H2. destruct H2 as (m2 & L2 & P2).
  apply bind_Normal in H. destruct H as (closing & l3 & H3 & H).
  apply is_lexes in H3.
  destruct H3 as (m3 & c & r3 & L3 & S3 & S3' & ->).
  apply bind_Normal in H. destruct H as (u & l4 & H4 & H).
  apply (separator_lexes _ _ _ _ _ _ S3') in H4.
  destruct H4 as (m4 & L4 & Sep).
  apply IH in H. destruct H as (m5 & added & L5 & -> & PE).
  exists (m1 ++ m2 ++ m3 ++ m4 ++ m5), (element :: added).
  split; [lexes_chain|].
  split; [now rewrite <- app_assoc|].
  rewrite (app_assoc (stash l)), <- S1.
  apply (proj1 parses_app) with (extra := m3 ++ m4 ++ m5) in P2.
  rewrite <- app_assoc in P2. rewrite S1' in *. cbn [app] in *.
  apply (elements_more _ _ _ (stash l2 ++ m3 ++ m4 ++ m5)
           (stash l4 ++ m5)).
  - now apply jsstring_eqb_false.
  - exact P2.
  - apply separated_app with (extra := m5) in Sep.
    rewrite S3, <- !app_assoc in Sep. exact Sep.
  - exact PE.
Qed.

Lemma parseObjectLiteral_while_lexes fuel :
  forall properties l properties' l',
  parseObjectLiteral_while pv fuel properties l = Normal properties' l' ->
  exists more added,
    lexes l more l' /\ properties' = properties ++ added
    /\ parses_members (stash l ++ more) added (stash l').
Proof.
  induction fuel as [|fuel IH]; intros properties l properties' l' H;
    [discriminate|].
  cbn [parseObjectLiteral_while] in H.
  apply bind_Normal in H. destruct H as (closing & l1 & H1 & H).
  apply is_lexes in H1.
  destruct H1 as (m1 & t & r1 & L1 & S1 & S1' & ->).
  destruct (jsstring_eqb (value t) (js "}")) eqn:Ec; cbn [negb] in H.
  { injection H as <- <-. exists m1, []. rewrite app_nil_r.
    split; [exact L1|]. split; [reflexivity|]. rewrite <- S1, S1'.
    apply members_end. now apply jsstring_eqb_eq. }
  apply bind_Normal in H. destruct H as (key & l2 & H2 & H).
  apply ensureType_lexes in H2. destruct H2 as (m2 & L2 & S2 & Hty).
  apply bind_Normal in H. destruct H as (colon & l3 & H3 & H).
  apply ensure_lexes in H3. destruct H3 as (m3 & L3 & S3 & [Hcolon|[]]).
  apply bind_Normal in H. destruct H as (value' & l4 & H4 & H).
  apply pv_lexes in H4. destruct H4 as (m4 & L4 & P4).
  apply bind_Normal in H. destruct H as (closing & l5 & H5 & H).
  apply is_lexes in H5.
  destruct H5 as (m5 & c & r5 & L5 & S5 & S5' & ->).
  apply bind_Normal in H. destruct H as (u & l6 & H6 & H).
  apply (separator_lexes _ _ _ _ _ _ S5') in H6.
  destruct H6 as (m6 & L6 & Sep).
  apply IH in H. destruct H as (m7 & added & L7 & -> & PM).
  exists (m1 ++ m2 ++ m3 ++ m4 ++ m5 ++ m6 ++ m7). eexists (_ :: added).
  split; [lexes_chain|].
  split; [now rewrite <- app_assoc|].
  rewrite (app_assoc (stash l)), <- S1, (app_assoc (stash l1)), S2.
  cbn [app]. rewrite (app_assoc (stash l2)), S3. cbn [app].
  apply (proj1 parses_app) with (extra := m5 ++ m6 ++ m7) in P4.
  rewrite <- app_assoc in P4.
  apply (members_more _ _ _ _ (stash l4 ++ m5 ++ m6 ++ m7)
           (stash l6 ++ m7)).
  - rewrite S1' in S2. cbn [app] in S2. injection S2 as <- _.
    now apply jsstring_eqb_false.
  - destruct Hty as [<-|[<-|[]]]; auto.
  - now symmetry.
  - exact P4.
  - apply separated_app with (extra := m7) in Sep.
    rewrite S5, <- !app_assoc in Sep. exact Sep.
  - exact PM.
Qed.

End OnDemand.

Lemma parseValue_lexes fuel : forall l node l',
  parseValue fuel l = Normal node l' ->
  exists more,
    lexes l more l' /\ parses (stash l ++ more) node (stash l').
Proof.
  induction fuel as [|fuel IH]; intros l node l' H; [discriminate|].
  cbn [parseValue] in H.
  apply bind_Normal in H. destruct H as (x & l1 & H1 & H).
  apply peek_lexes in H1. destruct H1 as (m1 & L1 & S1 & ->).
  destruct (stash l1) as [|token ts1] eqn:Es1; [discriminate|].
  rewrite <- Es1 in S1. cbn [hd_error] in H.
  apply bind_Normal in H. destruct H as (object & l2 & H2 & H).
  apply is_lexes in H2.
  destruct H2 as (m2 & t2 & r2 & L2 & S2 & S2' & ->).
  assert (t2 = token) as ->.
  { rewrite S2, Es1 in S2'. now injection S2' as ->. }
  destruct (jsstring_eqb (value token) (js "{")) eqn:Eo.
  { unfold parseObjectLiteral in H.
    apply bind_Normal in H. destruct H as (s & l3 & H3 & H).
    apply ensure_lexes in H3. destruct H3 as (m3 & L3 & S3 & _).
    apply bind_Normal in H. destruct H as (properties & l4 & H4 & H).
    apply (parseObjectLiteral_while_lexes _ IH) in H4.
    destruct H4 as (m4 & added & L4 & -> & PM). cbn [app] in H.
    apply bind_Normal in H. destruct H as (e & l5 & H5 & H).
    apply ensure_lexes in H5. destruct H5 as (m5 & L5 & S5 & _).
    injection H as <- <-.
    exists (m1 ++ m2 ++ m3 ++ m4 ++ m5).
    split; [lexes_chain|].
    rewrite (app_assoc (stash l)), <- S1, (app_assoc (stash l1)), <- S2,
      (app_assoc (stash l2)), S3.
    assert (s = token) as ->.
    { rewrite S2' in S3. cbn [app] in S3. now injection S3 as <- _. }
    cbn [app]. apply parses_object; [now apply jsstring_eqb_eq|].
    apply (proj2 (proj2 parses_app)) with (extra := m5) in PM.
    rewrite <- app_assoc, S5 in PM. exact PM. }
  apply bind_Normal in H. destruct H as (array & l3 & H3 & H).
  apply is_lexes in H3.
  destruct H3 as (m3 & t3 & r3 & L3 & S3 & S3' & ->).
  assert (t3 = token) as ->.
  { rewrite S3, S2' in S3'. now injection S3' as ->. }
  destruct (jsstring_eqb (value token) (js "[")) eqn:Ea.
  { unfold parseArrayLiteral in H.
    apply bind_Normal in H. destruct H as (s & l4 & H4 & H).
    apply ensure_lexes in H4. destruct H4 as (m4 & L4 & S4 & _).
    apply bind_Normal in H. destruct H as (elements & l5 & H5 & H).
    apply (parseArrayLiteral_while_lexes _ IH) in H5.
    destruct H5 as (m5 & added & L5 & -> & PE). cbn [app] in H.
    apply bind_Normal in H. destruct H as (e & l6 & H6 & H).
    apply ensure_lexes in H6. destruct H6 as (m6 & L6 & S6 & _).
    injection H as <- <-.
    exists (m1 ++ m2 ++ m3 ++ m4 ++ m5 ++ m6).
    split; [lexes_chain|].
    rewrite (app_assoc (stash l)), <- S1, (app_assoc (stash l1)), <- S2,
      (app_assoc (stash l2)), <- S3, (app_assoc (stash l3)), S4.
    assert (s = token) as ->.
    { rewrite S3' in S4. cbn [app] in S4. now injection S4 as <- _. }
    cbn [app]. apply parses_array; [now apply jsstring_eqb_eq|].
    apply (proj1 (proj2 parses_app)) with (extra := m6) in PE.
    rewrite <- app_assoc, S6 in PE. exact PE. }
  destruct (literal token) as [leaf|] eqn:El; [|discriminate].
  apply bind_Normal in H. destruct H as (r & l4 & H4 & H).
  injection H as <- <-. unfold next in H4. rewrite S3' in H4.
  injection H4 as _ <-.
  exists (m1 ++ m2 ++ m3). split.
  { apply (lexes_app _ _ l1); [exact L1|].
    apply (lexes_app _ _ l2); [exact L2|].
    now apply (lexes_end _ _ l3). }
  rewrite (app_assoc (stash l)), <- S1, (app_assoc (stash l1)), <- S2,
    <- S3.
  cbn [shift stash]. rewrite S3'. cbn [tl].
  apply parses_literal; auto; now apply jsstring_eqb_false.
Qed.

(** What [parse] returns is read from tokens lexed from the input. *)
Lemma parse_lexes input root :
  outcome (parse input) = Some (inl root) ->
  exists tokens l' rest,
    lexes (new_Lexer input) tokens l' /\ parses tokens root rest.
Proof.
  intros H. apply outcome_node in H. destruct H as (p & l & H & <-).
  unfold parse, Parser_parse in H. apply bind_Normal in H.
  destruct H as (node & l' & H & E). injection E as <- _.
  apply parseValue_lexes in H. destruct H as (more & L & P).
  exists more, l', (stash l'). now split.
Qed.

(** ** The members of the objects of a tree *)

Lemma member_of_behind before tokens property :
  member_of tokens property -> member_of (before ++ tokens) property.
Proof.
  intros (b & key & colon & after & value' & after' & -> & H).
  exists (before ++ b), key, colon, after, value', after'.
  split; [now rewrite app_assoc|exact H].
Qed.

Lemma separated_suffix v tokens tokens' :
  separated v tokens tokens' -> exists read, tokens = read ++ tokens'.
Proof.
  intros (c & rest & -> & [[_ ->]|(_ & _ & ->)]);
    [now exists []|now exists [c]].
Qed.

Lemma parses_suffix :
  (forall tokens node tokens',
     parses tokens node tokens' -> exists read, tokens = read ++ tokens')
  /\ (forall tokens elements tokens',
        parses_elements tokens elements tokens' ->
        exists read, tokens = read ++ tokens')
  /\ (forall tokens properties tokens',
        parses_members tokens properties tokens' ->
        exists read, tokens = read ++ tokens').
Proof.
  apply parses_mutind.
  - intros token tokens node _ _ _. now exists [token].
  - intros s tokens elements e tokens' _ _ (read & ->).
    exists (s :: read ++ [e]). cbn [app]. now rewrite <- app_assoc.
  - intros s tokens properties e tokens' _ _ (read & ->).
    exists (s :: read ++ [e]). cbn [app]. now rewrite <- app_assoc.
  - intros token tokens _. now exists [].
  - intros token tokens element tokens1 tokens2 elements tokens3
      _ _ (r1 & E1) Hsep _ (r3 & ->).
    apply separated_suffix in Hsep. destruct Hsep as (r2 & ->).
    exists (r1 ++ r2 ++ r3). rewrite E1. now rewrite <- !app_assoc.
  - intros token tokens _. now exists [].
  - intros key colon tokens value' tokens1 tokens2 properties tokens3
      _ _ _ _ (r1 & ->) Hsep _ (r3 & ->).
    apply separated_suffix in Hsep. destruct Hsep as (r2 & ->).
    exists (key :: colon :: r1 ++ r2 ++ r3). cbn [app].
    now rewrite <- !app_assoc.
Qed.

Lemma parses_members_of :
  (forall tokens node tokens',
     parses tokens node tokens' ->
     forall property, In property (members node) ->
     member_of tokens property)
  /\ (forall tokens elements tokens',
        parses_elements tokens elements tokens' ->
        forall element property,
          In element elements -> In property (members element) ->
          member_of tokens property)
  /\ (forall tokens properties tokens',
        parses_members tokens properties tokens' ->
        forall property, In property properties ->
        member_of tokens property).
Proof.
  apply parses_mutind.
  - intros token tokens node _ _ Hlit property Hin. exfalso.
    unfold literal in Hlit.
    destruct (type token); try discriminate; injection Hlit as <-;
      exact Hin.
  - intros s tokens elements e tokens' _ _ IH property Hin.
    unfold members in Hin. cbn [nodes flat_map app] in Hin.
    apply in_flat_map in Hin. destruct Hin as (n & Hn & Hin).
    apply in_flat_map in Hn. destruct Hn as (element & He & Hn).
    apply (member_of_behind [s]). apply (IH element); [exact He|].
    unfold members. apply in_flat_map. eauto.
  - intros s tokens properties e tokens' _ _ IH property Hin.
    unfold members in Hin. cbn [nodes flat_map app] in Hin.
    rewrite app_nil_r in Hin.
    apply (member_of_behind [s]). now apply IH.
  - intros token tokens _ element property [].
  - intros token tokens element tokens1 tokens2 elements tokens3
      _ H1 IH1 Hsep H2 IH2 element' property [<-|He] Hin.
    + now apply IH1.
    + apply (proj1 parses_suffix) in H1. destruct H1 as (r1 & ->).
      apply separated_suffix in Hsep. destruct Hsep as (r2 & ->).
      rewrite app_assoc. apply member_of_behind. eauto.
  - intros token tokens _ property [].
  - intros key colon tokens value' tokens1 tokens2 properties tokens3
      _ Hty Hc H1 _ Hsep _ IH2 property [<-|Hin].
    + exists [], key, colon, tokens, value', tokens1. auto.
    + pose proof H1 as H1'.
      apply (proj1 parses_suffix) in H1'. destruct H1' as (r1 & ->).
      apply separated_suffix in Hsep. destruct Hsep as (r2 & ->).
      specialize (IH2 _ Hin).
      apply (member_of_behind (key :: colon :: r1 ++ r2)) in IH2.
      cbn [app] in IH2. now rewrite <- app_assoc in IH2.
Qed.

(** One sequence of tokens reads as one value. *)
Lemma parses_functional tokens node rest node' rest' :
  parses tokens node rest -> parses tokens node' rest' -> node' = node.
Proof.
  intros H H'.
  destruct (proj1 parses_complete _ _ _ H (ended [] tokens)
              (hasEnded_ended _ _) eq_refl) as (fuel & E).
  destruct (proj1 parses_complete _ _ _ H' (ended [] tokens)
              (hasEnded_ended _ _) eq_refl) as (fuel' & E').
  assert (parseValue (Nat.max fuel fuel') (ended [] tokens)
          = parseValue fuel (ended [] tokens)) as M.
  { apply parseValue_more_fuel; [lia|]. now rewrite E. }
  assert (parseValue (Nat.max fuel fuel') (ended [] tokens)
          = parseValue fuel' (ended [] tokens)) as M'.
  { apply parseValue_more_fuel; [lia|]. now rewrite E'. }
  rewrite M, E, E' in M'. now injection M' as ->.
Qed.

(** The value of a member has no [end] exactly when it is a null leaf. *)
Lemma parses_no_end tokens node rest :
  parses tokens node rest ->
  Node_end node = None <-> Node_type node = js "NullLiteral".
Proof.
  destruct 1 as [token tokens node _ _ Hlit| |]; [|easy|easy].
  unfold literal in Hlit.
  destruct (type token); try discriminate; injection Hlit as <-; easy.
Qed.

(** Every Property of a parsed tree is built for a member that stands in
    the tokens lexed from the input. *)
Lemma parse_members input root properties s e property :
  outcome (parse input) = Some (inl root) ->
  In (ObjectLiteral properties s e) (nodes root) ->
  In property properties ->
  exists tokens l',
    lexes (new_Lexer input) tokens l' /\ member_of tokens property.
Proof.
  intros H Hn Hin. apply parse_lexes in H.
  destruct H as (tokens & l' & rest & L & P). exists tokens, l'.
  split; [exact L|]. apply (proj1 parses_members_of _ _ _ P).
  unfold members. apply in_flat_map. eauto.
Qed.

(** The tokens lexed from a Lexer start one after the other: a token
    stands among them once. *)
Lemma lexes_once l tokens l' :
  Lexer_ok l -> lexes l tokens l' ->
  Forall (fun token => index l <= start token) tokens
  /\ forall before token after before2 after2,
       tokens = before ++ token :: after ->
       tokens = before2 ++ token :: after2 ->
       before2 = before.
Proof.
  intros Hok H. induction H as [l l' E|l token l1 tokens l' Hlex _ IH].
  - split; [constructor|]. now intros [|t b] token after before2 after2.
  - pose proof (lex_text l Hok) as Ht. unfold wp in Ht. rewrite Hlex in Ht.
    destruct Ht as (_ & (Hne & Hend & _) & Hok1 & _ & _ & Hlo & _ & Hhi & _).
    destruct (IH Hok1) as [Hall Hone].
    assert (start token < end_ token) as Hlt.
    { rewrite Hend. destruct (value token); [easy|cbn; lia]. }
    assert (forall t, In t tokens -> start token < start t) as Hafter.
    { intros t Hin. rewrite Forall_forall in Hall.
      specialize (Hall t Hin). lia. }
    split.
    + constructor; [exact Hlo|]. eapply Forall_impl; [|exact Hall].
      intros t Ht. cbv beta in Ht. lia.
    + intros [|x b] t after [|y b2] after2 E1 E2; cbn [app] in E1, E2.
      * reflexivity.
      * exfalso. injection E1 as Et _. injection E2 as _ E2.
        pose proof (Hafter t) as Hx. rewrite E2 in Hx.
        specialize (Hx (in_elt _ _ _)). rewrite Et in Hx. lia.
      * exfalso. injection E2 as Et _. injection E1 as _ E1.
        pose proof (Hafter t) as Hx. rewrite E1 in Hx.
        specialize (Hx (in_elt _ _ _)). rewrite Et in Hx. lia.
      * injection E1 as Ex E1. injection E2 as Ey E2.
        rewrite <- Ex, <- Ey. f_equal.
        exact (Hone _ _ _ _ _ E1 E2).
Qed.

(** * The claims *)

(** C1 (counterexample): the Property built for the member of [{"a":1}]
    carries [start = 1], the start of its key, and [end = 6], the end of
    its value: the span is assigned on the node. *)
Lemma C1_counterexample :
  exists property,
    outcome (parse (jsq "{'a':1}"))
    = Some (inl (ObjectLiteral [property] 0 7))
    /\ Property_start property = Some 1
    /\ Property_end property = Some 6.
Proof.
  eexists. split; [vm_compute; reflexivity|]. split; reflexivity.
Qed.

(** C1 (amended): the Property constructor keeps the type tag
    ['Property'], the key token and the [start] and [end] it is given, and
    drops only its [value] argument.  Every Property of a parsed tree has
    the tag, a key of kind string or number and [start = key.start]; and
    its [end] is the [end] of the value of its member: among the tokens
    lexed from the input the key stands once, a colon follows it, the
    tokens after the colon read as one value only, and [end] is the [end]
    of that value, undefined exactly when the value is a null leaf. *)
Theorem C1_property_keeps_key_and_span :
  (forall key value start end_,
     new_Property key value start end_
     = {| Property_type := js "Property"; Property_key := key;
          Property_start := start; Property_end := end_ |}
     /\ forall value',
          new_Property key value' start end_
          = new_Property key value start end_)
  /\ (forall input root properties start' end' property,
        outcome (parse input) = Some (inl root) ->
        In (ObjectLiteral properties start' end') (nodes root) ->
        In property properties ->
        Property_type property = js "Property"
        /\ (type (Property_key property) = TOKEN_STRING
            \/ type (Property_key property) = TOKEN_NUMBER)
        /\ Property_start property = Some (start (Property_key property))
        /\ exists tokens l' before colon after value' after',
             lexes (new_Lexer input) tokens l'
             /\ tokens = before ++ Property_key property :: colon :: after
             /\ (forall before2 after2,
                   tokens = before2 ++ Property_key property :: after2 ->
                   before2 = before)
             /\ value colon = js ":"
             /\ parses after value' after'
             /\ (forall node rest, parses after node rest -> node = value')
             /\ Property_end property = Node_end value'
             /\ (Property_end property = None
                 <-> Node_type value' = js "NullLiteral")).
Proof.
  split; [intros; split; reflexivity|].
  intros input root properties start' end' property Hparse Hnode Hin.
  destruct (parse_members _ _ _ _ _ _ Hparse Hnode Hin)
    as (tokens & l' & L & before & key & colon & after & value' & after'
        & -> & Hty & Hc & P & ->).
  cbn [new_Property Property_type Property_key Property_start Property_end].
  split; [reflexivity|]. split; [exact Hty|]. split; [reflexivity|].
  exists (before ++ key :: colon :: after), l', before, colon, after,
    value', after'.
  split; [exact L|]. split; [reflexivity|]. split.
  { intros before2 after2 E.
    exact (proj2 (lexes_once _ _ _ (Lexer_ok_new input) L)
             _ _ _ _ _ eq_refl E). }
  split; [exact Hc|]. split; [exact P|]. split.
  { intros node rest H. exact (parses_functional _ _ _ _ _ P H). }
  split; [reflexivity|]. exact (parses_no_end _ _ _ P).
Qed.

Lemma C1_property_keeps_key_and_span_witness :
  let key := {| type := TOKEN_STRING; value := jsq "'a'";
                start := 1; end_ := 4 |} in
  let property :=
    new_Property key (NumericLiteral (js "1") 5 6) (Some 1) (Some 6) in
  let input := jsq "{'a':1}" in
  outcome (parse input) = Some (inl (ObjectLiteral [property] 0 7))
  /\ Property_type property = js "Property"
  /\ (type (Property_key property) = TOKEN_STRING
      \/ type (Property_key property) = TOKEN_NUMBER)
  /\ Property_start property = Some (start (Property_key property))
  /\ exists tokens l' before colon after value' after',
       lexes (new_Lexer input) tokens l'
       /\ tokens = before ++ Property_key property :: colon :: after
       /\ (forall before2 after2,
             tokens = before2 ++ Property_key property :: after2 ->
             before2 = before)
       /\ value colon = js ":"
       /\ parses after value' after'
       /\ (forall node rest, parses after node rest -> node = value')
       /\ Property_end property = Node_end value'
       /\ (Property_end property = None
           <-> Node_type value' = js "NullLiteral").
Proof.
  intros key property input. split; [vm_compute; reflexivity|].
  apply (proj2 C1_property_keeps_key_and_span input
           (ObjectLiteral [property] 0 7) [property] 0 7 property).
  - vm_compute; reflexivity.
  - simpl; auto.
  - simpl; auto.
Defined.

(** C2 (failing input): on the source [1 @] the first [peek] returns
    the token [1] and leaves it in the stash; the second [peek] lexes
    past it and throws on [@], although the next token is buffered and
    [next] still yields it.  On a source of whitespace only, [peek] throws
    instead of returning null. *)
Theorem C2_second_peek_throws :
  let token := {| type := TOKEN_NUMBER; value := js "1";
                  start := 0; end_ := 1 |} in
  (exists l,
     peek (new_Lexer (js "1 @")) = Normal (Some token) l
     /\ stash l = [token]
     /\ peek l = Throw (Error (js "Unexpected token '@'"))
     /\ next l = Normal {| done := false; result := Some token |} (shift l))
  /\ peek (new_Lexer (js " "))
     = Throw (Error (js "Unexpected token 'undefined'")).
Proof.
  split; [|vm_compute; reflexivity].
  eexists. split; [vm_compute; reflexivity|].
  split; [reflexivity|]. split; vm_compute; reflexivity.
Qed.

(** C3 (failing input): [parse] of [1 @] raises the lexical error of
    the trailing [@], because [parseValue] peeks past the value; with the
    trailing text [456] of the claim's example nothing is raised. *)
Theorem C3_trailing_text_can_raise :
  outcome (parse (js "1 @"))
  = Some (inr (Error (js "Unexpected token '@'")))
  /\ outcome (parse (js "123 456"))
     = Some (inl (NumericLiteral (js "123") 0 3)).
Proof. split; vm_compute; reflexivity. Qed.

(** C4 (failing input): the node of [null] has [start = 0] and an
    undefined [end], and so has the element of [[null]]; the Property of
    [{"x":null}] has an undefined [end] too.  Wherever the [end] is
    defined the invariants hold: see [parse_spans]. *)
Theorem C4_null_literal_has_no_end :
  outcome (parse (js "null")) = Some (inl (NullLiteral 0 None))
  /\ Node_end (NullLiteral 0 None) = None
  /\ outcome (parse (js "[null]"))
     = Some (inl (ArrayLiteral [NullLiteral 1 None] 0 6))
  /\ exists property,
       outcome (parse (jsq "{'x':null}"))
       = Some (inl (ObjectLiteral [property] 0 10))
       /\ Property_end property = None.
Proof.
  split; [vm_compute; reflexivity|]. split; [reflexivity|].
  split; [vm_compute; reflexivity|].
  eexists. split; [vm_compute; reflexivity|reflexivity].
Qed.

(** C5 (counterexample): a form feed (code 12) before [1] is skipped as
    whitespace, and it is none of tab, line feed, carriage return and
    space. *)
Lemma C5_counterexample :
  let l := new_Lexer [12%N; 49%N] in
  index (skipWhitespace l) = 1
  /\ charCodeAt (source l) 0 = Some 12%N
  /\ ~ In 12%N [TAB; LF; CR; SPACE]
  /\ outcome (parse [12%N; 49%N]) = Some (inl (NumericLiteral (js "1") 1 2)).
Proof.
  split; [reflexivity|]. split; [reflexivity|].
  split; [|vm_compute; reflexivity].
  intros [H|[H|[H|[H|[]]]]]; discriminate H.
Qed.

(** C5 (amended): [lex] skips whitespace before trying the grammar and
    again after a token, and [skipWhitespace] moves the index over exactly
    the run of code units from 0 to 32 at the index (a carriage return with
    the line feed after it in one step): every unit it skips is at most 32,
    and it stops at the end of the source or at a unit above 32. *)
Theorem C5_skipWhitespace_skips_codes_up_to_32 :
  (forall l, lex l = lex_grammar grammar (skipWhitespace l))
  /\ (forall l token l',
        lex l = Normal token l' -> exists l1, l' = skipWhitespace l1)
  /\ (forall l,
        let l' := skipWhitespace l in
        source l' = source l /\ stash l' = stash l
        /\ index l <= index l'
        /\ (forall j, index l <= j < index l' ->
              exists c, charCodeAt (source l) j = Some c /\ (c <= 32)%N)
        /\ (forall c, charCodeAt (source l) (index l') = Some c ->
              (32 < c)%N)).
Proof.
  split; [reflexivity|]. split.
  - intros l token l'. unfold lex. rewrite lex_grammar_spec.
    destruct (grammar_match _ _) as [[ty m]|]; [|easy].
    intros [= <- <-]. eauto.
  - intros l l'. subst l'. rewrite index_skipWhitespace.
    destruct (skipWhitespace_loop_spec (length (source l)) (source l)
                (index l)) as (H1 & H2 & H3 & H4); [lia|].
    repeat split; auto.
Qed.

Lemma C5_skipWhitespace_skips_codes_up_to_32_witness :
  let l := new_Lexer (js "  1 ") in
  lex l = Normal {| type := TOKEN_NUMBER; value := js "1";
                    start := 2; end_ := 3 |}
                 {| index := 4; source := js "  1 "; input := [];
                    stash := [] |}
  /\ exists l1,
       {| index := 4; source := js "  1 "; input := []; stash := [] |}
       = skipWhitespace l1.
Proof.
  intros l. split; [vm_compute; reflexivity|].
  apply (proj1 (proj2 C5_skipWhitespace_skips_codes_up_to_32) l
           {| type := TOKEN_NUMBER; value := js "1"; start := 2; end_ := 3 |}).
  vm_compute; reflexivity.
Defined.

(** C6: the match of the string entry of the grammar is a string of the
    specification (a double quote, string characters, a double quote) that
    the input begins with, and every such string is matched; [lex] returns
    string tokens with exactly these lexemes.  So a text that opens a
    string and has a raw line feed or a raw [b] (or any other character
    that begins no string character and is no double quote) where a string
    character is due yields no string token, and its parse throws, as does
    the parse of every text that begins with a double quote and with no
    string. *)
Theorem C6_string_token_grammar :
  (forall s m,
     String_match s S_STRING = Some m <->
     spec_string m /\ exists rest, s = m ++ rest)
  /\ (forall l token l',
        lex l = Normal token l' -> type token = TOKEN_STRING ->
        spec_string (value token))
  /\ (forall m rest,
        spec_string m ->
        exists l,
          lex (new_Lexer (m ++ rest)) = Normal (new_Token TOKEN_STRING m 0) l)
  /\ no_character_start LF /\ no_character_start (code "b")
  /\ (forall body c post,
        spec_string_characters body ->
        no_character_start c -> c <> DQUOTE ->
        String_match (DQUOTE :: body ++ c :: post) S_STRING = None
        /\ exists e,
             outcome (parse (DQUOTE :: body ++ c :: post)) = Some (inr e))
  /\ (forall s,
        ~ (exists m rest, spec_string m /\ DQUOTE :: s = m ++ rest) ->
        exists e, outcome (parse (DQUOTE :: s)) = Some (inr e)).
Proof.
  split; [exact String_match_S_STRING|]. split; [|split].
  - intros l token l' Hlex Hty.
    destruct (lex_type_STRING _ _ _ Hlex Hty) as (s & Hs).
    now apply String_match_S_STRING in Hs.
  - intros m rest Hm.
    assert (String_match (m ++ rest) S_STRING = Some m) as Hs
      by (apply String_match_S_STRING; eauto).
    destruct Hm as (body & _ & ->).
    change ((DQUOTE :: body ++ [DQUOTE]) ++ rest)
      with (DQUOTE :: ((body ++ [DQUOTE]) ++ rest)) in Hs |- *.
    rewrite (lex_fresh DQUOTE _ TOKEN_STRING (DQUOTE :: body ++ [DQUOTE]));
      [eauto|reflexivity|].
    apply grammar_match_STRING. exact Hs.
  - split; [exact no_character_start_LF|].
    split; [exact no_character_start_b|]. split.
    + intros body c post Hbody Hc Hq.
      assert (String_match (DQUOTE :: body ++ c :: post) S_STRING = None)
        as H by now apply String_match_unclosed.
      split; [exact H|]. now apply parse_unclosed_string.
    + intros s Hs. apply parse_unclosed_string.
      destruct (String_match (DQUOTE :: s) S_STRING) as [m|] eqn:E;
        [|reflexivity].
      apply String_match_S_STRING in E. destruct E as [Hm (rest & E)].
      elim Hs. eauto.
Qed.

Lemma C6_string_token_grammar_witness :
  spec_string_characters (js "a")
  /\ no_character_start LF
  /\ LF <> DQUOTE
  /\ String_match (DQUOTE :: js "a" ++ LF :: [DQUOTE]) S_STRING = None
  /\ exists e,
       outcome (parse (DQUOTE :: js "a" ++ LF :: [DQUOTE])) = Some (inr e).
Proof.
  assert (spec_string_characters (js "a")) as H.
  { exists [js "a"]. split; [reflexivity|].
    constructor; [|constructor]. apply character_plain. reflexivity. }
  assert (LF <> DQUOTE) as Hq by discriminate.
  split; [exact H|]. split; [exact no_character_start_LF|].
  split; [exact Hq|].
  apply (proj1 (proj2 (proj2 (proj2 (proj2 (proj2
           C6_string_token_grammar)))))
           (js "a") LF [DQUOTE] H no_character_start_LF Hq).
Defined.

(** C7: the exponent of the number entry is [e] or [E], a sign and
    digits; [lex] returns every numeral with such an exponent as one number
    token (when no digit follows it); and in the lexeme of a number token
    every [e] or [E] is followed by a sign, so an [e] directly followed by
    digits is never part of it: of [1e5] only [1] is the number token. *)
Theorem C7_exponent_needs_a_sign :
  (forall e, Matches S_EXP e <-> spec_exponent e)
  /\ (forall n rest,
        spec_numeral_with_exponent n -> no_digit_head rest ->
        exists l,
          lex (new_Lexer (n ++ rest)) = Normal (new_Token TOKEN_NUMBER n 0) l)
  /\ (forall l token l',
        lex l = Normal token l' -> type token = TOKEN_NUMBER ->
        forall pre c post,
          value token = pre ++ c :: post ->
          c = code "e" \/ c = code "E" ->
          exists sign post',
            post = sign :: post' /\ (sign = code "+" \/ sign = code "-"))
  /\ (exists l,
        lex (new_Lexer (js "1e5"))
        = Normal (new_Token TOKEN_NUMBER (js "1") 0) l).
Proof.
  split; [exact Matches_S_EXP|]. split; [exact lex_numeral|]. split.
  - intros l token l' Hlex Hty pre c post E Hc.
    pose proof (lex_type_NUMBER _ _ _ Hlex Hty) as Hm.
    apply Matches_S_NUMBER_signed in Hm.
    destruct (exponents_signed_spec _ pre c post Hm E)
      as (sign & post' & -> & Hs).
    { destruct Hc as [-> | ->]; reflexivity. }
    exists sign, post'. split; [reflexivity|].
    revert Hs. unfold exponent_sign. char_cases; subst; auto.
  - eexists. vm_compute. reflexivity.
Qed.

Lemma C7_exponent_needs_a_sign_witness :
  spec_numeral_with_exponent (js "123.456e+9")
  /\ no_digit_head []
  /\ exists l,
       lex (new_Lexer (js "123.456e+9" ++ []))
       = Normal (new_Token TOKEN_NUMBER (js "123.456e+9") 0) l.
Proof.
  assert (spec_numeral_with_exponent (js "123.456e+9")) as H.
  { exists (js "123.456"), (js "e+9"). split; [reflexivity|]. split.
    - exists (code "e"), (code "+"), (js "9").
      split; [reflexivity|]. split; [now left|]. split; [now left|].
      now apply spec_digits_forallb.
    - right. exists (js "123"), (js ".456"). split; [reflexivity|]. split.
      + exists [], (js "123"). split; [reflexivity|]. split; [now left|].
        left. exists (code "1"), (js "23"). split; [reflexivity|].
        split; [reflexivity|]. now apply spec_digits_forallb.
      + right. exists (js "456"). split; [reflexivity|].
        now apply spec_digits_forallb. }
  split; [exact H|]. split; [exact I|].
  apply (proj1 (proj2 C7_exponent_needs_a_sign) (js "123.456e+9") [] H).
  exact I.
Defined.

(** C8 (counterexample): the lexical error for [@] at offset 0 and at
    offset 2 is the same message, which names no offset; the message of
    [ensure] names [object Arguments] instead of the expected comma, and
    [ensureType] raises a ReferenceError instead of its message. *)
Lemma C8_counterexample :
  outcome (parse (js "@")) = Some (inr (Error (js "Unexpected token '@'")))
  /\ outcome (parse (js "  @"))
     = Some (inr (Error (js "Unexpected token '@'")))
  /\ outcome (parse (js "[1 2]"))
     = Some (inr (Error (js "Expected '[object Arguments]', got '2'")))
  /\ outcome (parse (js "{true:1}"))
     = Some (inr (ReferenceError (js "value is not defined"))).
Proof. repeat split; vm_compute; reflexivity. Qed.

(** C8 (amended): a lexical failure raises an Error whose message is
    [Unexpected token '<c>'], with [<c>] the character at the index where no
    grammar entry matches (the text [undefined] at the end of the source)
    and no offset; [parseValue] raises [Unexpected end of input] when
    [peek] returns null. *)
Theorem C8_lexical_error_names_the_character :
  (forall l e,
     lex l = Throw e ->
     grammar_match grammar (input (skipWhitespace l)) = None
     /\ e = Error (js "Unexpected token '"
                     ++ char_at_to_string (source l)
                          (index (skipWhitespace l))
                     ++ js "'"))
  /\ (forall fuel l l',
        peek l = Normal None l' ->
        parseValue (S fuel) l = Throw (Error (js "Unexpected end of input"))).
Proof.
  split.
  - intros l e. unfold lex. rewrite lex_grammar_spec.
    destruct (grammar_match _ _) as [[ty m]|]; [easy|].
    intros [= <-]. split; reflexivity.
  - intros fuel l l' H. cbn [parseValue]. unfold bind. now rewrite H.
Qed.

Lemma C8_lexical_error_names_the_character_witness :
  (lex (new_Lexer (js "  @")) = Throw (Error (js "Unexpected token '@'"))
   /\ grammar_match grammar
        (input (skipWhitespace (new_Lexer (js "  @")))) = None
   /\ Error (js "Unexpected token '@'")
      = Error (js "Unexpected token '"
                 ++ char_at_to_string (source (new_Lexer (js "  @")))
                      (index (skipWhitespace (new_Lexer (js "  @"))))
                 ++ js "'"))
  /\ (peek (new_Lexer []) = Normal None (new_Lexer [])
      /\ parseValue 1 (new_Lexer [])
         = Throw (Error (js "Unexpected end of input"))).
Proof.
  split.
  - split; [vm_compute; reflexivity|].
    apply (proj1 C8_lexical_error_names_the_character
             (new_Lexer (js "  @"))). vm_compute; reflexivity.
  - split; [reflexivity|].
    apply (proj2 C8_lexical_error_names_the_character 0 (new_Lexer [])
             (new_Lexer [])). reflexivity.
Defined.

(** C9 (counterexample): the input [{"a":] ends inside an unclosed object
    and raises the documented [Unexpected end of input]; the input [{"a"]
    aborts inside [ensure], which reads [value] of undefined. *)
Lemma C9_counterexample :
  outcome (parse (jsq "{'a':"))
  = Some (inr (Error (js "Unexpected end of input")))
  /\ outcome (parse (jsq "{'a'")) = Some (inr undefined_value).
Proof. split; vm_compute; reflexivity. Qed.

(** C9 (amended): whenever [is] is called with an empty stash and no input
    left it reads [value] of null, so the loops of [parseObjectLiteral] and
    [parseArrayLiteral] abort with that TypeError when the tokens run out
    at their condition; this is how the parses of [{], [[1], [[1,] and
    [{"a":1] abort. *)
Theorem C9_is_dereferences_null_at_end_of_input :
  (forall value' l,
     stash l = [] -> hasEnded l = true -> is_ value' l = Throw null_value)
  /\ (forall parseValue fuel properties l,
        stash l = [] -> hasEnded l = true ->
        parseObjectLiteral_while parseValue (S fuel) properties l
        = Throw null_value)
  /\ (forall parseValue fuel elements l,
        stash l = [] -> hasEnded l = true ->
        parseArrayLiteral_while parseValue (S fuel) elements l
        = Throw null_value)
  /\ outcome (parse (js "{")) = Some (inr null_value)
  /\ outcome (parse (js "[1")) = Some (inr null_value)
  /\ outcome (parse (js "[1,")) = Some (inr null_value)
  /\ outcome (parse (jsq "{'a':1")) = Some (inr null_value).
Proof.
  assert (forall value' l,
            stash l = [] -> hasEnded l = true ->
            is_ value' l = Throw null_value) as His.
  { intros v l Hs He. unfold is_, bind. now rewrite peek_exhausted. }
  split; [exact His|]. split; [|split].
  - intros pv fuel properties l Hs He. cbn [parseObjectLiteral_while].
    unfold bind at 1. now rewrite His.
  - intros pv fuel elements l Hs He. cbn [parseArrayLiteral_while].
    unfold bind at 1. now rewrite His.
  - repeat split; vm_compute; reflexivity.
Qed.

Lemma C9_is_dereferences_null_at_end_of_input_witness :
  let l := {| index := 1; source := js "{"; input := []; stash := [] |} in
  stash l = [] /\ hasEnded l = true /\ is_ (js "}") l = Throw null_value.
Proof.
  intros l. split; [reflexivity|]. split; [reflexivity|].
  apply (proj1 C9_is_dereferences_null_at_end_of_input (js "}") l);
    reflexivity.
Defined.

(** C10: a string, number or boolean leaf is built by [parseValue] from a
    token that [lex] returned, and the lexeme of such a leaf parses, as an
    input of its own, to a leaf of the same type with the same lexeme; so
    it is for every such leaf in the tree of a successful parse. *)
Theorem C10_reparsing_a_leaf_lexeme :
  (forall l token l' leaf value',
     lex l = Normal token l' ->
     literal token = Some leaf -> lexeme leaf = Some value' ->
     exists leaf',
       outcome (parse value') = Some (inl leaf')
       /\ Node_type leaf' = Node_type leaf
       /\ lexeme leaf' = Some value')
  /\ (forall input root leaf value',
        outcome (parse input) = Some (inl root) ->
        In leaf (nodes root) ->
        lexeme leaf = Some value' ->
        exists leaf',
          outcome (parse value') = Some (inl leaf')
          /\ Node_type leaf' = Node_type leaf
          /\ lexeme leaf' = Some value').
Proof.
  split.
  - intros l [ty v s e] l' leaf value' Hlex Hlit Hlx.
    apply lex_Normal in Hlex. destruct Hlex as [Hlexed _].
    apply (reparse_leaf leaf value'); [|exact Hlx].
    intros token Htok. unfold literal in Hlit. cbn in Hlit.
    destruct ty; try discriminate Hlit; injection Hlit as <-;
      try discriminate Hlx; cbn in Htok; injection Htok as <-;
      exact Hlexed.
  - intros input root leaf value' Hparse Hin Hlx.
    apply parse_leaves_lexed in Hparse.
    rewrite Forall_forall in Hparse. specialize (Hparse _ Hin).
    now apply (reparse_leaf leaf value').
Qed.

Lemma C10_reparsing_a_leaf_lexeme_witness :
  outcome (parse (js "[1, true]"))
  = Some (inl (ArrayLiteral [NumericLiteral (js "1") 1 2;
                             BooleanLiteral (js "true") 4 8] 0 9))
  /\ In (BooleanLiteral (js "true") 4 8)
        (nodes (ArrayLiteral [NumericLiteral (js "1") 1 2;
                              BooleanLiteral (js "true") 4 8] 0 9))
  /\ lexeme (BooleanLiteral (js "true") 4 8) = Some (js "true")
  /\ exists leaf',
       outcome (parse (js "true")) = Some (inl leaf')
       /\ Node_type leaf' = Node_type (BooleanLiteral (js "true") 4 8)
       /\ lexeme leaf' = Some (js "true").
Proof.
  split; [vm_compute; reflexivity|].
  split; [simpl; auto|]. split; [reflexivity|].
  apply (proj2 C10_reparsing_a_leaf_lexeme (js "[1, true]")
           (ArrayLiteral [NumericLiteral (js "1") 1 2;
                          BooleanLiteral (js "true") 4 8] 0 9)
           (BooleanLiteral (js "true") 4 8) (js "true")).
  - vm_compute; reflexivity.
  - simpl; auto.
  - reflexivity.
Defined.

(** * Further properties of the lexer and the parser *)

(** X1: [parse] halts on every input, returning a tree or throwing: the
    recursion and the loops of the parser end within [input.length + 1]
    rounds, and a larger bound gives the same result. *)
Theorem X1_parse_halts input :
  (exists r, outcome (parse input) = Some r)
  /\ forall fuel,
       S (length input) <= fuel ->
       Parser_parse fuel (new_Lexer input) = parse input.
Proof.
  pose proof (parse_terminates input) as Ht. split.
  - destruct (outcome (parse input)) as [r|]; [now exists r|easy].
  - intros fuel Hle. apply Parser_parse_more_fuel; [exact Hle|].
    intros E. unfold parse in Ht. now rewrite E in Ht.
Qed.

Lemma X1_parse_halts_witness :
  S (length (js "[1]")) <= 10
  /\ Parser_parse 10 (new_Lexer (js "[1]")) = parse (js "[1]").
Proof.
  split; [simpl; lia|].
  apply (proj2 (X1_parse_halts (js "[1]")) 10). simpl; lia.
Defined.


(** X3: the tokens [Lexer.all] returns are all defined, lie in the input
    one after the other without overlap, each carry the text of the input
    between their [start] and [end], and leave out nothing of the input but
    code units up to 32. *)
Theorem X3_Lexer_all_covers_the_input input out l :
  Lexer_all input = Normal out l ->
  exists tokens,
    out = map Some tokens /\ tokens_cover input 0 tokens
    /\ stash l = [] /\ hasEnded l = true.
Proof.
  intros H. unfold Lexer_all, iterator in H.
  apply Lexer_all_loop_pending in H; [|reflexivity].
  destruct H as (tokens & -> & Hp & Hs & He & _). exists tokens.
  split; [reflexivity|]. split; [|auto].
  exact (pending_cover _ _ Hp (Lexer_ok_new input)).
Qed.

Lemma X3_Lexer_all_covers_the_input_witness :
  let out :=
    [Some {| type := TOKEN_PUNCTUATOR; value := js "["; start := 1;
             end_ := 2 |};
     Some {| type := TOKEN_NUMBER; value := js "1"; start := 2; end_ := 3 |};
     Some {| type := TOKEN_PUNCTUATOR; value := js "]"; start := 3;
             end_ := 4 |}] in
  let l := {| index := 5; source := js " [1] "; input := []; stash := [] |} in
  Lexer_all (js " [1] ") = Normal out l
  /\ exists tokens,
       out = map Some tokens /\ tokens_cover (js " [1] ") 0 tokens
       /\ stash l = [] /\ hasEnded l = true.
Proof.
  intros out l. split; [vm_compute; reflexivity|].
  apply (X3_Lexer_all_covers_the_input (js " [1] ") out l).
  vm_compute; reflexivity.
Defined.

(** X4: when all of the input lexes, [parse] gives the same tree or the
    same error as the parser run on a Lexer that holds all the tokens in
    its stash already: lexing on demand and lexing ahead agree. *)
Theorem X4_parse_agrees_with_lexing_ahead input tokens l :
  Lexer_all input = Normal (map Some tokens) l ->
  outcome (parse input)
  = outcome (Parser_parse (S (length input)) (ended input tokens)).
Proof.
  intros H. apply Lexer_all_pending, lexed_ahead_new in H.
  apply agree_outcome. unfold parse.
  now apply ahead_Parser_parse.
Qed.

Lemma X4_parse_agrees_with_lexing_ahead_witness :
  let tokens :=
    [{| type := TOKEN_PUNCTUATOR; value := js "["; start := 1; end_ := 2 |};
     {| type := TOKEN_NUMBER; value := js "1"; start := 2; end_ := 3 |};
     {| type := TOKEN_PUNCTUATOR; value := js "]"; start := 3; end_ := 4 |}]
  in
  let l := {| index := 5; source := js " [1] "; input := []; stash := [] |} in
  Lexer_all (js " [1] ") = Normal (map Some tokens) l
  /\ outcome (parse (js " [1] "))
     = outcome (Parser_parse 6 (ended (js " [1] ") tokens)).
Proof.
  intros tokens l. split; [vm_compute; reflexivity|].
  apply (X4_parse_agrees_with_lexing_ahead (js " [1] ") tokens l).
  vm_compute; reflexivity.
Defined.

(** X5: every node of a parsed tree is a piece of the input: the value of
    a string, number or boolean leaf is the text from its [start] to its
    [end], a null leaf sits where the text reads [null], an array spans
    from a [[] to a []], an object from a [{] to a [}], and the keys of its
    properties are tokens of the text. *)
Theorem X5_nodes_are_pieces_of_the_input input root node :
  outcome (parse input) = Some (inl root) ->
  In node (nodes root) ->
  node_text input node.
Proof.
  intros H Hin. apply parse_node_text in H.
  rewrite Forall_forall in H. now apply H.
Qed.

Lemma X5_nodes_are_pieces_of_the_input_witness :
  let root := ArrayLiteral [NumericLiteral (js "1") 2 3] 1 4 in
  outcome (parse (js " [1] ")) = Some (inl root)
  /\ In (NumericLiteral (js "1") 2 3) (nodes root)
  /\ node_text (js " [1] ") (NumericLiteral (js "1") 2 3).
Proof.
  intros root. split; [vm_compute; reflexivity|].
  split; [simpl; auto|].
  apply (X5_nodes_are_pieces_of_the_input (js " [1] ") root).
  - vm_compute; reflexivity.
  - simpl; auto.
Defined.

(** X6: the lexeme of a token that [lex] returns is, by the kind of the
    token, a string, a numeral, one of the seven punctuator characters,
    [true] or [false], or [null]; and the lexeme determines the kind. *)
Theorem X6_lexeme_of_each_kind :
  (forall l token l',
     lex l = Normal token l' ->
     lexeme_of_kind (type token) (value token))
  /\ (forall l1 token1 l1' l2 token2 l2',
        lex l1 = Normal token1 l1' -> lex l2 = Normal token2 l2' ->
        value token1 = value token2 -> type token1 = type token2).
Proof.
  split.
  - intros l token l' H. apply lex_Normal in H. destruct H as [H _].
    now apply lexed_kind.
  - intros l1 token1 l1' l2 token2 l2' H1 H2.
    apply lex_Normal in H1, H2. destruct H1 as [H1 _], H2 as [H2 _].
    now apply lexed_type_of_value.
Qed.

Lemma X6_lexeme_of_each_kind_witness :
  let token := {| type := TOKEN_BOOLEAN; value := js "true"; start := 0;
                  end_ := 4 |} in
  let l' := {| index := 4; source := js "true"; input := []; stash := [] |} in
  lex (new_Lexer (js "true")) = Normal token l'
  /\ lexeme_of_kind (type token) (value token)
  /\ type token = type token.
Proof.
  intros token l'. split; [vm_compute; reflexivity|]. split.
  - apply (proj1 X6_lexeme_of_each_kind (new_Lexer (js "true")) token l').
    vm_compute; reflexivity.
  - apply (proj2 X6_lexeme_of_each_kind (new_Lexer (js "true")) token l'
             (new_Lexer (js "true")) token l');
      try (vm_compute; reflexivity).
Defined.

(** X7: the number entry of the grammar matches exactly the numerals: an
    integer, a fraction or both, and then an exponent or none.  No digit
    follows a leading zero in the lexeme of a number token: a zero that a
    digit follows is a number token of its own. *)
Theorem X7_number_lexemes :
  (forall n, Matches S_NUMBER n <-> spec_numeral n)
  /\ (forall l token l' d rest,
        lex l = Normal token l' -> type token = TOKEN_NUMBER ->
        value token = code "0" :: d :: rest
        \/ value token = code "-" :: code "0" :: d :: rest ->
        spec_digit d = false)
  /\ (forall d rest,
        spec_digit d = true ->
        exists l,
          lex (new_Lexer (code "0" :: d :: rest))
          = Normal (new_Token TOKEN_NUMBER (js "0") 0) l).
Proof.
  split; [exact Matches_S_NUMBER|]. split; [|exact lex_leading_zero].
  intros l token l' d rest Hlex Hty Hv.
  apply (numeral_leading_zero (value token) d rest); [|exact Hv].
  apply Matches_S_NUMBER. eapply lex_type_NUMBER; eauto.
Qed.

Lemma X7_number_lexemes_witness :
  let token := {| type := TOKEN_NUMBER; value := js "0.5"; start := 0;
                  end_ := 3 |} in
  let l' := {| index := 3; source := js "0.5"; input := []; stash := [] |} in
  (lex (new_Lexer (js "0.5")) = Normal token l'
   /\ spec_digit (code ".") = false)
  /\ (spec_digit (code "1") = true
      /\ exists l,
           lex (new_Lexer (js "0123"))
           = Normal (new_Token TOKEN_NUMBER (js "0") 0) l).
Proof.
  intros token l'. split; split.
  - vm_compute; reflexivity.
  - apply (proj1 (proj2 X7_number_lexemes) (new_Lexer (js "0.5")) token l'
             (code ".") (js "5")).
    + vm_compute; reflexivity.
    + reflexivity.
    + left. reflexivity.
  - reflexivity.
  - apply (proj2 (proj2 X7_number_lexemes) (code "1") (js "23")).
    reflexivity.
Defined.

(** X8: on a Lexer whose [input] is the rest of its [source], [lex]
    returns a token that is a non-empty piece of the source at or after
    the index, skips nothing but code units up to 32 before and after
    it, leaves the stash alone, and stops at the end of the source or at
    a code unit above 32. *)
Theorem X8_lex_returns_a_piece_of_the_source l token l' :
  Lexer_ok l -> lex l = Normal token l' ->
  token_text (source l) token
  /\ index l <= start token /\ blank (source l) (index l) (start token)
  /\ end_ token <= index l' /\ index l' <= length (source l)
  /\ blank (source l) (end_ token) (index l')
  /\ (forall c, charCodeAt (source l) (index l') = Some c -> (32 < c)%N)
  /\ Lexer_ok l' /\ source l' = source l /\ stash l' = stash l.
Proof.
  intros Hok Hlex. pose proof (lex_text l Hok) as H. unfold wp in H.
  rewrite Hlex in H.
  destruct H as (_ & H1 & H2 & H3 & H4 & H5 & H6 & H7 & H8 & H9).
  repeat (split; [assumption|]).
  split; [|tauto]. destruct H2 as [_ H2]. now rewrite H3 in H2.
Qed.

Lemma X8_lex_returns_a_piece_of_the_source_witness :
  let l := new_Lexer (js "  1 ") in
  let token := {| type := TOKEN_NUMBER; value := js "1"; start := 2;
                  end_ := 3 |} in
  let l' := {| index := 4; source := js "  1 "; input := []; stash := [] |} in
  Lexer_ok l /\ lex l = Normal token l'
  /\ token_text (source l) token
  /\ index l <= start token /\ blank (source l) (index l) (start token)
  /\ end_ token <= index l' /\ index l' <= length (source l)
  /\ blank (source l) (end_ token) (index l')
  /\ (forall c, charCodeAt (source l) (index l') = Some c -> (32 < c)%N)
  /\ Lexer_ok l' /\ source l' = source l /\ stash l' = stash l.
Proof.
  intros l token l'. split; [split; [reflexivity|simpl; lia]|].
  split; [vm_compute; reflexivity|].
  apply (X8_lex_returns_a_piece_of_the_source l token l').
  - split; [reflexivity|simpl; lia].
  - vm_compute; reflexivity.
Defined.

(** X9: an input of nothing but code units up to 32 has no value: [parse]
    throws [Unexpected end of input] when the input is empty and the
    lexical error [Unexpected token 'undefined'] otherwise; [Lexer.all]
    returns no token for the empty input and throws that error
    otherwise. *)
Theorem X9_blank_input input :
  Forall (fun c => (c <= 32)%N) input ->
  outcome (parse input)
  = Some (inr (Error (match input with
                      | [] => js "Unexpected end of input"
                      | _ :: _ => js "Unexpected token 'undefined'"
                      end)))
  /\ Lexer_all input
     = match input with
       | [] => Normal [] (new_Lexer [])
       | _ :: _ => Throw (Error (js "Unexpected token 'undefined'"))
       end.
Proof.
  intros H. destruct input as [|c input]; [split; reflexivity|].
  rewrite parse_blank, Lexer_all_blank by easy. split; reflexivity.
Qed.

Lemma X9_blank_input_witness :
  Forall (fun c => (c <= 32)%N) [SPACE; LF]
  /\ outcome (parse [SPACE; LF])
     = Some (inr (Error (js "Unexpected token 'undefined'")))
  /\ Lexer_all [SPACE; LF]
     = Throw (Error (js "Unexpected token 'undefined'")).
Proof.
  assert (Forall (fun c => (c <= 32)%N) [SPACE; LF]) as H
    by (repeat constructor; unfold SPACE, LF; lia).
  split; [exact H|]. exact (X9_blank_input [SPACE; LF] H).
Defined.

(** X10: whatever [parse] throws is the error of [lex], whose message
    quotes one code unit of the source or [undefined]; the Error
    [Unexpected end of input]; the Error [Unexpected token] followed by one
    of the punctuators double quote, colon, comma, closing bracket and
    closing brace; the Error of [ensure] with its [[object Arguments]],
    which quotes the lexeme of a token [lex] built; the TypeError of
    reading [value] of null or of undefined; or the ReferenceError of
    [ensureType]. *)
Theorem X10_what_parse_throws input e :
  outcome (parse input) = Some (inr e) -> parse_error e.
Proof.
  intros H. unfold parse, Parser_parse, bind in H.
  pose proof (parseValue_runs (S (length input)) (new_Lexer input)) as Hr.
  destruct (parseValue (S (length input)) (new_Lexer input))
    as [node l| |]; try discriminate.
  injection H as <-. apply Hr. constructor.
Qed.

Lemma X10_what_parse_throws_witness :
  let e := Error (js "Expected '[object Arguments]', got '2'") in
  outcome (parse (js "[1 2]")) = Some (inr e) /\ parse_error e.
Proof.
  intros e. split; [vm_compute; reflexivity|].
  apply (X10_what_parse_throws (js "[1 2]") e). vm_compute; reflexivity.
Defined.





(** X13: after a [peek] that returned a token, [next] yields that token
    and a second [peek], when it returns, returns it again; a [peek]
    that returned null has left the Lexer as it was, with nothing stashed
    and no input left, and [next] is done. *)
Theorem X13_peek_then_next l x l' :
  peek l = Normal x l' ->
  match x with
  | Some token =>
      next l' = Normal {| done := false; result := Some token |} (shift l')
      /\ forall y l'', peek l' = Normal y l'' -> y = Some token
  | None =>
      l' = l /\ stash l = [] /\ hasEnded l = true
      /\ next l = Normal {| done := true; result := None |} l
  end.
Proof.
  intros H. destruct x as [token|].
  - split; [now apply (peek_then_next l)|].
    intros y l'' Hy. now apply (peek_peek l token l' y l'').
  - apply peek_None in H. destruct H as (-> & Hs & He).
    repeat split; auto. unfold next. now rewrite Hs, He.
Qed.

Lemma X13_peek_then_next_witness :
  let one := {| type := TOKEN_NUMBER; value := js "1"; start := 0;
                end_ := 1 |} in
  let l' := {| index := 2; source := js "1 2"; input := js "2";
               stash := [one] |} in
  peek (new_Lexer (js "1 2")) = Normal (Some one) l'
  /\ next l' = Normal {| done := false; result := Some one |} (shift l')
  /\ forall y l'', peek l' = Normal y l'' -> y = Some one.
Proof.
  intros one l'. split; [vm_compute; reflexivity|].
  apply (X13_peek_then_next (new_Lexer (js "1 2")) (Some one) l').
  vm_compute; reflexivity.
Defined.

(** X14: tokens after the value are ignored when all of the input lexes:
    if an input lexes to some tokens and parses to a tree, then every
    input that lexes to the same tokens and more tokens behind them
    parses to the same tree. *)
Theorem X14_tokens_after_the_value_are_ignored
  input tokens l root input' extra l' :
  Lexer_all input = Normal (map Some tokens) l ->
  outcome (parse input) = Some (inl root) ->
  Lexer_all input' = Normal (map Some (tokens ++ extra)) l' ->
  outcome (parse input') = Some (inl root).
Proof.
  intros Hall Hparse Hall'. apply Lexer_all_pending in Hall, Hall'.
  set (f := S (length input)).
  pose proof (ahead_Parser_parse f _ _ (lexed_ahead_new _ _ Hall)) as Ha.
  apply outcome_node in Hparse. destruct Hparse as (p & l0 & Hp & <-).
  unfold parse in Hp. fold f in Hp. rewrite Hp in Ha.
  destruct (Parser_parse f (ended input tokens)) as [p1 l1| |] eqn:E1;
    try easy.
  destruct Ha as [<- _].
  assert (extended extra (ended input tokens)
            (ended input' (tokens ++ extra))) as Hext.
  { split; [apply hasEnded_ended|]. split; [apply hasEnded_ended|].
    reflexivity. }
  destruct (blind_Parser_parse extra f _ _ _ _ Hext E1) as (l2 & E2 & _).
  exact (parse_of_pending _ _ _ _ _ Hall' E2).
Qed.

Lemma X14_tokens_after_the_value_are_ignored_witness :
  let one := {| type := TOKEN_NUMBER; value := js "1"; start := 0;
                end_ := 1 |} in
  let two := {| type := TOKEN_NUMBER; value := js "2"; start := 2;
                end_ := 3 |} in
  let l := {| index := 2; source := js "1 "; input := []; stash := [] |} in
  let l' := {| index := 3; source := js "1 2"; input := []; stash := [] |} in
  Lexer_all (js "1 ") = Normal (map Some [one]) l
  /\ outcome (parse (js "1 ")) = Some (inl (NumericLiteral (js "1") 0 1))
  /\ Lexer_all (js "1 2") = Normal (map Some ([one] ++ [two])) l'
  /\ outcome (parse (js "1 2")) = Some (inl (NumericLiteral (js "1") 0 1)).
Proof.
  intros one two l l'. split; [vm_compute; reflexivity|].
  split; [vm_compute; reflexivity|]. split; [vm_compute; reflexivity|].
  apply (X14_tokens_after_the_value_are_ignored (js "1 ") [one] l
           (NumericLiteral (js "1") 0 1) (js "1 2") [two] l');
    vm_compute; reflexivity.
Defined.

(** X15: [skipWhitespace] does nothing when it is called a second time,
    and [lex] does the same on a Lexer and on that Lexer after
    [skipWhitespace]. *)
Theorem X15_skipWhitespace_twice l :
  skipWhitespace (skipWhitespace l) = skipWhitespace l
  /\ lex (skipWhitespace l) = lex l.
Proof.
  split; [apply skipWhitespace_idempotent|].
  unfold lex. now rewrite skipWhitespace_idempotent.
Qed.

(** X16: when all of the input lexes, [parse] returns a tree exactly when
    the tokens begin with a value of this syntax, and the tree is the one
    the syntax gives: a value is a literal token, or [[], elements and
    []], or [{], members and [}]; a comma or the closing token follows an
    element or a member, so a comma may stand before the closing token;
    the key of a member is a string or a number token; and nothing is
    asked of the tokens after the value. *)
Theorem X16_the_syntax_parse_accepts input tokens l root :
  Lexer_all input = Normal (map Some tokens) l ->
  outcome (parse input) = Some (inl root)
  <-> exists tokens', parses tokens root tokens'.
Proof.
  intros Hall. pose proof (Lexer_all_pending _ _ _ Hall) as Hp. split.
  - intros H.
    pose proof (ahead_Parser_parse (S (length input)) _ _
                  (lexed_ahead_new _ _ Hp)) as Ha.
    apply outcome_node in H. destruct H as (p & l0 & H & <-).
    unfold parse in H. rewrite H in Ha. unfold Parser_parse, bind in Ha.
    destruct (parseValue (S (length input)) (ended input tokens))
      as [node l1| |] eqn:E; try easy.
    destruct Ha as [-> _]. cbn [program].
    apply parseValue_parses in E; [|apply hasEnded_ended].
    destruct E as [_ E]. eauto.
  - intros (tokens' & H).
    destruct (proj1 parses_complete _ _ _ H (ended input tokens))
      as (fuel & E); [apply hasEnded_ended|reflexivity|].
    apply (parse_of_pending input tokens fuel {| program := root |}
             (with_stash tokens' (ended input tokens)) Hp).
    unfold Parser_parse, bind. now rewrite E.
Qed.

Lemma X16_the_syntax_parse_accepts_witness :
  let open := {| type := TOKEN_PUNCTUATOR; value := js "["; start := 0;
                 end_ := 1 |} in
  let one := {| type := TOKEN_NUMBER; value := js "1"; start := 1;
                end_ := 2 |} in
  let comma := {| type := TOKEN_PUNCTUATOR; value := js ","; start := 2;
                  end_ := 3 |} in
  let close := {| type := TOKEN_PUNCTUATOR; value := js "]"; start := 3;
                  end_ := 4 |} in
  let l := {| index := 4; source := js "[1,]"; input := []; stash := [] |} in
  let root := ArrayLiteral [NumericLiteral (js "1") 1 2] 0 4 in
  Lexer_all (js "[1,]") = Normal (map Some [open; one; comma; close]) l
  /\ outcome (parse (js "[1,]")) = Some (inl root)
  /\ exists tokens', parses [open; one; comma; close] root tokens'.
Proof.
  intros open one comma close l root.
  assert (Lexer_all (js "[1,]")
          = Normal (map Some [open; one; comma; close]) l) as H
    by (vm_compute; reflexivity).
  split; [exact H|]. split; [vm_compute; reflexivity|].
  apply (proj1 (X16_the_syntax_parse_accepts (js "[1,]")
                  [open; one; comma; close] l root H)).
  vm_compute; reflexivity.
Defined.

(** X17: whitespace between the tokens does not matter: two inputs that
    lex to the same kinds and values of tokens, wherever the tokens stand,
    parse to trees that are equal once the positions are erased, or throw
    the same error. *)
Theorem X17_whitespace_between_tokens input tokens l input2 tokens2 l2 :
  Lexer_all input = Normal (map Some tokens) l ->
  Lexer_all input2 = Normal (map Some tokens2) l2 ->
  map unplaced_token tokens = map unplaced_token tokens2 ->
  match outcome (parse input), outcome (parse input2) with
  | Some (inl root), Some (inl root2) => unplaced root = unplaced root2
  | Some (inr e), Some (inr e2) => e = e2
  | _, _ => False
  end.
Proof.
  intros Hall Hall2 Htokens. apply Lexer_all_pending in Hall, Hall2.
  set (f := S (length input)).
  assert (alike (ended input tokens) (ended input2 tokens2)) as Hl.
  { split; [apply hasEnded_ended|]. split; [apply hasEnded_ended|].
    exact Htokens. }
  pose proof (alike_runs_Parser_parse f _ _ Hl) as Hr.
  pose proof (parse_terminates input) as Ht.
  assert (outcome (parse input)
          = outcome (Parser_parse f (ended input tokens))) as E.
  { apply agree_outcome. unfold parse.
    apply ahead_Parser_parse. now apply lexed_ahead_new. }
  rewrite E in Ht |- *.
  destruct (Parser_parse f (ended input tokens)) as [p l1|e|] eqn:E1;
    [| |easy];
    destruct (Parser_parse f (ended input2 tokens2)) as [p2 l3|e2|] eqn:E2;
    try easy;
    rewrite (parse_outcome_of_pending input2 tokens2 f Hall2),
      E2 by (rewrite E2; discriminate); cbn.
  - now destruct Hr.
  - exact Hr.
Qed.

Lemma X17_whitespace_between_tokens_witness :
  let open a := {| type := TOKEN_PUNCTUATOR; value := js "["; start := a;
                   end_ := a + 1 |} in
  let one a := {| type := TOKEN_NUMBER; value := js "1"; start := a;
                  end_ := a + 1 |} in
  let close a := {| type := TOKEN_PUNCTUATOR; value := js "]"; start := a;
                    end_ := a + 1 |} in
  let l := {| index := 3; source := js "[1]"; input := []; stash := [] |} in
  let l2 :=
    {| index := 6; source := js " [ 1 ]"; input := []; stash := [] |} in
  Lexer_all (js "[1]") = Normal (map Some [open 0; one 1; close 2]) l
  /\ Lexer_all (js " [ 1 ]") = Normal (map Some [open 1; one 3; close 5]) l2
  /\ outcome (parse (js "[1]"))
     = Some (inl (ArrayLiteral [NumericLiteral (js "1") 1 2] 0 3))
  /\ outcome (parse (js " [ 1 ]"))
     = Some (inl (ArrayLiteral [NumericLiteral (js "1") 3 4] 1 6))
  /\ match outcome (parse (js "[1]")), outcome (parse (js " [ 1 ]")) with
     | Some (inl root), Some (inl root2) => unplaced root = unplaced root2
     | Some (inr e), Some (inr e2) => e = e2
     | _, _ => False
     end.
Proof.
  intros open one close l l2.
  split; [vm_compute; reflexivity|]. split; [vm_compute; reflexivity|].
  split; [vm_compute; reflexivity|]. split; [vm_compute; reflexivity|].
  apply (X17_whitespace_between_tokens (js "[1]") [open 0; one 1; close 2] l
           (js " [ 1 ]") [open 1; one 3; close 5] l2);
    vm_compute; reflexivity.
Defined.

(** X18: keywords and punctuators need no delimiter: an input that begins
    with [true], [false] or [null] lexes to that token whatever follows,
    and an input that begins with one of [:,[]{}] lexes to that
    punctuator; an input that begins with a double quote always lexes, to a
    string token when a string of the grammar stands there and to the
    punctuator of the double quote alone otherwise. *)
Theorem X18_tokens_that_need_no_delimiter :
  (forall ty keyword rest,
     In (ty, keyword)
        [(TOKEN_BOOLEAN, js "true"); (TOKEN_BOOLEAN, js "false");
         (TOKEN_NULL, js "null")] ->
     exists l,
       lex (new_Lexer (keyword ++ rest)) = Normal (new_Token ty keyword 0) l)
  /\ (forall c rest,
        In c punctuators -> c <> DQUOTE ->
        exists l,
          lex (new_Lexer (c :: rest))
          = Normal (new_Token TOKEN_PUNCTUATOR [c] 0) l)
  /\ (forall rest,
        exists token l,
          lex (new_Lexer (DQUOTE :: rest)) = Normal token l
          /\ start token = 0
          /\ ((type token = TOKEN_STRING /\ spec_string (value token))
              \/ (type token = TOKEN_PUNCTUATOR /\ value token = [DQUOTE]
                  /\ String_match (DQUOTE :: rest) S_STRING = None))).
Proof.
  split; [|split].
  - intros ty keyword rest. apply lex_keyword.
  - intros c rest. apply lex_punctuator.
  - intros rest. apply lex_quote.
Qed.

Lemma X18_tokens_that_need_no_delimiter_witness :
  (In (TOKEN_BOOLEAN, js "true")
      [(TOKEN_BOOLEAN, js "true"); (TOKEN_BOOLEAN, js "false");
       (TOKEN_NULL, js "null")]
   /\ exists l,
        lex (new_Lexer (js "true" ++ js "false"))
        = Normal (new_Token TOKEN_BOOLEAN (js "true") 0) l)
  /\ (In (code "[") punctuators /\ code "[" <> DQUOTE
      /\ exists l,
           lex (new_Lexer (code "[" :: js "x"))
           = Normal (new_Token TOKEN_PUNCTUATOR [code "["] 0) l).
Proof.
  split.
  - split; [simpl; auto|].
    apply (proj1 X18_tokens_that_need_no_delimiter TOKEN_BOOLEAN
             (js "true") (js "false")). simpl; auto.
  - split; [simpl; auto 10|]. split; [discriminate|].
    apply (proj1 (proj2 X18_tokens_that_need_no_delimiter) (code "[")
             (js "x")); [simpl; auto 10|discriminate].
Defined.

(** X19: on a Lexer whose [input] is the rest of its [source], [lex]
    throws only after it has skipped code units up to 32 to the end of the
    source, with the text [undefined] in the message, or to a code unit
    above 32 that is no punctuator and no digit, which the message
    quotes. *)
Theorem X19_where_lex_throws l e :
  Lexer_ok l -> lex l = Throw e ->
  blank (source l) (index l) (index (skipWhitespace l))
  /\ ((length (source l) <= index (skipWhitespace l)
       /\ e = Error (js "Unexpected token 'undefined'"))
      \/ (exists c,
            charCodeAt (source l) (index (skipWhitespace l)) = Some c
            /\ (32 < c)%N /\ ~ In c punctuators /\ spec_digit c = false
            /\ e = Error (js "Unexpected token '" ++ [c] ++ js "'"))).
Proof.
  intros Hok Hlex. set (i := index (skipWhitespace l)).
  unfold lex in Hlex. rewrite lex_grammar_spec in Hlex.
  destruct (Lexer_ok_skipWhitespace l Hok) as [[Hin Hle] Hidx].
  destruct (skipWhitespace_loop_spec (length (source l)) (source l) (index l))
    as (_ & _ & Hb & Hgt); [lia|].
  rewrite <- index_skipWhitespace in Hb, Hgt. fold i in Hb, Hgt, Hin, Hle.
  destruct (grammar_match grammar (input (skipWhitespace l)))
    as [[ty m]|] eqn:E; [discriminate|].
  assert (e = Error (js "Unexpected token '"
                       ++ char_at_to_string (source l) i ++ js "'")) as ->
    by (injection Hlex as Hlex; symmetry; exact Hlex).
  clear Hlex. split; [exact Hb|].
  change (source (skipWhitespace l)) with (source l) in *.
  unfold char_at_to_string, charCodeAt in *.
  destruct (nth_error (source l) i) as [c|] eqn:Ec.
  - right. exists c. split; [reflexivity|]. split; [now apply Hgt|].
    destruct (skipn_nth_error _ _ _ Ec) as (rest & Hrest).
    unfold substr in Hin. rewrite Hin, Hrest in E.
    split; [|split; [|reflexivity]].
    + intros Hp. now apply (grammar_match_punctuator c rest).
    + destruct (spec_digit c) eqn:Hd; [|reflexivity].
      now apply (grammar_match_digit c rest) in Hd.
  - left. split; [now apply nth_error_None in Ec|reflexivity].
Qed.

Lemma X19_where_lex_throws_witness :
  let l := new_Lexer (js " -") in
  let e := Error (js "Unexpected token '-'") in
  Lexer_ok l /\ lex l = Throw e
  /\ blank (source l) (index l) (index (skipWhitespace l))
  /\ ((length (source l) <= index (skipWhitespace l)
       /\ e = Error (js "Unexpected token 'undefined'"))
      \/ (exists c,
            charCodeAt (source l) (index (skipWhitespace l)) = Some c
            /\ (32 < c)%N /\ ~ In c punctuators /\ spec_digit c = false
            /\ e = Error (js "Unexpected token '" ++ [c] ++ js "'"))).
Proof.
  intros l e. split; [apply Lexer_ok_new|].
  split; [vm_compute; reflexivity|].
  apply (X19_where_lex_throws l e); [apply Lexer_ok_new|].
  vm_compute; reflexivity.
Defined.
